(** * AutoNav_Runner: control orchestration, place recognition and planning

    A shallow embedding of the Python sources
    - [systems/state.py], [systems/subsystem.py]  (shared state, lifecycle)
    - [systems/vpr.py]                            (place-recognition smoothing)
    - [systems/inference.py], [controller.py]     (channels, actuation loop)
    - [drivers/pwmcontroller.py]                  (actuator commands)
    - [systems/navigator.py]                      (heading-constrained planner)

    Conventions.  Python [float]s are modelled by exact rationals [Q]; the
    properties below only use comparisons, sums and one division, and never
    depend on rounding.  Python [int]s are [Z].  Region ids are [string]s.
    Lists and dicts that are shared between callers live in an object heap.
    What comes from outside the repository is a parameter: the learned
    policy, the embedding model with [torch.topk] (a frame is given by its
    top-K list), [math.atan2] and [math.sin]/[math.cos], the [networkx]
    shortest-path queries, and [time.time].  [queue.Queue],
    [collections.deque] and [copy.deepcopy] are modelled by what they do on
    the values used here. *)

From Stdlib Require Import QArith Qround Qabs Lqa.
From stdpp Require Import base option list strings gmap.

Local Open Scope Q_scope.

(** ** Rational helpers *)

(** [a > b] on Python numbers. *)
Definition Qgtb (a b : Q) : bool := negb (Qle_bool a b).

(** Python's built-ins [min(a, b)] and [max(a, b)]: the first argument is
    returned unless the second is strictly smaller (resp. larger). *)
Definition py_min (a b : Q) : Q := if Qgtb a b then b else a.
Definition py_max (a b : Q) : Q := if Qgtb b a then b else a.

(** [int(x)]: truncation toward zero. *)
Definition py_int (x : Q) : Z := Z.quot (Qnum x) (Zpos (Qden x)).

(** [sum(v)]: left fold starting from [0]. *)
Definition py_sum (v : list Q) : Q := fold_left Qplus v 0.

(** [len(v)] as a number. *)
Definition py_len {A} (v : list A) : Q := inject_Z (Z.of_nat (length v)).

(** ** Python values and the object heap

    Lists and dicts are mutable objects with identity; they live in a heap
    and are held by reference.  Everything else that can be published is
    immutable: numbers, strings, [None], and any other object (a tuple of
    numbers and strings, say), which is known here by its [str()] form. *)

Module Py.

Abbreviation loc := nat.

Inductive value :=
| VNone
| VBool (b : bool)
| VInt (z : Z)
| VFloat (q : Q)
| VStr (s : string)
| VObj (str : string)
| VRef (l : loc).

(** A dict is kept as its items in insertion order; keys are strings. *)
Inductive obj :=
| OList (items : list value)
| ODict (items : list (string * value)).

Abbreviation heap := (list obj).

(** [d.get(k)] *)
Fixpoint dict_get {V} (d : list (string * V)) (k : string) : option V :=
  match d with
  | [] => None
  | (k', v) :: rest => if String.eqb k' k then Some v else dict_get rest k
  end.

(** [d[k] = v]: overwrite in place, or append a new key. *)
Fixpoint dict_set {V} (d : list (string * V)) (k : string) (v : V)
  : list (string * V) :=
  match d with
  | [] => [(k, v)]
  | (k', v') :: rest =>
      if String.eqb k' k then (k', v) :: rest
      else (k', v') :: dict_set rest k v
  end.

(** The values an object holds. *)
Definition fields (o : obj) : list value :=
  match o with
  | OList xs => xs
  | ODict kvs => map snd kvs
  end.

(** [reach h a b]: object [b] can be reached from object [a]. *)
Inductive reach (h : heap) : loc -> loc -> Prop :=
| reach_refl l : reach h l l
| reach_step l o l' l'' :
    h !! l = Some o -> In (VRef l') (fields o) -> reach h l' l'' ->
    reach h l l''.

(** Every reference points into the heap and dict keys are distinct. *)
Definition value_closed (n : nat) (v : value) : Prop :=
  match v with
  | VRef l => (l < n)%nat
  | _ => True
  end.

Definition obj_wf (n : nat) (o : obj) : Prop :=
  Forall (value_closed n) (fields o) /\
  match o with
  | OList _ => True
  | ODict kvs => NoDup (map fst kvs)
  end.

Definition heap_wf (h : heap) : Prop := Forall (obj_wf (length h)) h.

(** *** [copy.deepcopy(x, memo)] on lists and dicts

    A list or dict is copied once: the fresh, still empty copy is entered
    in [memo] before its items are copied in order.  Immutable values are
    returned as they are.  [fuel] bounds the nesting depth. *)

Record cstate := mk_cstate {
  c_heap : heap;
  c_memo : gmap loc loc;
}.

Definition list_append (l : loc) (x : value) (h : heap) : heap :=
  match h !! l with
  | Some (OList xs) => <[l := OList (xs ++ [x])]> h
  | _ => h
  end.

Definition dict_store (l : loc) (k : string) (x : value) (h : heap) : heap :=
  match h !! l with
  | Some (ODict kvs) => <[l := ODict (dict_set kvs k x)]> h
  | _ => h
  end.

(** The loop of [_deepcopy_list]: [y.append(deepcopy(a, memo))] for each
    item, where [y] is the copy at [l'] and [rec] is [deepcopy]. *)
Fixpoint copy_list_items (rec : value -> cstate -> option (value * cstate))
  (l' : loc) (xs : list value) (st : cstate) : option cstate :=
  match xs with
  | [] => Some st
  | x :: xs' =>
      match rec x st with
      | None => None
      | Some (x', st') =>
          copy_list_items rec l' xs'
            {| c_heap := list_append l' x' (c_heap st'); c_memo := c_memo st' |}
      end
  end.

(** The loop of [_deepcopy_dict]: [y[key] = deepcopy(value, memo)]; the
    keys are strings, which [deepcopy] returns as they are. *)
Fixpoint copy_dict_items (rec : value -> cstate -> option (value * cstate))
  (l' : loc) (kvs : list (string * value)) (st : cstate) : option cstate :=
  match kvs with
  | [] => Some st
  | (k, x) :: kvs' =>
      match rec x st with
      | None => None
      | Some (x', st') =>
          copy_dict_items rec l' kvs'
            {| c_heap := dict_store l' k x' (c_heap st'); c_memo := c_memo st' |}
      end
  end.

(** The state after the empty copy [o] of the object at [l] is created and
    remembered. *)
Definition enter (l : loc) (o : obj) (st : cstate) : cstate :=
  {| c_heap := c_heap st ++ [o];
     c_memo := <[l := length (c_heap st)]> (c_memo st) |}.

Fixpoint deepcopy (fuel : nat) (v : value) (st : cstate)
  : option (value * cstate) :=
  match v with
  | VRef l =>
      match c_memo st !! l with
      | Some l' => Some (VRef l', st)
      | None =>
          match fuel with
          | O => None
          | S fuel' =>
              let l' := length (c_heap st) in
              match c_heap st !! l with
              | None => None
              | Some (OList xs) =>
                  match copy_list_items (deepcopy fuel') l' xs
                          (enter l (OList []) st) with
                  | None => None
                  | Some st' => Some (VRef l', st')
                  end
              | Some (ODict kvs) =>
                  match copy_dict_items (deepcopy fuel') l' kvs
                          (enter l (ODict []) st) with
                  | None => None
                  | Some st' => Some (VRef l', st')
                  end
              end
          end
      end
  | _ => Some (v, st)
  end.

(** [m] relates a value to its copy. *)
Definition copied (m : gmap loc loc) (v v' : value) : Prop :=
  match v with
  | VRef l => exists l', m !! l = Some l' /\ v' = VRef l'
  | _ => v' = v
  end.

Definition pair_copied (m : gmap loc loc) (a b : string * value) : Prop :=
  fst a = fst b /\ copied m (snd a) (snd b).

(** [o'] is the copy of [o]: same kind, same length, same keys, items
    related by [m]. *)
Definition obj_copied (m : gmap loc loc) (o o' : obj) : Prop :=
  match o, o' with
  | OList xs, OList ys => Forall2 (copied m) xs ys
  | ODict kvs, ODict kvs' => Forall2 (pair_copied m) kvs kvs'
  | _, _ => False
  end.

(** *** Notions used to state what a copy is *)

(** A value of a freshly made copy: immutable, or a reference to another
    object of the copy (at or above [base], below [top]). *)
Definition fresh_value (base top : nat) (v : value) : Prop :=
  match v with
  | VRef l => (base <= l)%nat /\ (l < top)%nat
  | _ => True
  end.

(** The state of a copy in progress, started on heap [h0]. *)
Record copying (h0 : heap) (st : cstate) : Prop := mk_copying {
  copying_old : forall l, (l < length h0)%nat -> c_heap st !! l = h0 !! l;
  copying_grows : (length h0 <= length (c_heap st))%nat;
  copying_memo : forall l l', c_memo st !! l = Some l' ->
                   (l < length h0)%nat /\
                   (length h0 <= l')%nat /\ (l' < length (c_heap st))%nat;
  copying_new : forall l o, (length h0 <= l)%nat -> c_heap st !! l = Some o ->
                   Forall (fresh_value (length h0) (length (c_heap st)))
                          (fields o);
}.

(** What one call [rec v st = Some (v', st')] of [deepcopy] achieves. *)
Definition copy_step (h0 : heap) (v : value) (st : cstate)
  (v' : value) (st' : cstate) : Prop :=
  copying h0 st' /\
  c_memo st ⊆ c_memo st' /\
  (forall l, (l < length (c_heap st))%nat -> c_heap st' !! l = c_heap st !! l) /\
  (length (c_heap st) <= length (c_heap st'))%nat /\
  copied (c_memo st') v v' /\
  (forall a a', c_memo st' !! a = Some a' -> c_memo st !! a = None ->
     (length (c_heap st) <= a')%nat /\
     exists o o', h0 !! a = Some o /\ c_heap st' !! a' = Some o' /\
                  obj_copied (c_memo st') o o').

(** What the item loops achieve, whichever container is copied: the state
    reached from [st], where only the copy at [l'] and new objects change. *)
Definition loop_step (h0 : heap) (l' : loc) (st st' : cstate) : Prop :=
  copying h0 st' /\
  c_memo st ⊆ c_memo st' /\
  (forall a, (a < length (c_heap st))%nat -> a <> l' ->
             c_heap st' !! a = c_heap st !! a) /\
  (length (c_heap st) <= length (c_heap st'))%nat /\
  (forall a a', c_memo st' !! a = Some a' -> c_memo st !! a = None ->
     (length (c_heap st) <= a')%nat /\
     exists o o', h0 !! a = Some o /\ c_heap st' !! a' = Some o' /\
                  obj_copied (c_memo st') o o').

Definition copies (h0 : heap)
  (rec : value -> cstate -> option (value * cstate)) : Prop :=
  forall v st v' st',
    rec v st = Some (v', st') ->
    copying h0 st -> value_closed (length h0) v ->
    copy_step h0 v st v' st'.

(** [rec] answers when it has [n] units of fuel left for the objects not
    yet in the memo. *)
Definition answers (h0 : heap) (n : nat)
  (rec : value -> cstate -> option (value * cstate)) : Prop :=
  forall v st, copying h0 st -> value_closed (length h0) v ->
               (length h0 - size (c_memo st) <= n)%nat ->
               is_Some (rec v st).
End Py.

(** ** [queue.Queue(maxsize)]: a bounded FIFO channel *)

Module Queue.
Section Queue.
Context {A : Type}.

(** [maxsize = 0] means unbounded, as in Python. *)
Definition full (maxsize : nat) (q : list A) : bool :=
  negb (Nat.eqb maxsize 0) && Nat.leb maxsize (length q).

Definition empty (q : list A) : bool :=
  match q with [] => true | _ => false end.

(** [put_nowait]: [None] stands for the exception [Full]. *)
Definition put_nowait (maxsize : nat) (q : list A) (x : A) : option (list A) :=
  if full maxsize q then None else Some (q ++ [x]).

(** [get_nowait]: [None] stands for the exception [Empty]. *)
Definition get_nowait (q : list A) : option (A * list A) :=
  match q with
  | [] => None
  | x :: q' => Some (x, q')
  end.

(** [get(timeout=...)]: the consumer blocks for a bounded time; [arrival]
    is what a producer enqueues during the wait, if anything. *)
Definition get_timeout (q : list A) (arrival : option A) : option (A * list A) :=
  match q with
  | x :: q' => Some (x, q')
  | [] => match arrival with
          | Some x => Some (x, [])
          | None => None
          end
  end.
End Queue.
End Queue.

(** ** [drivers/pwmcontroller.py] *)

Module PWM.
Definition STEER_MIN : Z := 1000.
Definition STEER_MAX : Z := 2000.
Definition THROTTLE_NEUTRAL : Z := 1500.
Definition THROTTLE_BRAKE_US : Z := 1000.
Definition THR_DEADBAND : Q := 0.
Definition THR_START_US : Z := 1575.
Definition THR_MAX_US : Z := 1600.
Definition THR_RANGE_US : Z := THR_MAX_US - THR_START_US.

Record t := mk { throttle_us : Z; steer_us : Z }.

(** The calls the actuation loop makes on the controller. *)
Inductive command :=
| HardBrake
| SetControls (throttle steering : Q).

Definition set_controls (throttle steering : Q) (p : t) : t :=
  let thr :=
    if Qle_bool throttle THR_DEADBAND then THROTTLE_NEUTRAL
    else
      let val := py_min 1 ((throttle - THR_DEADBAND) / (1 - THR_DEADBAND)) in
      py_int (inject_Z THR_START_US + val * inject_Z THR_RANGE_US) in
  let st := py_int (1500 + steering * 500) in
  let st := Z.max STEER_MIN (Z.min st STEER_MAX) in
  {| throttle_us := thr; steer_us := st |}.

(** [hard_brake()] with the default [hold_s = 0.0]. *)
Definition hard_brake (p : t) : t :=
  {| throttle_us := THROTTLE_BRAKE_US; steer_us := steer_us p |}.

Definition exec (c : command) (p : t) : t :=
  match c with
  | HardBrake => hard_brake p
  | SetControls th st => set_controls th st p
  end.
End PWM.

(** ** [systems/vpr.py]: sliding-window smoothing of per-frame top-K lists *)

Module VPR.
Definition AVG_WINDOW : nat := 3.
Definition TOP_K : nat := 5.

(** One (region-id, confidence) pair, and the top-K list of one frame. *)
Definition entry : Type := string * Q.
Definition frame : Type := list entry.

Record t := mk {
  image : option frame;     (* self._image, identified with the top-K list
                               the embedding model and torch.topk yield on it *)
  top_k : list entry;       (* self._top_k *)
  pred_hist : list frame;   (* self.pred_hist, oldest first *)
}.

Definition blank : list entry := replicate TOP_K (""%string, 0).

(** [__init__] followed by [init_hardware]. *)
Definition init : t := {| image := None; top_k := blank; pred_hist := [] |}.

(** [set_image(image)]: overwrite any frame not yet consumed. *)
Definition set_image (img : option frame) (s : t) : t :=
  match img with
  | None => s
  | Some f => {| image := Some f; top_k := top_k s; pred_hist := pred_hist s |}
  end.

(** [deque(maxlen=n).append(x)]: the oldest items fall off the left. *)
Definition deque_append {A} (maxlen : nat) (d : list A) (x : A) : list A :=
  let d' := d ++ [x] in drop (length d' - maxlen) d'.

(** [acc[r].append(c)] on a [defaultdict(list)]; a Python dict keeps its
    keys in insertion order, which [sorted] later relies on for ties. *)
Fixpoint acc_append (acc : list (string * list Q)) (r : string) (c : Q)
  : list (string * list Q) :=
  match acc with
  | [] => [(r, [c])]
  | (r', v) :: rest =>
      if String.eqb r' r then (r', v ++ [c]) :: rest
      else (r', v) :: acc_append rest r c
  end.

Definition acc_frame (acc : list (string * list Q)) (f : frame)
  : list (string * list Q) :=
  fold_left (fun a rc => acc_append a (fst rc) (snd rc)) f acc.

(** The two nested [for] loops over [self.pred_hist]. *)
Definition accumulate (hist : list frame) : list (string * list Q) :=
  fold_left acc_frame hist [].

(** [{r: sum(v) / len(v) for r, v in acc.items()}] *)
Definition mean_conf (acc : list (string * list Q)) : list entry :=
  map (fun rv => (fst rv, py_sum (snd rv) / py_len (snd rv))) acc.

(** [sorted(items, key=lambda x: x[1], reverse=True)]: a stable sort in
    descending key order (equal keys keep their dict order). *)
Fixpoint insert_desc (x : entry) (l : list entry) : list entry :=
  match l with
  | [] => [x]
  | y :: l' =>
      if Qgtb (snd y) (snd x) then y :: insert_desc x l'
      else x :: y :: l'
  end.

Definition sorted_desc (l : list entry) : list entry :=
  foldr insert_desc [] l.

(** The smoothed estimate recomputed from a window. *)
Definition smooth (hist : list frame) : list entry :=
  take TOP_K (sorted_desc (mean_conf (accumulate hist))).

(** [loop()]: nothing happens without a pending image; otherwise the image
    is taken, its frame-level list pushed, and the estimate recomputed. *)
Definition loop (s : t) : t :=
  match image s with
  | None => s
  | Some frame_top =>
      let hist := deque_append AVG_WINDOW (pred_hist s) frame_top in
      {| image := None; top_k := smooth hist; pred_hist := hist |}
  end.

(** One processed frame: [set_image] then [loop]. *)
Definition process (frame_top : frame) (s : t) : t :=
  loop (set_image (Some frame_top) s).

Definition get_top_regions (s : t) : list entry := top_k s.

(** [clear()]: only [_top_k] is assigned. *)
Definition clear (s : t) : t :=
  {| image := image s; top_k := blank; pred_hist := pred_hist s |}.

(** *** Reference notions for the smoothing properties *)

(** The confidences of region [r] listed in one frame, and in a window. *)
Definition confs_in_frame (r : string) (f : frame) : list Q :=
  map snd (List.filter (fun rc => String.eqb (fst rc) r) f).

Definition confs_of (r : string) (hist : list frame) : list Q :=
  flat_map (confs_in_frame r) hist.

(** The samples accumulated for [r], none if [r] is not a key. *)
Definition got (acc : list (string * list Q)) (r : string) : list Q :=
  default [] (Py.dict_get acc r).

Definition all_nonempty (acc : list (string * list Q)) : Prop :=
  Forall (fun rv => snd rv <> []) acc.

(** Arithmetic mean of a list of samples. *)
Definition mean (v : list Q) : Q := py_sum v / py_len v.

(** Region [r] is listed by some frame of the window. *)
Definition present (r : string) (hist : list frame) : Prop :=
  exists f c, In f hist /\ In (r, c) f.

(** Frames pushed one after the other, oldest first. *)
Definition process_all (fs : list frame) (s : t) : t :=
  fold_left (fun s f => process f s) fs s.

(** Confidences never increase along the list. *)
Fixpoint descending (l : list entry) : Prop :=
  match l with
  | [] => True
  | x :: l' =>
      match l' with
      | [] => True
      | y :: _ => snd y <= snd x
      end /\ descending l'
  end.

(** Every confidence listed in the window lies in [[lo, hi]]. *)
Definition confs_within (lo hi : Q) (hist : list frame) : Prop :=
  forall f r c, In f hist -> In (r, c) f -> lo <= c /\ c <= hi.
End VPR.

(** ** [systems/inference.py]: observation -> policy -> action *)

Module Inference.

(** The dictionary built by the sensor loop. *)
Record observation := mk_obs {
  lidar : list Q;
  accel_x : Q;
  gyro_z : Q;
  sin_yaw : Q;
  cos_yaw : Q;
}.

Definition action : Type := Q * Q.

Record t := mk {
  model_loaded : bool;     (* self.model is not None *)
  last_action : action;    (* self.last_action, the raw policy output *)
}.

(** What one call of [loop()] did. *)
Inductive outcome :=
| NoObservation                         (* [Empty]: sleep and return *)
| NoModel (obs : observation)           (* observation taken, no model *)
| Acted (obs : observation) (a : action).

(** [_obs_to_tensor] *)
Definition obs_to_tensor (last : action) (o : observation) : list Q :=
  [fst last; snd last] ++ lidar o
    ++ [gyro_z o; accel_x o / 9.81; sin_yaw o; cos_yaw o].

(** [while not self.obs_q.empty(): obs = self.obs_q.get_nowait()] *)
Fixpoint drain_newest {A} (obs : A) (q : list A) : A * list A :=
  match q with
  | [] => (obs, [])
  | x :: q' => drain_newest x q'
  end.

(** [while not self.act_q.empty(): self.act_q.get_nowait()] *)
Fixpoint drain {A} (q : list A) : list A :=
  match q with
  | [] => []
  | _ :: q' => drain q'
  end.

(** [max(-1, min(1, x))] *)
Definition clamp (x : Q) : Q := py_max (-1) (py_min 1 x).

Section Loop.
(** The learned policy, applied to the input vector. *)
Variable policy : list Q -> action.
(** [maxsize] of the action queue. *)
Variable act_maxsize : nat.

(** [loop()], on the two channels.  The final [put_nowait] is kept as the
    source has it: [None] is an escaping [Full]. *)
Definition loop (s : t) (obs_q : list observation) (act_q : list action)
  : option (t * list observation * list action * outcome) :=
  match Queue.get_nowait obs_q with
  | None => Some (s, obs_q, act_q, NoObservation)
  | Some (obs0, q0) =>
      let '(obs, obs_q') := drain_newest obs0 q0 in
      if negb (model_loaded s) then Some (s, obs_q', act_q, NoModel obs)
      else
        let raw := policy (obs_to_tensor (last_action s) obs) in
        let throttle := clamp (fst raw) in
        let steer := clamp (snd raw) in
        match Queue.put_nowait act_maxsize (drain act_q) (throttle, steer) with
        | None => None
        | Some act_q' =>
            Some ({| model_loaded := true; last_action := raw |},
                  obs_q', act_q', Acted obs (throttle, steer))
        end
  end.
End Loop.
End Inference.

(** ** [controller.py]: channels, interlocks and the actuation loop *)

Module Controller.

Definition OBS_MAXSIZE : nat := 1.
Definition ACT_MAXSIZE : nat := 1.

Record t := mk {
  obs_q : list Inference.observation;    (* Queue(maxsize=1) *)
  act_q : list Inference.action;         (* Queue(maxsize=1) *)
  vpr : VPR.t;
  vpr_feed_running : bool;               (* the frame-feed thread is alive *)
  stop_region : option string;           (* None until set *)
  drive_enable_counter : Z;
  pwm : PWM.t;
}.

(** [self.stop_threshold] and [self._drive_enable_threshold] are assigned
    once, in [__init__]. *)
Definition stop_threshold : Q := 0.75.
Definition drive_enable_threshold : Z := 5.

Definition init (p : PWM.t) : t :=
  {| obs_q := []; act_q := []; vpr := VPR.init; vpr_feed_running := false;
     stop_region := None; drive_enable_counter := 0; pwm := p |}.

(** Truth value of [region] for [str | None]. *)
Definition truthy (region : option string) : bool :=
  match region with
  | None => false
  | Some s => negb (String.eqb s "")
  end.

(** [drive_enabled()]: [val] is the sampled level of the enable line. *)
Definition drive_enabled (val : Z) (c : t) : t * bool :=
  let n := if Z.eqb val 1 then (drive_enable_counter c + 1)%Z else 0%Z in
  ({| obs_q := obs_q c; act_q := act_q c; vpr := vpr c;
      vpr_feed_running := vpr_feed_running c;
      stop_region := stop_region c;
      drive_enable_counter := n; pwm := pwm c |},
   Z.ltb drive_enable_threshold n).

(** [set_stop_region(region)] *)
Definition set_stop_region (region : option string) (c : t) : t :=
  {| obs_q := obs_q c; act_q := act_q c;
     vpr := if truthy region then vpr c else VPR.clear (vpr c);
     vpr_feed_running := truthy region;
     stop_region := region;
     drive_enable_counter := drive_enable_counter c; pwm := pwm c |}.

(** One iteration of [_sensor_loop]: [put_nowait], ignoring [Full]. *)
Definition sensor_step (obs : Inference.observation) (c : t) : t :=
  let q := match Queue.put_nowait OBS_MAXSIZE (obs_q c) obs with
           | Some q' => q'
           | None => obs_q c
           end in
  {| obs_q := q; act_q := act_q c; vpr := vpr c;
     vpr_feed_running := vpr_feed_running c;
     stop_region := stop_region c;
     drive_enable_counter := drive_enable_counter c; pwm := pwm c |}.

(** The stop condition evaluated at the top of each actuation cycle:
    [self.stop_region and any(r == self.stop_region and c > threshold ...)]. *)
Definition stop_condition (c : t) : bool :=
  match stop_region c with
  | None => false
  | Some sr =>
      negb (String.eqb sr "") &&
      existsb (fun rc => String.eqb (fst rc) sr && Qgtb (snd rc) stop_threshold)
              (VPR.get_top_regions (vpr c))
  end.

Definition with_act (q : list Inference.action) (cmd : PWM.command) (c : t) : t :=
  {| obs_q := obs_q c; act_q := q; vpr := vpr c;
     vpr_feed_running := vpr_feed_running c;
     stop_region := stop_region c;
     drive_enable_counter := drive_enable_counter c;
     pwm := PWM.exec cmd (pwm c) |}.

(** One iteration of [_act_loop].  Inputs of the cycle: the sampled enable
    level [val] and the action [arrival] that inference may enqueue while
    the cycle waits on the action queue.  The second component is the
    command sent to the PWM controller, [None] when the wait timed out. *)
Definition act_cycle (val : Z) (arrival : option Inference.action) (c : t)
  : t * option PWM.command :=
  if stop_condition c then
    let q := match Queue.get_nowait (act_q c) with
             | Some (_, q') => q'
             | None => act_q c
             end in
    (with_act q PWM.HardBrake c, Some PWM.HardBrake)
  else
    let '(c1, enabled) := drive_enabled val c in
    if enabled then
      match Queue.get_timeout (act_q c1) arrival with
      | Some ((throttle, steer), q') =>
          (with_act q' (PWM.SetControls throttle steer) c1,
           Some (PWM.SetControls throttle steer))
      | None => (c1, None)
      end
    else
      (with_act (act_q c1) (PWM.SetControls 0 0) c1, Some (PWM.SetControls 0 0)).

(** [drive_enabled()] called once per sample, oldest first; the answers
    are collected. *)
Fixpoint sample_all (samples : list Z) (c : t) : t * list bool :=
  match samples with
  | [] => (c, [])
  | val :: rest =>
      let '(c1, b) := drive_enabled val c in
      let '(c2, bs) := sample_all rest c1 in
      (c2, b :: bs)
  end.

(** Length of the run of "enabled" samples that ends the sequence, read off
    the samples from the newest backwards. *)
Fixpoint leading_ones (newest_first : list Z) : nat :=
  match newest_first with
  | [] => O
  | val :: rest => if Z.eqb val 1 then S (leading_ones rest) else O
  end.

(** The three workers interleave; a schedule lists who runs next. *)
Inductive event :=
| Sense (obs : Inference.observation)          (* one sensor-loop iteration *)
| Infer                                        (* one inference [loop()] *)
| Actuate (val : Z).                           (* one actuation cycle *)

Section System.
Variable policy : list Q -> Inference.action.

Definition sys : Type := t * Inference.t.

Definition with_queues (oq : list Inference.observation)
  (aq : list Inference.action) (c : t) : t :=
  {| obs_q := oq; act_q := aq; vpr := vpr c;
     vpr_feed_running := vpr_feed_running c;
     stop_region := stop_region c;
     drive_enable_counter := drive_enable_counter c; pwm := pwm c |}.

(** One scheduled event; the trace records what each inference step did. *)
Definition step (e : event) (s : sys) : option (sys * list Inference.outcome) :=
  let '(c, inf) := s in
  match e with
  | Sense obs => Some ((sensor_step obs c, inf), [])
  | Infer =>
      match Inference.loop policy ACT_MAXSIZE inf (obs_q c) (act_q c) with
      | None => None
      | Some (inf', oq, aq, out) => Some ((with_queues oq aq c, inf'), [out])
      end
  | Actuate val => Some ((fst (act_cycle val None c), inf), [])
  end.

Fixpoint run (es : list event) (s : sys) : option (sys * list Inference.outcome) :=
  match es with
  | [] => Some (s, [])
  | e :: es' =>
      match step e s with
      | None => None
      | Some (s1, o1) =>
          match run es' s1 with
          | None => None
          | Some (s2, o2) => Some (s2, o1 ++ o2)
          end
      end
  end.
End System.
End Controller.

(** ** [systems/state.py] *)

Module SharedState.
Import Py.

(** [self._data] is the dict at [data]: subsystem name -> entry dict. *)
Record t := mk {
  heap : Py.heap;
  data : loc;
}.

Definition init : t := {| heap := [ODict []]; data := 0%nat |}.

(** [_coerce] *)
Definition coerce (v : value) : value :=
  match v with
  | VBool b => VFloat (if b then 1 else 0)     (* bool is an int *)
  | VInt z => VFloat (inject_Z z)
  | VFloat q => VFloat q
  | VRef l => VRef l                            (* list or dict: the same object *)
  | VNone => VStr "None"
  | VStr s => VStr s
  | VObj str => VStr str
  end.

(** The entry built by [put] before it is stored. *)
Definition safe_entry (now : Q) (kv : list (string * value))
  : list (string * value) :=
  dict_set (map (fun p => (fst p, coerce (snd p))) kv) "ts" (VFloat now).

(** [put(who, **kv)] at time [now]: a new entry dict is allocated and the
    dict [_data] is updated in place. *)
Definition put (now : Q) (who : string) (kv : list (string * value)) (s : t)
  : option t :=
  let l := length (heap s) in
  let h := heap s ++ [ODict (safe_entry now kv)] in
  match h !! data s with
  | Some (ODict d) =>
      Some {| heap := <[data s := ODict (dict_set d who (VRef l))]> h;
              data := data s |}
  | _ => None
  end.

(** [snapshot()]: the copy's root and the heap holding the copy. *)
Definition snapshot (s : t) : option (loc * t) :=
  match deepcopy (S (length (heap s))) (VRef (data s))
          {| c_heap := heap s; c_memo := ∅ |} with
  | Some (VRef root, st) => Some (root, {| heap := c_heap st; data := data s |})
  | _ => None
  end.

(** The entry stored for [who], if any. *)
Definition entry_of (s : t) (who : string) : option (list (string * value)) :=
  match heap s !! data s with
  | Some (ODict d) =>
      match dict_get d who with
      | Some (VRef l) =>
          match heap s !! l with
          | Some (ODict e) => Some e
          | _ => None
          end
      | _ => None
      end
  | _ => None
  end.

Definition wf (s : t) : Prop :=
  heap_wf (heap s) /\ exists d, heap s !! data s = Some (ODict d).

End SharedState.

(** ** [systems/subsystem.py]: the lifecycle template

    Code that can publish and raise is written in a small monad: a
    computation yields the events it caused, in order, and either a result
    or the message [str(e)] of the [Exception] that ended it. *)

Module Subsystem.

Inductive event :=
| Publish (kv : list (string * Py.value))   (* self.state.put(self.name, **kv) *)
| CallInit                                  (* self.init_hardware() entered *)
| CallLoop.                                 (* self.loop() entered *)

Definition exn : Type := string.

Definition M (A : Type) : Type := list event * (exn + A).

Definition ret {A} (a : A) : M A := ([], inr a).

Definition raise {A} (e : exn) : M A := ([], inl e).

Definition bind {A B} (m : M A) (k : A -> M B) : M B :=
  match m with
  | (tr, inl e) => (tr, inl e)
  | (tr, inr a) => let '(tr', r) := k a in (tr ++ tr', r)
  end.

(** [try: m  except Exception as e: h e] *)
Definition try_except {A} (m : M A) (h : exn -> M A) : M A :=
  match m with
  | (tr, inl e) => let '(tr', r) := h e in (tr ++ tr', r)
  | (tr, inr a) => (tr, inr a)
  end.

Definition emit (e : event) : M unit := ([e], inr tt).

Notation "x <- m ;; k" := (bind m (fun x => k))
  (at level 100, m at next level, right associativity).
Notation "m ;;; k" := (bind m (fun _ => k))
  (at level 100, right associativity).

Definition status (s : string) : list (string * Py.value) :=
  [("status"%string, Py.VStr s)].

Definition status_error (e : exn) : list (string * Py.value) :=
  [("status"%string, Py.VStr "error"); ("error"%string, Py.VStr e)].

Definition publish (kv : list (string * Py.value)) : M unit := emit (Publish kv).

(** What an overridden method does: the entries it publishes, in order,
    and then either its result or the exception it raises. *)
Definition method (A : Type) : Type :=
  list (list (string * Py.value)) * (exn + A).

Definition call {A} (m : method A) : M A := (map Publish (fst m), snd m).

Section Run.
(** The fields of the concrete subsystem, and its two overridden methods. *)
Variable S : Type.
Variable init_hardware : S -> method S.
Variable loop : S -> method S.

(** [while not self._stop_event.is_set(): ...]; [budget] is the number of
    times the test finds the event clear before it finds it set. *)
Fixpoint while_loop (budget : nat) (s : S) : M unit :=
  match budget with
  | O => ret tt
  | Datatypes.S budget' =>
      r <- try_except
             (emit CallLoop ;;; s' <- call (loop s) ;; ret (Some s'))
             (fun e => publish (status_error e) ;;; ret None) ;;
      match r with
      | None => ret tt                          (* break *)
      | Some s' => while_loop budget' s'
      end
  end.

(** [run()]; the result is the final value of [self._ready]. *)
Definition run (budget : nat) (s : S) : M bool :=
  r <- try_except
         (publish (status "initializing") ;;;
          emit CallInit ;;;
          s' <- call (init_hardware s) ;;
          publish (status "ok") ;;;
          ret (Some s'))
         (fun e => publish (status_error e) ;;; ret None) ;;
  match r with
  | None => ret false                           (* return *)
  | Some s' =>
      while_loop budget s' ;;;
      publish (status "off") ;;;
      ret true
  end.

(** [k] consecutive calls of [loop()] that all return normally: the events
    they cause and the fields they leave. *)
Fixpoint steps_ok (k : nat) (s : S) : option (list event * S) :=
  match k with
  | O => Some ([], s)
  | Datatypes.S k' =>
      match loop s with
      | (tr, inr s') =>
          match steps_ok k' s' with
          | Some (tr', s'') => Some (CallLoop :: map Publish tr ++ tr', s'')
          | None => None
          end
      | (_, inl _) => None
      end
  end.
End Run.

Definition calls_of_loop (tr : list event) : nat :=
  length (List.filter (fun e => match e with CallLoop => true | _ => false end) tr).

(** The status fact left in Shared State by a run: the last entry published. *)
Definition last_published (tr : list event) : option (list (string * Py.value)) :=
  last (omap (fun e => match e with Publish kv => Some kv | _ => None end) tr).

End Subsystem.

(** ** [systems/navigator.py]: the heading-constrained planner *)

Module Navigator.

(** [x % m] on Python floats, for a positive modulus. *)
Definition py_mod (x m : Q) : Q := x - m * inject_Z (Qfloor (x / m)).

(** The loaded region network, as [networkx] presents it.  Bearings go
    through [math.atan2] and are given; so are the two shortest-path
    queries, where [None] stands for the exception [NetworkXNoPath]. *)
Record graph := mk_graph {
  has_node : string -> bool;                   (* [region in self._network] *)
  neighbors : string -> list string;           (* in adjacency order *)
  angle_to_neighbor : string -> string -> Q;   (* degrees in [0, 360) *)
  shortest_path_length : string -> string -> option nat;
  shortest_path : string -> string -> option (list string);
}.

Record t := mk {
  goal_region : option string;
  current_path : list string;
}.

Inductive exn := NetworkXNoPath | IndexError.

Inductive result :=
| Idle
| Error (region : string)
| GoalReached (direction_vector : Q * Q)
| TurnAround (direction_vector : Q * Q)
| Navigating (direction_vector : Q * Q) (next_region : string)
             (full_path : list string).

Definition init : t := {| goal_region := None; current_path := [] |}.

Definition convert_imu_to_world_yaw (imu_yaw_deg : Q) : Q :=
  py_mod (imu_yaw_deg - 90 + 360) 360.

Definition calculate_turn_angle (current_heading target_heading : Q) : Q :=
  let diff := Qabs (current_heading - target_heading) in
  py_min diff (360 - diff).

(** [min(candidates, key=lambda x: x[0])]: the first smallest one. *)
Fixpoint min_by_cost (best : nat * string) (l : list (nat * string))
  : nat * string :=
  match l with
  | [] => best
  | x :: l' => min_by_cost (if Nat.ltb (fst x) (fst best) then x else best) l'
  end.

(** [l.index(x)] and [l[i]]; [None] is [ValueError], resp. [IndexError]. *)
Fixpoint index_of (x : string) (l : list string) : option nat :=
  match l with
  | [] => None
  | y :: l' => if String.eqb y x then Some O
               else option_map Datatypes.S (index_of x l')
  end.

Definition contains (x : string) (l : list string) : bool :=
  existsb (String.eqb x) l.

Section Planner.
Variable G : graph.
(** [_get_direction_vector]: (sin, cos) of an angle in degrees. *)
Variable get_direction_vector : Q -> Q * Q.

Definition set_destination (goal : string) (s : t) : t :=
  if negb (has_node G goal) then {| goal_region := None; current_path := [] |}
  else {| goal_region := Some goal; current_path := [] |}.

(** The turn the car has to make to face neighbour [n]. *)
Definition turn_to (current : string) (heading : Q) (n : string) : Q :=
  calculate_turn_angle heading (angle_to_neighbor G current n).

(** The loop over the neighbours in [_plan_new_path]. *)
Fixpoint candidates (current goal : string) (heading : Q) (ns : list string)
  : list (nat * string) :=
  match ns with
  | [] => []
  | neighbor :: ns' =>
      let turn_angle := turn_to current heading neighbor in
      if Qgtb turn_angle 135 then candidates current goal heading ns'
      else
        match shortest_path_length G neighbor goal with
        | Some path_len =>
            (1 + path_len, neighbor)%nat :: candidates current goal heading ns'
        | None => candidates current goal heading ns'
        end
  end.

(** [_plan_new_path]: the new [current_path], and the exception that
    escaped, if one did. *)
Definition plan_new_path (current goal : string) (car_heading_deg : Q) (s : t)
  : t * option exn :=
  match candidates current goal car_heading_deg (neighbors G current) with
  | [] => ({| goal_region := goal_region s; current_path := [] |}, None)
  | c :: cs =>
      let best_next_region := snd (min_by_cost c cs) in
      match shortest_path G current goal with
      | None => (s, Some NetworkXNoPath)
      | Some p =>
          let s1 := {| goal_region := goal_region s; current_path := p |} in
          if Nat.ltb (length p) 2
             || negb (match p !! 1%nat with
                      | Some n => String.eqb n best_next_region
                      | None => false
                      end)
          then
            match shortest_path G best_next_region goal with
            | None => (s1, Some NetworkXNoPath)
            | Some p' =>
                ({| goal_region := goal_region s;
                    current_path := current :: p' |}, None)
            end
          else (s1, None)
      end
  end.

Definition guidance (current next : string) (s : t) : result :=
  Navigating (get_direction_vector (angle_to_neighbor G current next))
             next (current_path s).

(** The handler of [(ValueError, IndexError)] in [update]. *)
Definition replan_after_overshoot (current goal : string) (world : Q) (s1 : t)
  : t * (exn + result) :=
  let '(s2, e2) := plan_new_path current goal world s1 in
  match e2 with
  | Some e => (s2, inl e)
  | None =>
      match current_path s2 with
      | [] => (s2, inr (TurnAround (0, 0)))
      | _ =>
          match current_path s2 !! 1%nat with
          | Some next => (s2, inr (guidance current next s2))
          | None => (s2, inl IndexError)
          end
      end
  end.

(** [update(current_region, imu_heading_deg)] *)
Definition update (current : string) (imu_heading_deg : Q) (s : t)
  : t * (exn + result) :=
  match goal_region s with
  | None => (s, inr Idle)
  | Some goal =>
      if String.eqb goal "" then (s, inr Idle)
      else if negb (has_node G current) then (s, inr (Error current))
      else if String.eqb current goal then (s, inr (GoalReached (0, 0)))
      else
        let world := convert_imu_to_world_yaw imu_heading_deg in
        let '(s1, e1) :=
          match current_path s with
          | [] => plan_new_path current goal world s
          | _ => if negb (contains current (current_path s))
                 then plan_new_path current goal world s
                 else (s, None)
          end in
        match e1 with
        | Some e => (s1, inl e)
        | None =>
            match current_path s1 with
            | [] => (s1, inr (TurnAround (0, 0)))
            | _ =>
                match index_of current (current_path s1) with
                | Some i =>
                    match current_path s1 !! Datatypes.S i with
                    | Some next => (s1, inr (guidance current next s1))
                    | None => replan_after_overshoot current goal world s1
                    end
                | None => replan_after_overshoot current goal world s1
                end
            end
        end
  end.

(** [update] gets as far as planning: a goal is set, the current region is
    a node other than the goal, and there is no cached path, or the current
    region is not on it, or it is on it with nothing behind it. *)
Definition replans (s : t) (current goal : string) : Prop :=
  goal_region s = Some goal /\ goal <> ""%string /\
  has_node G current = true /\ current <> goal /\
  (current_path s = [] \/
   contains current (current_path s) = false \/
   exists i, index_of current (current_path s) = Some i /\
             current_path s !! Datatypes.S i = None).
End Planner.
End Navigator.

(** ** Concrete scenarios used below *)

Module Scenario.

(** An actuation cycle with the stop region recognised and an action pending. *)
Definition braking_example : Controller.t :=
  {| Controller.obs_q := []; Controller.act_q := [(0.5, 0.1)];
     Controller.vpr := {| VPR.image := None;
               VPR.top_k := [("r_05"%string, 0.8); ("r_04"%string, 0.4)];
               VPR.pred_hist := [] |};
     Controller.vpr_feed_running := true;
     Controller.stop_region := Some "r_05"%string;
     Controller.drive_enable_counter := 9;
     Controller.pwm := {| PWM.throttle_us := 1580; PWM.steer_us := 1500 |} |}.

(** Single-entry frames of the spec's smoothing scenario. *)
Definition r1_090 : VPR.frame := [("r1"%string, 0.9)].
Definition r1_060 : VPR.frame := [("r1"%string, 0.6)].
Definition r2_080 : VPR.frame := [("r2"%string, 0.8)].

(** Two full frames: the five best matches of a frame are often several
    viewpoints of the same region. *)
Definition frame_a : VPR.frame :=
  [("r_01"%string, 0.9); ("r_01"%string, 0.85); ("r_02"%string, 0.5);
   ("r_03"%string, 0.4); ("r_04"%string, 0.3)].
Definition frame_b : VPR.frame :=
  [("r_02"%string, 0.8); ("r_02"%string, 0.7); ("r_05"%string, 0.5);
   ("r_06"%string, 0.4); ("r_07"%string, 0.3)].
Definition frame_same : VPR.frame :=
  [("r_01"%string, 0.9); ("r_01"%string, 0.85); ("r_01"%string, 0.5);
   ("r_01"%string, 0.4); ("r_01"%string, 0.3)].

(** Two successive sensor readings and a policy that overshoots. *)
Definition obs_old : Inference.observation :=
  {| Inference.lidar := [0.5; 0.25]; Inference.accel_x := 0;
     Inference.gyro_z := 0; Inference.sin_yaw := 0; Inference.cos_yaw := 1 |}.
Definition obs_new : Inference.observation :=
  {| Inference.lidar := [0.5; 4]; Inference.accel_x := 0;
     Inference.gyro_z := 0; Inference.sin_yaw := 0; Inference.cos_yaw := 1 |}.

(** Throttle follows the last lidar reading, steering is far left. *)
Definition policy_example (v : list Q) : Inference.action :=
  (nth 3 v 0, -3).

Definition inference_ready : Inference.t :=
  {| Inference.model_loaded := true; Inference.last_action := (0, 0) |}.

Definition system_start : Controller.t * Inference.t :=
  (Controller.init {| PWM.throttle_us := 1500; PWM.steer_us := 1500 |},
   inference_ready).

(** A subsystem whose only field counts its steps: each step publishes the
    count, and the third one raises. *)
Definition init_counting (n : nat) : Subsystem.method nat :=
  ([], inr O).
Definition loop_counting (n : nat) : Subsystem.method nat :=
  if Nat.eqb n 2 then ([], inl "sensor unplugged"%string)
  else ([[("count"%string, Py.VInt (Z.of_nat n))]], inr (S n)).
Definition init_failing (n : nat) : Subsystem.method nat :=
  ([], inl "no such device"%string).

(** The chain A - B - C laid out along +x at (0,0), (1,0), (2,0). *)
Definition chain_paths : list (list string) :=
  [["A"]; ["B"]; ["C"]; ["A"; "B"]; ["A"; "B"; "C"]; ["B"; "A"]; ["B"; "C"];
   ["C"; "B"]; ["C"; "B"; "A"]]%string.

Definition joins (u v : string) (p : list string) : bool :=
  match head p, last p with
  | Some a, Some b => String.eqb a u && String.eqb b v
  | _, _ => false
  end.

Definition chain_shortest_path (u v : string) : option (list string) :=
  List.find (joins u v) chain_paths.

Definition chain : Navigator.graph :=
  {| Navigator.has_node u := existsb (String.eqb u) ["A"; "B"; "C"]%string;
     Navigator.neighbors u :=
       (if String.eqb u "A" then ["B"]
        else if String.eqb u "B" then ["A"; "C"]
        else if String.eqb u "C" then ["B"] else [])%string;
     Navigator.angle_to_neighbor u v :=
       if String.eqb u "A" || (String.eqb u "B" && String.eqb v "C")
       then 0 else 180;
     Navigator.shortest_path_length u v :=
       option_map (fun p => (length p - 1)%nat) (chain_shortest_path u v);
     Navigator.shortest_path := chain_shortest_path |}.

(** (sin, cos) at the two bearings of the chain. *)
Definition chain_direction (angle_deg : Q) : Q * Q :=
  if Qeq_bool angle_deg 0 then (0, 1) else (0, -1).

Definition heading_for_C : Navigator.t :=
  {| Navigator.goal_region := Some "C"%string; Navigator.current_path := [] |}.

(** Shared State after the VPR subsystem published its list once: the
    list object (a list that, for the sake of the example, also holds
    itself) is owned by the caller and shared with the stored entry. *)
Definition state_example : SharedState.t :=
  {| SharedState.heap :=
       [Py.ODict [("vpr"%string, Py.VRef 2%nat)];
        Py.OList [Py.VObj "('r_01', 0.9)"; Py.VRef 1%nat];
        Py.ODict [("top_regions"%string, Py.VRef 1%nat);
                  ("ts"%string, Py.VFloat 17)]];
     SharedState.data := 0%nat |}.

Definition kv_example : list (string * Py.value) :=
  [("status"%string, Py.VStr "ok"); ("top_regions"%string, Py.VRef 1%nat);
   ("frames"%string, Py.VInt 3); ("ready"%string, Py.VBool true);
   ("ts"%string, Py.VStr "yesterday"); ("last_error"%string, Py.VNone)].

End Scenario.

(** ** Notions used to state properties of whole schedules *)

Module Schedule.

(** The readings the sensor loop produced, in order. *)
Definition sensed (es : list Controller.event) : list Inference.observation :=
  omap (fun e => match e with
                 | Controller.Sense obs => Some obs
                 | _ => None
                 end) es.

(** The readings the inference steps took from the channel, in order. *)
Definition taken (outs : list Inference.outcome) : list Inference.observation :=
  omap (fun o => match o with
                 | Inference.NoObservation => None
                 | Inference.NoModel obs => Some obs
                 | Inference.Acted obs _ => Some obs
                 end) outs.

Definition infer_steps (es : list Controller.event) : nat :=
  length (List.filter (fun e => match e with
                                | Controller.Infer => true
                                | _ => false
                                end) es).

(** The pulse pairs the PWM controller can hold: steering within its end
    stops, throttle at brake, at neutral or in the forward band. *)
Definition pulses_ok (p : PWM.t) : Prop :=
  (PWM.STEER_MIN <= PWM.steer_us p <= PWM.STEER_MAX)%Z /\
  (PWM.throttle_us p = PWM.THROTTLE_BRAKE_US \/
   PWM.throttle_us p = PWM.THROTTLE_NEUTRAL \/
   (PWM.THR_START_US <= PWM.throttle_us p <= PWM.THR_MAX_US)%Z).

(** Both channels hold at most their capacity. *)
Definition channels_ok (c : Controller.t) : Prop :=
  (length (Controller.obs_q c) <= Controller.OBS_MAXSIZE)%nat /\
  (length (Controller.act_q c) <= Controller.ACT_MAXSIZE)%nat.

End Schedule.

(** ** [drivers/ld19.py]: the lidar reader *)

Module LD19.

Definition FRAME_LEN : nat := 47.
Definition PTS : nat := 12.
Definition HEADER : list Byte.byte := [Byte.x54; Byte.x2c].

(** [p == _HEADER] on byte strings. *)
Definition is_header (p : list Byte.byte) : bool :=
  match p, HEADER with
  | [a; b], [h0; h1] => Byte.eqb a h0 && Byte.eqb b h1
  | _, _ => false
  end.

Record t := mk {
  targets : list Q;            (* self.targets, degrees *)
  w : Q;                       (* self.w, the tolerance *)
  offset : Q;                  (* self.offset *)
  max_dist : Q;                (* self.max_dist *)
  latest : list (option Q);    (* self._latest *)
}.

Definition default_angles : list Q :=
  [135; 125; 115; 105; 95; 85; 75; 65; 55; 45; 35; 25; 15; 5;
   -5; -15; -25; -35; -45; -55; -65; -75; -85; -95; -105; -115; -125; -135].

(** [__init__], the serial port and the thread apart. *)
Definition init (angles : list Q) (resolution offset dist_max : Q) : t :=
  let targets := map (fun a => Navigator.py_mod (a + 360) 360) angles in
  {| targets := targets; w := resolution; offset := offset;
     max_dist := dist_max; latest := replicate (length targets) None |}.

(** [LD19()] with the default arguments. *)
Definition default : t := init default_angles 2.5 (-90) 12.

Definition with_latest (lat : list (option Q)) (l : t) : t :=
  {| targets := targets l; w := w l; offset := offset l;
     max_dist := max_dist l; latest := lat |}.

Definition byte_val (b : Byte.byte) : Z := Z.of_N (Byte.to_N b).

(** [struct.unpack_from("<H", fr, off)[0]]; [None] is [struct.error]. *)
Definition unpack_H (fr : list Byte.byte) (off : nat) : option Z :=
  match fr !! off, fr !! Datatypes.S off with
  | Some lo, Some hi => Some (byte_val lo + 256 * byte_val hi)%Z
  | _, _ => None
  end.

(** The body of the [for] loop of [_parse_frame] for sample [i]. *)
Definition sample (max_dist : Q) (s : Z) (step : Q) (fr : list Byte.byte)
  (i : nat) : option (Q * Q) :=
  match unpack_H fr (6 + i * 3) with
  | Some d =>
      let dist_m := inject_Z d / 1000 in
      let dist := py_min dist_m max_dist in
      let ang :=
        Navigator.py_mod
          ((inject_Z s + inject_Z (Z.of_nat i) * step) / 100) 360 in
      Some (ang, dist)
  | None => None
  end.

(** [_parse_frame]: the (angle, distance) pairs it yields.  The consumer
    commits nothing before the generator is exhausted, so an error on the
    way is an error of the whole. *)
Definition parse_frame (max_dist : Q) (fr : list Byte.byte)
  : option (list (Q * Q)) :=
  match unpack_H fr 4, unpack_H fr 42 with
  | Some s, Some e =>
      let span := ((e - s + 36000) mod 36000)%Z in
      let step := if Nat.ltb 1 PTS
                  then inject_Z span / inject_Z (Z.of_nat (PTS - 1))
                  else 0 in
      mapM (sample max_dist s step fr) (seq 0 PTS)
  | _, _ => None
  end.

(** The distance on the circle that [_bucket_index] compares. *)
Definition circ_diff (logical tgt : Q) : Q :=
  let diff := Qabs (logical - tgt) in
  if Qgtb diff 180 then 360 - diff else diff.

(** The loop of [_bucket_index] from target number [i] on, with the
    running [best, idx]. *)
Fixpoint bucket_scan (w logical : Q) (tgts : list Q) (i : nat)
  (best : Q) (idx : option nat) : option nat :=
  match tgts with
  | [] => idx
  | tgt :: rest =>
      let diff := circ_diff logical tgt in
      if Qle_bool diff w && Qgtb best diff then
        if Qeq_bool diff 0 then Some i                          (* break *)
        else bucket_scan w logical rest (Datatypes.S i) diff (Some i)
      else bucket_scan w logical rest (Datatypes.S i) best idx
  end.

Definition bucket_index (l : t) (physical_angle : Q) : option nat :=
  let logical_angle := Navigator.py_mod (physical_angle + offset l) 360 in
  bucket_scan (w l) logical_angle (targets l) 0 (w l + 1) None.

(** [frame_updates[idx] = dist] on a dict with integer keys. *)
Fixpoint updates_set (d : list (nat * Q)) (idx : nat) (dist : Q)
  : list (nat * Q) :=
  match d with
  | [] => [(idx, dist)]
  | (k, v) :: rest =>
      if Nat.eqb k idx then (k, dist) :: rest
      else (k, v) :: updates_set rest idx dist
  end.

(** The loop filling [frame_updates] from the samples of one frame. *)
Fixpoint frame_updates (l : t) (samples : list (Q * Q))
  (acc : list (nat * Q)) : list (nat * Q) :=
  match samples with
  | [] => acc
  | (ang, dist) :: rest =>
      if Qgtb dist 0.01 then
        match bucket_index l ang with
        | Some idx => frame_updates l rest (updates_set acc idx dist)
        | None => frame_updates l rest acc
        end
      else frame_updates l rest acc
  end.

(** [for idx, dist in frame_updates.items(): self._latest[idx] = dist];
    the indices come from [_bucket_index] and are within the list. *)
Definition apply_updates (lat : list (option Q)) (ups : list (nat * Q))
  : list (option Q) :=
  fold_left (fun lat kv => <[fst kv := Some (snd kv)]> lat) ups lat.

(** The inner [while len(buf) >= FRAME_LEN] loop of [_read_loop]; every
    iteration shortens the buffer, [fuel] bounds their number.  A parse
    error leaves the loop with the frame removed and nothing stored. *)
Fixpoint consume (fuel : nat) (l : t) (buf : list Byte.byte)
  : t * list Byte.byte :=
  match fuel with
  | O => (l, buf)
  | Datatypes.S fuel' =>
      if Nat.leb FRAME_LEN (length buf) then
        if is_header (take 2 buf) then
          let frame := take FRAME_LEN buf in
          let buf' := drop FRAME_LEN buf in
          match parse_frame (max_dist l) frame with
          | Some samples =>
              let ups := frame_updates l samples [] in
              consume fuel' (with_latest (apply_updates (latest l) ups) l) buf'
          | None => (l, buf')
          end
        else consume fuel' l (drop 1 buf)                      (* buf.pop(0) *)
      else (l, buf)
  end.

(** One iteration of the outer loop: [data] is what the port returned. *)
Definition read_chunk (data : list Byte.byte) (s : t * list Byte.byte)
  : t * list Byte.byte :=
  let '(l, buf) := s in
  match data with
  | [] => (l, buf)                                             (* continue *)
  | _ => consume (length (buf ++ data)) l (buf ++ data)
  end.

Definition read_all (chunks : list (list Byte.byte)) (s : t * list Byte.byte)
  : t * list Byte.byte :=
  fold_left (fun s data => read_chunk data s) chunks s.

(** [get_scan()] *)
Definition get_scan (l : t) : list (option Q) := latest l.

(** [get_recip_scan(epsilon)] *)
Definition get_recip_scan (epsilon : Q) (l : t) : list Q :=
  map (fun d => 1 / (epsilon + match d with
                               | Some d' => d'
                               | None => max_dist l
                               end)) (latest l).

(** Every stored distance is above the validity floor and capped. *)
Definition stored_ok (l : t) : Prop :=
  length (latest l) = length (targets l) /\
  Forall (fun d => match d with
                   | Some d' => 0.01 < d' /\ d' <= max_dist l
                   | None => True
                   end) (latest l).

End LD19.

(** ** Histories of calls on the shared state *)

Module StateOps.
Import Py.

Inductive op :=
| Put (now : Q) (who : string) (kv : list (string * value))
| Snapshot.

(** The calls made one after the other; the roots of the snapshots taken
    are collected.  [None]: some call raised. *)
Fixpoint run (ops : list op) (s : SharedState.t)
  : option (SharedState.t * list loc) :=
  match ops with
  | [] => Some (s, [])
  | Put now who kv :: rest =>
      match SharedState.put now who kv s with
      | Some s1 => run rest s1
      | None => None
      end
  | Snapshot :: rest =>
      match SharedState.snapshot s with
      | Some (root, s1) =>
          match run rest s1 with
          | Some (s2, roots) => Some (s2, root :: roots)
          | None => None
          end
      | None => None
      end
  end.

(** The arguments of the last [put] made for [who], if any. *)
Fixpoint last_put (who : string) (ops : list op)
  : option (Q * list (string * value)) :=
  match ops with
  | [] => None
  | Put now w kv :: rest =>
      match last_put who rest with
      | Some x => Some x
      | None => if String.eqb w who then Some (now, kv) else None
      end
  | Snapshot :: rest => last_put who rest
  end.

Definition snapshots (ops : list op) : nat :=
  length (List.filter (fun o => match o with Snapshot => true | _ => false end)
                      ops).

(** Keyword arguments: distinct names, values that exist. *)
Definition op_ok (n : nat) (o : op) : Prop :=
  match o with
  | Put _ _ kv => Forall (value_closed n) (map snd kv) /\ NoDup (map fst kv)
  | Snapshot => True
  end.

Definition keys_ok (h : heap) : Prop :=
  Forall (fun o => match o with
                   | ODict kvs => NoDup (map fst kvs)
                   | OList _ => True
                   end) h.

(** No entry of [_data] is [_data] itself. *)
Definition entries_apart (s : SharedState.t) : Prop :=
  forall d who,
    SharedState.heap s !! SharedState.data s = Some (ODict d) ->
    dict_get d who <> Some (VRef (SharedState.data s)).

End StateOps.

(** ** [controller.py]: the button watcher *)

Module Button.

Definition REC_MAXSIZE : nat := 2.

Section Button.
(** Camera frames. *)
Context {F : Type}.

Record t := mk {
  prev : Z;               (* the local [prev] of [_btn_loop] *)
  rec_q : list F;         (* Queue(maxsize=2), read by the recognizer *)
}.

Definition init : t := {| prev := 1; rec_q := [] |}.

(** One iteration of [_btn_loop]: [val] is the sampled line, [frame] what
    [camera.get_frame()] returns when it is called. *)
Definition poll (val : Z) (frame : option F) (s : t) : t :=
  let q :=
    if Z.eqb val 0 && Z.eqb (prev s) 1 then
      match frame with
      | Some f =>
          match Queue.put_nowait REC_MAXSIZE (rec_q s) f with
          | Some q' => q'
          | None => rec_q s                       (* except Full: pass *)
          end
      | None => rec_q s
      end
    else rec_q s in
  {| prev := val; rec_q := q |}.

Definition poll_all (ps : list (Z * option F)) (s : t) : t :=
  fold_left (fun s p => poll (fst p) (snd p) s) ps s.

(** The number of samples at 0 that directly follow a sample at 1. *)
Fixpoint falling_edges (prev : Z) (vals : list Z) : nat :=
  match vals with
  | [] => O
  | val :: rest =>
      (if Z.eqb val 0 && Z.eqb prev 1 then 1 else 0) + falling_edges val rest
  end.
End Button.

Arguments t : clear implicits.

End Button.

(** ** [systems/navigator.py]: building the region graph *)

Module RegionNetwork.

(** One value of the loaded region map: ['position'] is [None] when it is
    missing or not a list, ['neighbors'] is empty when missing. *)
Record region := mk_region {
  position : option (list Q);
  neighbors : list string;
}.

(** [pos and isinstance(pos, list) and len(pos) >= 2] *)
Definition valid_position (r : region) : bool :=
  match position r with
  | Some (_ :: _ :: _) => true
  | _ => false
  end.

(** An undirected [networkx] graph: the nodes with their ['pos'], and the
    edges, kept in both directions. *)
Record graph := mk_graph {
  nodes : gmap string (list Q);
  edges : gset (string * string);
}.

Definition empty : graph := {| nodes := ∅; edges := ∅ |}.

Definition has_node (G : graph) (name : string) : bool :=
  bool_decide (is_Some (nodes G !! name)).

Definition has_edge (G : graph) (u v : string) : Prop := (u, v) ∈ edges G.

Definition add_node (name : string) (pos : list Q) (G : graph) : graph :=
  {| nodes := <[name := pos]> (nodes G); edges := edges G |}.

(** [G.add_edge(u, v, weight=1)] between two nodes of [G]. *)
Definition add_edge (u v : string) (G : graph) : graph :=
  {| nodes := nodes G; edges := {[(u, v); (v, u)]} ∪ edges G |}.

(** The first loop of [_build_networkx_graph]. *)
Definition add_nodes (rd : list (string * region)) (G : graph) : graph :=
  fold_left (fun G nd =>
               if valid_position (snd nd)
               then add_node (fst nd)
                      (take 2 (default [] (position (snd nd)))) G
               else G) rd G.

(** The inner loop over the declared neighbours of [name]. *)
Definition add_edges_of (name : string) (ns : list string) (G : graph) : graph :=
  fold_left (fun G neighbor =>
               if has_node G neighbor then add_edge name neighbor G else G)
            ns G.

(** The second loop. *)
Definition add_edges (rd : list (string * region)) (G : graph) : graph :=
  fold_left (fun G nd =>
               if has_node G (fst nd)
               then add_edges_of (fst nd) (neighbors (snd nd)) G
               else G) rd G.

Definition build_networkx_graph (rd : list (string * region)) : graph :=
  add_edges rd (add_nodes rd empty).

(** [Navigator.__init__]: [None] stands for the [IOError] raised when the
    graph has no node. *)
Definition navigator_init (rd : list (string * region))
  : option (graph * Navigator.t) :=
  let G := build_networkx_graph rd in
  if bool_decide (nodes G = ∅) then None else Some (G, Navigator.init).

(** Region [name] is declared with a usable position. *)
Definition declared (rd : list (string * region)) (name : string) : Prop :=
  exists data, In (name, data) rd /\ valid_position data = true.

(** [u] lists [v] among its neighbours. *)
Definition lists (rd : list (string * region)) (u v : string) : Prop :=
  exists data, In (u, data) rd /\ In v (neighbors data).

End RegionNetwork.

(** ** [controller.py]: stopping inference *)

Module EStop.

Definition with_pwm (p : PWM.t) (c : Controller.t) : Controller.t :=
  {| Controller.obs_q := Controller.obs_q c;
     Controller.act_q := Controller.act_q c;
     Controller.vpr := Controller.vpr c;
     Controller.vpr_feed_running := Controller.vpr_feed_running c;
     Controller.stop_region := Controller.stop_region c;
     Controller.drive_enable_counter := Controller.drive_enable_counter c;
     Controller.pwm := p |}.

(** [stop_inference()], called by the UI's E-STOP: [has_inf] tells whether
    [self.inf] is set; the inference thread is shut down and joined, then
    [hard_brake()] and [set_controls(0, 0)] follow.  The second component
    lists the pulse pairs written, in order. *)
Definition stop_inference (has_inf : bool) (c : Controller.t)
  : Controller.t * list PWM.t :=
  if has_inf then
    let p1 := PWM.hard_brake (Controller.pwm c) in
    let p2 := PWM.set_controls 0 0 p1 in
    (with_pwm p2 c, [p1; p2])
  else (c, []).

End EStop.

(** ** The status fact a run leaves in Shared State *)

Module StatusFact.

(** The entries a run published, in order. *)
Definition published (tr : list Subsystem.event)
  : list (list (string * Py.value)) :=
  omap (fun e => match e with
                 | Subsystem.Publish kv => Some kv
                 | _ => None
                 end) tr.

(** [self.state.put(self.name, **kv)] for each of them, the i-th at time
    i, on the state of [SharedState.__init__]. *)
Definition puts (name : string) (tr : list Subsystem.event)
  : list StateOps.op :=
  imap (fun i kv => StateOps.Put (inject_Z (Z.of_nat i)) name kv)
       (published tr).

(** The entry Shared State holds for [name] once the run is over. *)
Definition left_for (name : string) (tr : list Subsystem.event)
  : option (list (string * Py.value)) :=
  match StateOps.run (puts name tr) SharedState.init with
  | Some (s, _) => SharedState.entry_of s name
  | None => None
  end.

End StatusFact.

(** * Properties *)

(** ** Comparisons on rationals *)

Lemma Qgtb_true (a b : Q) : Qgtb a b = true <-> b < a.
Proof.
  unfold Qgtb. rewrite negb_true_iff.
  split; intros H.
  - apply Qnot_le_lt. intros Hle. apply Qle_bool_iff in Hle. congruence.
  - destruct (Qle_bool a b) eqn:E; [|reflexivity].
    apply Qle_bool_iff in E. exfalso. exact (Qlt_not_le _ _ H E).
Qed.

Lemma Qgtb_false (a b : Q) : Qgtb a b = false <-> a <= b.
Proof.
  unfold Qgtb. rewrite negb_false_iff. apply Qle_bool_iff.
Qed.

(** ** The drive-enable debounce *)

Section DriveEnable.
Import Controller.

Lemma sample_all_app (xs ys : list Z) (c : t) :
  fst (sample_all (xs ++ ys) c) = fst (sample_all ys (fst (sample_all xs c))).
Proof.
  revert c. induction xs as [|x xs IH]; intros c; [reflexivity|].
  cbn [app sample_all].
  destruct (drive_enabled x c) as [c1 b].
  specialize (IH c1).
  destruct (sample_all (xs ++ ys) c1) as [c2 bs].
  destruct (sample_all xs c1) as [c3 bs3].
  exact IH.
Qed.

Lemma counter_snoc (xs : list Z) (val : Z) (c : t) :
  drive_enable_counter (fst (sample_all (xs ++ [val]) c)) =
  (if Z.eqb val 1
   then drive_enable_counter (fst (sample_all xs c)) + 1
   else 0)%Z.
Proof.
  rewrite sample_all_app. cbn [sample_all].
  unfold drive_enabled. cbn. reflexivity.
Qed.

Lemma counter_run_length (samples : list Z) (p : PWM.t) :
  drive_enable_counter (fst (sample_all samples (init p))) =
  Z.of_nat (leading_ones (rev samples)).
Proof.
  induction samples as [|val xs IH] using rev_ind; [reflexivity|].
  rewrite counter_snoc, rev_unit. simpl.
  destruct (Z.eqb val 1); [rewrite IH; lia | reflexivity].
Qed.

(** C3.  Started at zero, the drive-enable counter equals the length of the
    run of consecutive enabled samples ending at the latest one; a sampled
    disable sets it to 0 in that very call, a sampled enable adds 1, and
    [drive_enabled()] answers true exactly when the updated counter is
    strictly greater than the threshold 5. *)
Theorem drive_enable_debounce :
  (forall (samples : list Z) (p : PWM.t),
     drive_enable_counter (fst (sample_all samples (init p))) =
     Z.of_nat (leading_ones (rev samples))) /\
  (forall (val : Z) (c : t),
     let r := drive_enabled val c in
     (val <> 1%Z -> drive_enable_counter (fst r) = 0%Z) /\
     (val = 1%Z ->
      drive_enable_counter (fst r) = (drive_enable_counter c + 1)%Z) /\
     (snd r = true <-> (5 < drive_enable_counter (fst r))%Z)).
Proof.
  split; [exact counter_run_length|].
  intros val c r. subst r. unfold drive_enabled. simpl.
  repeat split.
  - intros Hne. destruct (Z.eqb_spec val 1); [contradiction | reflexivity].
  - intros ->. reflexivity.
  - intros H. apply Z.ltb_lt in H. exact H.
  - intros H. apply Z.ltb_lt. exact H.
Qed.

End DriveEnable.

(** ** The place-triggered stop *)

Section StopRegion.
Import Controller.

Lemma stop_condition_true (c : t) (sr : string) (conf : Q) :
  stop_region c = Some sr ->
  sr <> ""%string ->
  In (sr, conf) (VPR.get_top_regions (vpr c)) ->
  stop_threshold < conf ->
  stop_condition c = true.
Proof.
  intros Hsr Hne Hin Hconf. unfold stop_condition. rewrite Hsr.
  apply andb_true_iff. split.
  - apply negb_true_iff. apply String.eqb_neq. exact Hne.
  - apply existsb_exists. exists (sr, conf). split; [exact Hin|].
    cbn [fst snd]. rewrite String.eqb_refl. cbn [andb].
    apply Qgtb_true. exact Hconf.
Qed.

(** C1.  In an actuation cycle where a stop region is configured and the
    VPR top-regions list has an entry for that region with confidence
    strictly above the stop threshold 0.75, the one command issued is the
    hard brake (the throttle pulse is the brake value), whatever the enable
    sample and the pending action, and the capacity-1 action channel is
    empty at the end of the cycle. *)
Theorem stop_region_brakes
  (c : t) (sr : string) (conf : Q) (val : Z)
  (arrival : option Inference.action) :
  stop_region c = Some sr ->
  sr <> ""%string ->
  In (sr, conf) (VPR.get_top_regions (vpr c)) ->
  0.75 < conf ->
  (length (act_q c) <= ACT_MAXSIZE)%nat ->
  let r := act_cycle val arrival c in
  snd r = Some PWM.HardBrake /\
  act_q (fst r) = [] /\
  PWM.throttle_us (pwm (fst r)) = PWM.THROTTLE_BRAKE_US /\
  drive_enable_counter (fst r) = drive_enable_counter c.
Proof.
  intros Hsr Hne Hin Hconf Hcap r. subst r. unfold act_cycle.
  rewrite (stop_condition_true c sr conf Hsr Hne Hin Hconf).
  cbn [fst snd with_act act_q pwm drive_enable_counter PWM.exec].
  split; [reflexivity|]. split; [|split; reflexivity].
  unfold Queue.get_nowait.
  destruct (act_q c) as [|a [|b q]]; [reflexivity | reflexivity |].
  unfold ACT_MAXSIZE in Hcap. cbn [length] in Hcap. lia.
Qed.

Lemma stop_region_brakes_witness :
  let r := act_cycle 1 None Scenario.braking_example in
  snd r = Some PWM.HardBrake /\
  act_q (fst r) = [] /\
  PWM.throttle_us (pwm (fst r)) = PWM.THROTTLE_BRAKE_US /\
  drive_enable_counter (fst r) = drive_enable_counter Scenario.braking_example.
Proof.
  apply (stop_region_brakes Scenario.braking_example "r_05" 0.8 1 None).
  - reflexivity.
  - discriminate.
  - simpl. left. reflexivity.
  - reflexivity.
  - unfold Scenario.braking_example, ACT_MAXSIZE. simpl. lia.
Defined.

End StopRegion.

(** ** The VPR sliding window and its smoothed estimate *)

Section Smoothing.
Import VPR.

(** *** The accumulator is a dict from region to its samples *)

Lemma dict_get_acc_append acc r c r' :
  Py.dict_get (acc_append acc r c) r' =
  if String.eqb r r' then Some (got acc r ++ [c]) else Py.dict_get acc r'.
Proof.
  unfold got. induction acc as [|[k v] acc IH]; cbn [acc_append Py.dict_get].
  - destruct (String.eqb_spec r r'); reflexivity.
  - destruct (String.eqb_spec k r) as [->|Hkr]; cbn [Py.dict_get default].
    + destruct (String.eqb_spec r r') as [->|Hne]; reflexivity.
    + destruct (String.eqb_spec k r') as [->|Hkr'].
      * destruct (String.eqb_spec r r') as [->|_]; [contradiction|reflexivity].
      * exact IH.
Qed.

Lemma got_acc_append acc r c r' :
  got (acc_append acc r c) r' =
  if String.eqb r r' then got acc r' ++ [c] else got acc r'.
Proof.
  unfold got at 1. rewrite dict_get_acc_append.
  destruct (String.eqb_spec r r') as [->|_]; reflexivity.
Qed.

Lemma keys_acc_append acc r c :
  map fst (acc_append acc r c) =
  if existsb (String.eqb r) (map fst acc) then map fst acc
  else map fst acc ++ [r].
Proof.
  induction acc as [|[k v] acc IH]; cbn [acc_append map fst existsb app].
  - reflexivity.
  - rewrite (String.eqb_sym r k).
    destruct (String.eqb k r); cbn [map fst orb]; [reflexivity|].
    rewrite IH. destruct (existsb (String.eqb r) (map fst acc)); reflexivity.
Qed.

Lemma all_nonempty_acc_append acc r c :
  all_nonempty acc -> all_nonempty (acc_append acc r c).
Proof.
  unfold all_nonempty. induction acc as [|[k v] acc IH]; intros H;
    cbn [acc_append].
  - constructor; [|constructor]. discriminate.
  - apply Forall_cons in H as [Hv Hacc].
    destruct (String.eqb k r).
    + constructor; [|exact Hacc]. cbn. intros E.
      apply app_eq_nil in E as [_ E]. discriminate.
    + constructor; [exact Hv | exact (IH Hacc)].
Qed.

Lemma nodup_acc_append acc r c :
  NoDup (map fst acc) -> NoDup (map fst (acc_append acc r c)).
Proof.
  intros H. rewrite keys_acc_append.
  destruct (existsb (String.eqb r) (map fst acc)) eqn:E; [exact H|].
  apply NoDup_app. split; [exact H|]. split; [|apply NoDup_singleton].
  intros x Hx Hx'. apply list_elem_of_singleton in Hx'. subst x.
  assert (existsb (String.eqb r) (map fst acc) = true); [|congruence].
  apply existsb_exists. exists r. split; [|apply String.eqb_refl].
  apply list_elem_of_In. exact Hx.
Qed.

Lemma got_acc_frame f acc r :
  got (acc_frame acc f) r = got acc r ++ confs_in_frame r f.
Proof.
  unfold acc_frame, confs_in_frame. revert acc.
  induction f as [|[r' c] f IH]; intros acc; cbn [fold_left List.filter map fst snd].
  - rewrite app_nil_r. reflexivity.
  - rewrite IH, got_acc_append.
    destruct (String.eqb r' r); cbn [map snd].
    + rewrite <- app_assoc. reflexivity.
    + reflexivity.
Qed.

Lemma acc_frame_invariant f acc :
  all_nonempty acc /\ NoDup (map fst acc) ->
  all_nonempty (acc_frame acc f) /\ NoDup (map fst (acc_frame acc f)).
Proof.
  unfold acc_frame. revert acc.
  induction f as [|[r c] f IH]; intros acc [H1 H2]; cbn [fold_left].
  - split; assumption.
  - apply IH. split.
    + apply all_nonempty_acc_append. exact H1.
    + apply nodup_acc_append. exact H2.
Qed.

Lemma got_fold_frames hist acc r :
  got (fold_left acc_frame hist acc) r = got acc r ++ confs_of r hist.
Proof.
  unfold confs_of. revert acc.
  induction hist as [|f hist IH]; intros acc; cbn [fold_left flat_map].
  - rewrite app_nil_r. reflexivity.
  - rewrite IH, got_acc_frame, <- app_assoc. reflexivity.
Qed.

Lemma fold_frames_invariant hist acc :
  all_nonempty acc /\ NoDup (map fst acc) ->
  all_nonempty (fold_left acc_frame hist acc) /\
  NoDup (map fst (fold_left acc_frame hist acc)).
Proof.
  revert acc. induction hist as [|f hist IH]; intros acc H; cbn [fold_left].
  - exact H.
  - apply IH, acc_frame_invariant, H.
Qed.

Lemma got_accumulate hist r : got (accumulate hist) r = confs_of r hist.
Proof. unfold accumulate. rewrite got_fold_frames. reflexivity. Qed.

Lemma accumulate_invariant hist :
  all_nonempty (accumulate hist) /\ NoDup (map fst (accumulate hist)).
Proof.
  apply fold_frames_invariant. split; [constructor | constructor].
Qed.

Lemma dict_get_In {V} (d : list (string * V)) k v :
  Py.dict_get d k = Some v -> In (k, v) d.
Proof.
  induction d as [|[k' v'] d IH]; cbn [Py.dict_get]; [discriminate|].
  destruct (String.eqb_spec k' k) as [->|_].
  - intros [= ->]. left. reflexivity.
  - intros H. right. exact (IH H).
Qed.

Lemma In_dict_get {V} (d : list (string * V)) k v :
  NoDup (map fst d) -> In (k, v) d -> Py.dict_get d k = Some v.
Proof.
  induction d as [|[k' v'] d IH]; cbn [Py.dict_get map fst]; [intros _ []|].
  intros Hnd [E|Hin].
  - injection E as -> ->. rewrite String.eqb_refl. reflexivity.
  - apply NoDup_cons in Hnd as [Hk' Hnd].
    destruct (String.eqb_spec k' k) as [->|_]; [|exact (IH Hnd Hin)].
    exfalso. apply Hk'. apply list_elem_of_In.
    apply in_map_iff. exists (k, v). split; [reflexivity | exact Hin].
Qed.

Lemma dict_get_accumulate hist r :
  Py.dict_get (accumulate hist) r =
  match confs_of r hist with
  | [] => None
  | _ :: _ => Some (confs_of r hist)
  end.
Proof.
  pose proof (got_accumulate hist r) as Hg. unfold got in Hg.
  destruct (accumulate_invariant hist) as [Hne _].
  destruct (Py.dict_get (accumulate hist) r) as [v|] eqn:E; simpl in Hg.
  - subst v. apply dict_get_In in E.
    unfold all_nonempty in Hne. rewrite List.Forall_forall in Hne.
    specialize (Hne _ E). cbn in Hne.
    destruct (confs_of r hist); [contradiction | reflexivity].
  - rewrite <- Hg. reflexivity.
Qed.

Lemma In_confs_in_frame r f c :
  In c (confs_in_frame r f) <-> In (r, c) f.
Proof.
  unfold confs_in_frame. rewrite in_map_iff. split.
  - intros ([r' c'] & Hc & Hfil). cbn in Hc. subst c'.
    apply filter_In in Hfil as [Hin Heq]. cbn in Heq.
    apply String.eqb_eq in Heq. subst r'. exact Hin.
  - intros Hin. exists (r, c). split; [reflexivity|].
    apply filter_In. split; [exact Hin|]. cbn. apply String.eqb_refl.
Qed.

Lemma In_confs_of r hist c :
  In c (confs_of r hist) <-> exists f, In f hist /\ In (r, c) f.
Proof.
  unfold confs_of. rewrite in_flat_map.
  split; intros (f & Hf & Hc); exists f; (split; [exact Hf|]);
    apply In_confs_in_frame; exact Hc.
Qed.

Lemma dict_get_key {V} (d : list (string * V)) k :
  In k (map fst d) <-> Py.dict_get d k <> None.
Proof.
  induction d as [|[k' v'] d IH]; cbn [map fst In Py.dict_get].
  - split; [intros [] | intros H; apply H; reflexivity].
  - destruct (String.eqb_spec k' k) as [->|Hne].
    + split; [discriminate | intros _; left; reflexivity].
    + rewrite <- IH. split; [intros [E|H]; [contradiction | exact H] | intros H; right; exact H].
Qed.

Lemma present_confs r hist : present r hist <-> confs_of r hist <> [].
Proof.
  unfold present. split.
  - intros (f & c & Hf & Hc) E.
    assert (In c (confs_of r hist)) as Hin.
    { apply In_confs_of. exists f. split; assumption. }
    rewrite E in Hin. destruct Hin.
  - intros Hne.
    destruct (confs_of r hist) as [|c rest] eqn:E; [contradiction|].
    assert (In c (confs_of r hist)) as Hin by (rewrite E; left; reflexivity).
    apply In_confs_of in Hin as (f & Hf & Hc).
    exists f, c. split; assumption.
Qed.

End Smoothing.

Section Ranking.
Import VPR.

Lemma dict_get_mean_conf acc r :
  Py.dict_get (mean_conf acc) r = option_map mean (Py.dict_get acc r).
Proof.
  unfold mean_conf. induction acc as [|[k v] acc IH]; cbn [map Py.dict_get fst snd].
  - reflexivity.
  - destruct (String.eqb k r); [reflexivity | exact IH].
Qed.

Lemma keys_mean_conf acc : map fst (mean_conf acc) = map fst acc.
Proof.
  unfold mean_conf. rewrite map_map. reflexivity.
Qed.

(** *** The stable descending sort *)

Lemma insert_desc_perm x l : Permutation (insert_desc x l) (x :: l).
Proof.
  induction l as [|y l IH]; cbn [insert_desc]; [reflexivity|].
  destruct (Qgtb (snd y) (snd x)); [|reflexivity].
  rewrite IH. apply perm_swap.
Qed.

Lemma sorted_desc_perm l : Permutation (sorted_desc l) l.
Proof.
  unfold sorted_desc. induction l as [|x l IH]; cbn [foldr]; [reflexivity|].
  rewrite insert_desc_perm, IH. reflexivity.
Qed.

Lemma insert_desc_head x l b :
  snd x <= b ->
  (forall y, head l = Some y -> snd y <= b) ->
  forall z, head (insert_desc x l) = Some z -> snd z <= b.
Proof.
  intros Hx Hl z. destruct l as [|y l]; cbn [insert_desc head].
  - intros [= <-]. exact Hx.
  - destruct (Qgtb (snd y) (snd x)); cbn [head]; intros [= <-].
    + apply Hl. reflexivity.
    + exact Hx.
Qed.

Lemma descending_cons x l :
  descending (x :: l) <->
  (forall y, head l = Some y -> snd y <= snd x) /\ descending l.
Proof.
  cbn [descending]. destruct l as [|y l]; cbn [head].
  - split; [intros [_ H]; split; [discriminate | exact H] | intros [_ H]; split; [exact I | exact H]].
  - split; intros [H1 H2]; (split; [|exact H2]).
    + intros z [= <-]. exact H1.
    + apply H1. reflexivity.
Qed.

Lemma insert_desc_descending x l :
  descending l -> descending (insert_desc x l).
Proof.
  induction l as [|y l IH]; intros Hl; cbn [insert_desc].
  - cbn. split; exact I.
  - destruct (Qgtb (snd y) (snd x)) eqn:E.
    + apply descending_cons in Hl as [Hhd Hl].
      apply descending_cons. split; [|exact (IH Hl)].
      apply insert_desc_head; [|exact Hhd].
      apply Qgtb_true in E. apply Qlt_le_weak. exact E.
    + apply Qgtb_false in E.
      apply descending_cons. split; [|exact Hl].
      cbn [head]. intros z [= <-]. exact E.
Qed.

Lemma sorted_desc_descending l : descending (sorted_desc l).
Proof.
  unfold sorted_desc. induction l as [|x l IH]; cbn [foldr].
  - exact I.
  - apply insert_desc_descending. exact IH.
Qed.

Lemma descending_take n l : descending l -> descending (take n l).
Proof.
  revert l. induction n as [|n IH]; intros l Hl; [destruct l; exact I|].
  destruct l as [|x l]; [exact I|]. cbn [take].
  apply descending_cons in Hl as [Hhd Hl].
  apply descending_cons. split; [|exact (IH l Hl)].
  intros y Hy. apply Hhd.
  destruct n, l; cbn in *; congruence.
Qed.

Lemma In_smooth hist e :
  In e (smooth hist) -> In e (mean_conf (accumulate hist)).
Proof.
  unfold smooth. intros H.
  apply list_elem_of_In in H. apply (subseteq_take TOP_K) in H.
  apply list_elem_of_In.
  rewrite <- (sorted_desc_perm (mean_conf (accumulate hist))).
  exact H.
Qed.

Lemma keys_smooth_nodup hist : NoDup (map fst (smooth hist)).
Proof.
  unfold smooth.
  assert (NoDup (map fst (sorted_desc (mean_conf (accumulate hist))))) as H.
  { rewrite sorted_desc_perm, keys_mean_conf. apply accumulate_invariant. }
  revert H. generalize (sorted_desc (mean_conf (accumulate hist))) as l.
  intros l. generalize TOP_K as n. intros n. revert l.
  induction n as [|n IH]; intros [|x l] H; cbn [take map]; try constructor.
  - apply NoDup_cons in H as [Hx H]. intros Hin. apply Hx.
    apply list_elem_of_In in Hin. apply in_map_iff in Hin as (y & Hy & Hin).
    apply list_elem_of_In. apply in_map_iff. exists y. split; [exact Hy|].
    apply list_elem_of_In in Hin.
    apply (subseteq_take n) in Hin. apply list_elem_of_In. exact Hin.
  - apply NoDup_cons in H as [_ H]. exact (IH l H).
Qed.

Lemma length_smooth hist :
  length (smooth hist) = Nat.min TOP_K (length (accumulate hist)).
Proof.
  unfold smooth. rewrite length_take.
  rewrite (Permutation_length (sorted_desc_perm _)).
  unfold mean_conf. rewrite length_map. reflexivity.
Qed.

(** A descending list puts every later confidence below every earlier one. *)
Lemma descending_tail_le (x : entry) (l : list entry) :
  descending (x :: l) -> forall y, In y l -> snd y <= snd x.
Proof.
  revert x. induction l as [|z l IH]; intros x Hd y Hy; [destruct Hy|].
  cbn [descending] in Hd. destruct Hd as [Hzx Hd].
  destruct Hy as [<-|Hy]; [exact Hzx|].
  specialize (IH z Hd y Hy). lra.
Qed.

Lemma descending_take_drop (n : nat) (l : list entry) :
  descending l ->
  forall x y, In x (take n l) -> In y (drop n l) -> snd y <= snd x.
Proof.
  revert l. induction n as [|n IH]; intros l Hd x y Hx Hy.
  - rewrite take_0 in Hx. destruct Hx.
  - destruct l as [|z l]; [destruct Hx|].
    cbn [take drop] in Hx, Hy.
    destruct Hx as [<-|Hx].
    + apply (descending_tail_le z l Hd).
      apply list_elem_of_In. apply list_elem_of_In in Hy.
      eapply (subseteq_drop n l). exact Hy.
    + apply (IH l); [|exact Hx | exact Hy].
      cbn [descending] in Hd. exact (proj2 Hd).
Qed.

End Ranking.

Section Window.
Import VPR.

Lemma pred_hist_process f s :
  pred_hist (process f s) = deque_append AVG_WINDOW (pred_hist s) f.
Proof. reflexivity. Qed.

Lemma top_k_process f s :
  top_k (process f s) = smooth (pred_hist (process f s)).
Proof. reflexivity. Qed.

Lemma process_all_snoc fs f s :
  process_all (fs ++ [f]) s = process f (process_all fs s).
Proof. unfold process_all. rewrite fold_left_app. reflexivity. Qed.

Lemma drop_all_but_suffix {A} (a b : list A) n :
  length b = n -> drop (length (a ++ b) - n) (a ++ b) = b.
Proof.
  intros <-. rewrite length_app.
  replace (length a + length b - length b)%nat with (length a) by lia.
  apply drop_app_length.
Qed.

Lemma deque_append_keeps {A} n (d : list A) x :
  (length (deque_append n d x) <= n)%nat.
Proof.
  unfold deque_append. rewrite length_drop. lia.
Qed.

(** After pushing [old] and then [AVG_WINDOW] frames [recent], the window
    holds exactly [recent]. *)
Lemma window_after_pushes old recent s :
  length recent = AVG_WINDOW ->
  pred_hist (process_all (old ++ recent) s) = recent.
Proof.
  intros Hlen.
  destruct recent as [|f1 [|f2 [|f3 [|f4 rest]]]]; try discriminate Hlen.
  replace (old ++ [f1; f2; f3]) with (((old ++ [f1]) ++ [f2]) ++ [f3])
    by (rewrite <- !app_assoc; reflexivity).
  rewrite !process_all_snoc, !pred_hist_process.
  generalize (pred_hist (process_all old s)) as h. intros h.
  unfold deque_append.
  set (h1 := drop _ (h ++ [f1])).
  assert (exists a, h1 = a ++ [f1]) as [a ->].
  { subst h1. rewrite drop_app_le by (rewrite length_app; unfold AVG_WINDOW; cbn [length]; lia).
    eexists. reflexivity. }
  set (h2 := drop _ ((a ++ [f1]) ++ [f2])).
  assert (exists b, h2 = b ++ [f1; f2]) as [b ->].
  { subst h2. rewrite <- app_assoc. cbn [app].
    rewrite drop_app_le by (rewrite !length_app; unfold AVG_WINDOW; cbn [length]; lia).
    eexists. reflexivity. }
  rewrite <- app_assoc. cbn [app].
  apply (drop_all_but_suffix b [f1; f2; f3]). reflexivity.
Qed.

End Window.

Section MeanBounds.
Import VPR.

Lemma py_len_cons {A} (x : A) (v : list A) : py_len (x :: v) == py_len v + 1.
Proof.
  unfold py_len. cbn [length]. rewrite Nat2Z.inj_succ, <- Z.add_1_r.
  rewrite inject_Z_plus. reflexivity.
Qed.

Lemma py_len_nonneg {A} (v : list A) : 0 <= py_len v.
Proof.
  unfold py_len. change 0 with (inject_Z 0). rewrite <- Zle_Qle. lia.
Qed.

Lemma fold_sum_bounds (v : list Q) (a : Q) :
  Forall (fun c => 0 <= c /\ c <= 1) v ->
  a <= fold_left Qplus v a /\ fold_left Qplus v a <= a + py_len v.
Proof.
  revert a. induction v as [|x v IH]; intros a Hv; cbn [fold_left].
  - change (py_len (@nil Q)) with 0. split; lra.
  - apply Forall_cons in Hv as [[Hx0 Hx1] Hv].
    destruct (IH (a + x) Hv) as [Hlo Hhi].
    rewrite py_len_cons. split; lra.
Qed.

Lemma mean_within_unit (v : list Q) :
  v <> [] ->
  Forall (fun c => 0 <= c /\ c <= 1) v ->
  0 <= mean v /\ mean v <= 1.
Proof.
  intros Hne Hv. unfold mean, py_sum.
  destruct (fold_sum_bounds v 0 Hv) as [Hlo Hhi].
  assert (0 < py_len v) as Hpos.
  { destruct v as [|x v]; [contradiction|].
    rewrite py_len_cons. pose proof (py_len_nonneg v). lra. }
  split.
  - apply Qle_shift_div_l; [exact Hpos | lra].
  - apply Qle_shift_div_r; [exact Hpos | lra].
Qed.

End MeanBounds.

Section VPRClaims.
Import VPR.

Lemma mean_conf_of_present hist r :
  present r hist ->
  Py.dict_get (mean_conf (accumulate hist)) r = Some (mean (confs_of r hist)).
Proof.
  intros Hp. apply present_confs in Hp.
  rewrite dict_get_mean_conf, dict_get_accumulate.
  destruct (confs_of r hist); [contradiction | reflexivity].
Qed.

Lemma reported_is_mean hist r m :
  In (r, m) (smooth hist) ->
  present r hist /\ m = mean (confs_of r hist).
Proof.
  intros Hin. apply In_smooth in Hin.
  apply In_dict_get in Hin;
    [|rewrite keys_mean_conf; apply accumulate_invariant].
  rewrite dict_get_mean_conf, dict_get_accumulate in Hin.
  destruct (confs_of r hist) as [|c v] eqn:E; [discriminate|].
  cbn in Hin. injection Hin as <-.
  split; [|reflexivity].
  apply present_confs. rewrite E. discriminate.
Qed.

(** A region of the window is in the estimate with its mean, unless the
    estimate is full of regions that rank at least as high. *)
Lemma present_reported_or_outranked hist r :
  present r hist ->
  In (r, mean (confs_of r hist)) (smooth hist) \/
  (length (smooth hist) = TOP_K /\
   forall r' m', In (r', m') (smooth hist) -> mean (confs_of r hist) <= m').
Proof.
  intros Hp.
  pose proof (mean_conf_of_present hist r Hp) as Hg.
  apply dict_get_In in Hg.
  assert (In (r, mean (confs_of r hist))
             (sorted_desc (mean_conf (accumulate hist)))) as Hs.
  { apply list_elem_of_In.
    rewrite (sorted_desc_perm (mean_conf (accumulate hist))).
    apply list_elem_of_In. exact Hg. }
  rewrite <- (take_drop TOP_K (sorted_desc (mean_conf (accumulate hist)))) in Hs.
  apply in_app_or in Hs as [Hs|Hs]; [left; exact Hs|].
  right. split.
  - unfold smooth. rewrite length_take.
    destruct (Nat.le_gt_cases
                (length (sorted_desc (mean_conf (accumulate hist)))) TOP_K)
      as [Hle|Hgt]; [|lia].
    rewrite drop_ge in Hs by exact Hle. destruct Hs.
  - intros r' m' Hin.
    apply (descending_take_drop TOP_K
             (sorted_desc (mean_conf (accumulate hist)))
             (sorted_desc_descending _)
             (r', m') (r, mean (confs_of r hist))); assumption.
Qed.

Lemma present_reported_when_few hist r :
  (length (accumulate hist) <= TOP_K)%nat ->
  present r hist ->
  In (r, mean (confs_of r hist)) (smooth hist).
Proof.
  intros Hfew Hp.
  pose proof (mean_conf_of_present hist r Hp) as Hg.
  apply dict_get_In in Hg.
  unfold smooth. rewrite take_ge.
  - apply list_elem_of_In.
    rewrite (sorted_desc_perm (mean_conf (accumulate hist))).
    apply list_elem_of_In. exact Hg.
  - rewrite (Permutation_length (sorted_desc_perm _)).
    unfold mean_conf. rewrite length_map. exact Hfew.
Qed.

(** C5.  After a frame is processed, every region present in the window has
    as smoothed confidence the arithmetic mean of exactly its own
    confidences in the retained frames (the divisor is the number of those
    samples), and this is the value reported for it in the top-K estimate:
    whatever the estimate reports for a region is that mean, a region of
    the window is reported with it unless the estimate already holds K
    regions whose confidences are at least as high, and all regions of the
    window are reported when there are at most K of them.  Once
    [AVG_WINDOW] further frames have been pushed, the window and the
    estimate are those of these frames alone, whatever came before. *)
Theorem smoothed_confidence_is_window_mean :
  (forall (s : t) (f : frame),
     let hist := pred_hist (process f s) in
     (forall r, present r hist ->
        Py.dict_get (mean_conf (accumulate hist)) r =
        Some (mean (confs_of r hist))) /\
     (forall r m, In (r, m) (get_top_regions (process f s)) ->
        present r hist /\ m = mean (confs_of r hist)) /\
     (forall r, present r hist ->
        In (r, mean (confs_of r hist)) (get_top_regions (process f s)) \/
        (length (get_top_regions (process f s)) = TOP_K /\
         forall r' m', In (r', m') (get_top_regions (process f s)) ->
                       mean (confs_of r hist) <= m')) /\
     ((length (accumulate hist) <= TOP_K)%nat ->
      forall r, present r hist ->
        In (r, mean (confs_of r hist)) (get_top_regions (process f s)))) /\
  (forall (s : t) (old recent : list frame),
     length recent = AVG_WINDOW ->
     pred_hist (process_all (old ++ recent) s) = recent /\
     get_top_regions (process_all (old ++ recent) s) = smooth recent).
Proof.
  split.
  - intros s f hist. unfold get_top_regions. rewrite top_k_process.
    fold hist. split; [|split; [|split]].
    + intros r. apply mean_conf_of_present.
    + intros r m. apply reported_is_mean.
    + intros r. apply present_reported_or_outranked.
    + intros Hfew r. apply present_reported_when_few. exact Hfew.
  - intros s old recent Hlen.
    pose proof (window_after_pushes old recent s Hlen) as Hw.
    split; [exact Hw|].
    destruct recent as [|f recent] using rev_ind; [discriminate Hlen|].
    rewrite app_assoc in Hw |- *. rewrite process_all_snoc in Hw |- *.
    unfold get_top_regions. rewrite top_k_process, Hw. reflexivity.
Qed.

Lemma keys_accumulate hist r :
  In r (map fst (accumulate hist)) <-> present r hist.
Proof.
  rewrite dict_get_key, dict_get_accumulate, present_confs.
  destruct (confs_of r hist); split; intros H; congruence.
Qed.

Lemma pushed_frame_retained f s : In f (pred_hist (process f s)).
Proof.
  rewrite pred_hist_process. unfold deque_append.
  rewrite drop_app_le by (rewrite length_app; unfold AVG_WINDOW; cbn [length]; lia).
  apply in_or_app. right. left. reflexivity.
Qed.

(** C7, as the code has it.  The estimate produced by a VPR cycle lists
    pairwise distinct regions, as many as the window holds but at most K = 5
    (and at least one when the frame is not empty), in descending order of
    confidence; each confidence lies in [0,1] when the per-frame confidences
    retained in the window do.  The regions of the window are counted by
    the accumulator, which has each of them once as a key. *)
Theorem top_k_estimate_shape (s : t) (f : frame) :
  let e := get_top_regions (process f s) in
  let regions := map fst (accumulate (pred_hist (process f s))) in
  (length e <= TOP_K)%nat /\
  (f <> [] -> (1 <= length e)%nat) /\
  length e = Nat.min TOP_K (length regions) /\
  (NoDup regions /\
   forall r, In r regions <-> present r (pred_hist (process f s))) /\
  NoDup (map fst e) /\
  descending e /\
  (confs_within 0 1 (pred_hist (process f s)) ->
   forall r c, In (r, c) e -> 0 <= c /\ c <= 1).
Proof.
  intros e regions. subst e regions. unfold get_top_regions.
  rewrite top_k_process. set (hist := pred_hist (process f s)) in *.
  rewrite length_map, length_smooth.
  split; [unfold TOP_K; lia|]. split.
  { intros Hf.
    assert (1 <= length (accumulate hist))%nat as Hacc.
    { destruct f as [|[r c] f]; [contradiction|].
      assert (present r hist) as Hp.
      { exists ((r, c) :: f), c. split; [apply pushed_frame_retained|].
        left. reflexivity. }
      apply present_confs in Hp.
      pose proof (dict_get_accumulate hist r) as Hg.
      destruct (confs_of r hist); [contradiction|].
      apply dict_get_In in Hg.
      destruct (accumulate hist); [destruct Hg | cbn; lia]. }
    unfold TOP_K. lia. }
  split; [reflexivity|]. split.
  { split; [apply accumulate_invariant|]. intros r. apply keys_accumulate. }
  split; [apply keys_smooth_nodup|]. split.
  { unfold smooth. apply descending_take, sorted_desc_descending. }
  intros Hconf r c H.
  apply reported_is_mean in H as [Hp ->].
  apply mean_within_unit.
  - apply present_confs. exact Hp.
  - apply List.Forall_forall. intros x Hx.
    apply In_confs_of in Hx as (fr & Hfr & Hx).
    exact (Hconf fr r x Hfr Hx).
Qed.

End VPRClaims.

Section VPRScenarios.
Import VPR.
Import Scenario.

Lemma smoothed_confidence_is_window_mean_witness :
  Py.dict_get (mean_conf (accumulate (pred_hist (process r1_090 init)))) "r1" =
    Some (mean (confs_of "r1" (pred_hist (process r1_090 init)))) /\
  In ("r1"%string, mean (confs_of "r1" (pred_hist (process r1_090 init))))
     (get_top_regions (process r1_090 init)) /\
  pred_hist (process_all ([r1_090] ++ [r1_060; r2_080; r1_090]) init) =
    [r1_060; r2_080; r1_090].
Proof.
  destruct smoothed_confidence_is_window_mean as [Hmean Hwin].
  assert (present "r1" (pred_hist (process r1_090 init))) as Hp.
  { exists r1_090, 0.9. split; left; reflexivity. }
  split; [|split].
  - exact (proj1 (Hmean init r1_090) "r1"%string Hp).
  - refine (proj2 (proj2 (proj2 (Hmean init r1_090))) _ "r1"%string Hp).
    unfold TOP_K. cbn. lia.
  - apply (proj1 (Hwin init [r1_090] [r1_060; r2_080; r1_090] eq_refl)).
Defined.

Lemma top_k_estimate_shape_witness :
  let e := get_top_regions (process frame_b (process frame_a init)) in
  let regions :=
    map fst (accumulate (pred_hist (process frame_b (process frame_a init)))) in
  (1 <= length e <= TOP_K)%nat /\
  length e = Nat.min TOP_K (length regions) /\
  (NoDup regions /\
   forall r, In r regions <->
             present r (pred_hist (process frame_b (process frame_a init)))) /\
  NoDup (map fst e) /\
  descending e /\
  (forall r c, In (r, c) e -> 0 <= c /\ c <= 1).
Proof.
  destruct (top_k_estimate_shape (process frame_a init) frame_b)
    as (Hle & Hge & Hlen & Hreg & Hnd & Hdesc & Hrange).
  split; [split; [apply Hge; discriminate | exact Hle]|].
  split; [exact Hlen|]. split; [exact Hreg|]. split; [exact Hnd|].
  split; [exact Hdesc|].
  apply Hrange.
  intros f r c Hf Hc.
  cbv [process loop set_image image pred_hist deque_append init app length
       Nat.sub drop AVG_WINDOW] in Hf.
  unfold frame_a, frame_b in Hf. cbn [In] in Hf.
  destruct Hf as [<-|[<-|[]]]; cbn [In] in Hc;
    repeat (destruct Hc as [[= <- <-]|Hc]; [split; discriminate|]);
    destruct Hc.
Defined.

(** C7 fails as stated: a frame whose five best matches all belong to one
    region yields an estimate of length 1, not 5. *)
Lemma top_k_estimate_length_counterexample :
  let e := get_top_regions (process frame_same init) in
  ~ (length e = TOP_K /\ descending e /\
     (forall r c, In (r, c) e -> 0 <= c /\ c <= 1)).
Proof.
  intros e [Hlen _]. vm_compute in Hlen. discriminate Hlen.
Qed.

(** C2, as the code has it.  [clear()] resets the smoothed estimate to K
    pairs [("", 0.0)] and leaves the window as it is: the estimate computed
    for the next frame is taken over that frame and the frames still
    retained from before the call, and every confidence it reports is the
    mean over that window. *)
Theorem clear_resets_estimate_only (s : t) (f : frame) :
  get_top_regions (clear s) = replicate TOP_K (""%string, 0) /\
  pred_hist (clear s) = pred_hist s /\
  get_top_regions (process f (clear s)) =
    smooth (deque_append AVG_WINDOW (pred_hist s) f) /\
  (forall r m, In (r, m) (get_top_regions (process f (clear s))) ->
     m = mean (confs_of r (deque_append AVG_WINDOW (pred_hist s) f))) /\
  (forall c : Controller.t,
     Controller.vpr (Controller.set_stop_region None c) =
     clear (Controller.vpr c)).
Proof.
  split; [reflexivity|]. split; [reflexivity|]. split; [reflexivity|].
  split; [|reflexivity].
  intros r m Hin. apply (reported_is_mean _ r m). exact Hin.
Qed.

(** C2 fails as stated: a frame pushed before [clear()] still contributes
    to the estimate computed for the next frame. *)
Lemma clear_keeps_window_counterexample :
  ~ (get_top_regions (clear (process frame_a init)) =
       replicate TOP_K (""%string, 0) /\
     get_top_regions (process frame_b (clear (process frame_a init))) =
       smooth [frame_b]).
Proof.
  intros [_ H]. vm_compute in H. discriminate H.
Qed.

(** C6, as the code has it.  With single-entry frames (r1,0.9), (r1,0.6),
    (r2,0.8) pushed into the empty window of size 3, r1 is reported at 0.75,
    the mean of its two samples, and r2 at 0.8; the sort is descending, so
    r2 is the smoothed top-1 and r1 comes second. *)
Theorem smoothing_scenario :
  exists m1 m2,
    get_top_regions (process_all [r1_090; r1_060; r2_080] init) =
      [("r2"%string, m2); ("r1"%string, m1)] /\
    m1 == 0.75 /\ m2 == 0.8 /\
    confs_of "r1" [r1_090; r1_060; r2_080] = [0.9; 0.6] /\
    confs_of "r2" [r1_090; r1_060; r2_080] = [0.8].
Proof.
  eexists _, _. split; [vm_compute; reflexivity|].
  repeat split.
Qed.

(** C6 fails as stated: r1 at 0.75 is not ranked above r2 at 0.8. *)
Lemma smoothing_scenario_counterexample :
  ~ (exists m1 m2 rest,
       get_top_regions (process_all [r1_090; r1_060; r2_080] init) =
         ("r1"%string, m1) :: ("r2"%string, m2) :: rest /\
       m1 == 0.75 /\ m2 == 0.8).
Proof.
  intros (m1 & m2 & rest & H & _). vm_compute in H. discriminate H.
Qed.

End VPRScenarios.

(** ** The inference step and its two channels *)

Section InferenceStep.
Import Inference.

Lemma drain_newest_last {A} (q : list A) (x0 newest : A) :
  drain_newest x0 (q ++ [newest]) = (newest, []).
Proof.
  revert x0. induction q as [|x q IH]; intros x0; cbn [app drain_newest].
  - reflexivity.
  - apply IH.
Qed.

Lemma drain_empties {A} (q : list A) : drain q = [].
Proof. induction q as [|x q IH]; [reflexivity | exact IH]. Qed.

Lemma clamp_bounds (x : Q) : -1 <= clamp x /\ clamp x <= 1.
Proof.
  unfold clamp, py_max, py_min.
  destruct (Qgtb 1 x) eqn:E1.
  - apply Qgtb_true in E1.
    destruct (Qgtb x (-1)) eqn:E2.
    + apply Qgtb_true in E2. split; lra.
    + split; lra.
  - destruct (Qgtb 1 (-1)) eqn:E2.
    + split; lra.
    + apply Qgtb_false in E2. lra.
Qed.

(** C4, as the code has it.  An inference step consumes the newest
    observation held in the observation channel and discards the older
    queued ones; both policy outputs are clamped to [-1,1]; any unread
    action is discarded before the new one is enqueued, so the action
    channel then holds exactly the new command.  The observation channel
    itself keeps what it holds when it is full: a reading produced
    meanwhile is the one dropped. *)
Theorem inference_step_freshest_queued
  (policy : list Q -> action) (s : t)
  (older : list observation) (newest : observation) (act_q : list action) :
  model_loaded s = true ->
  let a := (clamp (fst (policy (obs_to_tensor (last_action s) newest))),
            clamp (snd (policy (obs_to_tensor (last_action s) newest)))) in
  loop policy Controller.ACT_MAXSIZE s (older ++ [newest]) act_q =
    Some ({| model_loaded := true;
             last_action := policy (obs_to_tensor (last_action s) newest) |},
          [], [a], Acted newest a) /\
  (-1 <= fst a /\ fst a <= 1) /\ (-1 <= snd a /\ snd a <= 1) /\
  (forall (c : Controller.t) (held produced : observation),
     Controller.obs_q c = [held] ->
     Controller.obs_q (Controller.sensor_step produced c) = [held]).
Proof.
  intros Hm a. split; [|split; [|split]].
  - unfold loop. rewrite Hm. cbn [negb].
    destruct older as [|o older].
    + cbn [app Queue.get_nowait drain_newest].
      rewrite drain_empties. reflexivity.
    + cbn [app Queue.get_nowait]. rewrite drain_newest_last, drain_empties.
      reflexivity.
  - apply clamp_bounds.
  - apply clamp_bounds.
  - intros c held produced Hq. unfold Controller.sensor_step.
    rewrite Hq. reflexivity.
Qed.

Lemma inference_step_freshest_queued_witness :
  let s := Scenario.inference_ready in
  let a := (clamp (fst (Scenario.policy_example
                          (obs_to_tensor (last_action s) Scenario.obs_new))),
            clamp (snd (Scenario.policy_example
                          (obs_to_tensor (last_action s) Scenario.obs_new)))) in
  loop Scenario.policy_example Controller.ACT_MAXSIZE s
       ([Scenario.obs_old] ++ [Scenario.obs_new]) [(0.2, 0.1)] =
    Some ({| model_loaded := true;
             last_action := Scenario.policy_example
                              (obs_to_tensor (last_action s) Scenario.obs_new) |},
          [], [a], Acted Scenario.obs_new a) /\
  (-1 <= fst a /\ fst a <= 1) /\ (-1 <= snd a /\ snd a <= 1) /\
  (forall (c : Controller.t) (held produced : observation),
     Controller.obs_q c = [held] ->
     Controller.obs_q (Controller.sensor_step produced c) = [held]).
Proof.
  apply (inference_step_freshest_queued Scenario.policy_example
           Scenario.inference_ready [Scenario.obs_old] Scenario.obs_new
           [(0.2, 0.1)]).
  reflexivity.
Defined.

(** C4 fails as stated: with two readings produced before the inference
    step runs, the step does not act on the most recently produced one. *)
Lemma inference_stale_observation_counterexample :
  ~ (exists s' a,
       Controller.run Scenario.policy_example
         [Controller.Sense Scenario.obs_old; Controller.Sense Scenario.obs_new;
          Controller.Infer] Scenario.system_start =
       Some (s', [Acted Scenario.obs_new a])).
Proof.
  intros (s' & a & H). vm_compute in H. discriminate H.
Qed.

(** What the step acts on in that schedule is the older reading. *)
Lemma inference_acts_on_held_observation :
  exists s' a,
    Controller.run Scenario.policy_example
      [Controller.Sense Scenario.obs_old; Controller.Sense Scenario.obs_new;
       Controller.Infer] Scenario.system_start =
    Some (s', [Acted Scenario.obs_old a]).
Proof.
  eexists _, _. vm_compute. reflexivity.
Qed.

End InferenceStep.

(** ** The subsystem lifecycle *)

Section Lifecycle.
Import Subsystem.
Variable S : Type.
Variable init_hardware : S -> method S.
Variable loop : S -> method S.

Local Abbreviation while_loop := (while_loop S loop).
Local Abbreviation run := (run S init_hardware loop).
Local Abbreviation steps_ok := (steps_ok S loop).

Lemma while_loop_step_ok n s tr s' :
  loop s = (tr, inr s') ->
  while_loop (Datatypes.S n) s =
  (CallLoop :: map Publish tr ++ fst (while_loop n s'), snd (while_loop n s')).
Proof.
  intros H. cbn [Subsystem.while_loop].
  unfold publish; unfold bind, try_except, emit, call, ret. rewrite H. cbn [fst snd app].
  destruct (while_loop n s') as [tr' r]. cbn [fst snd].
  rewrite (app_nil_r (map Publish tr)). reflexivity.
Qed.

Lemma while_loop_step_raise n s tr e :
  loop s = (tr, inl e) ->
  while_loop (Datatypes.S n) s =
  (CallLoop :: map Publish tr ++ [Publish (status_error e)], inr tt).
Proof.
  intros H. cbn [Subsystem.while_loop].
  unfold publish; unfold bind, try_except, emit, call, ret. rewrite H. cbn [fst snd app].
  rewrite ?app_nil_r. reflexivity.
Qed.

Lemma while_loop_returns n s : snd (while_loop n s) = inr tt.
Proof.
  revert s. induction n as [|n IH]; intros s; [reflexivity|].
  destruct (loop s) as [tr [e|s']] eqn:E.
  - rewrite (while_loop_step_raise n s tr e E). reflexivity.
  - rewrite (while_loop_step_ok n s tr s' E). apply IH.
Qed.

Lemma while_loop_stopped n s tk sk :
  steps_ok n s = Some (tk, sk) -> while_loop n s = (tk, inr tt).
Proof.
  revert s tk. induction n as [|n IH]; intros s tk; cbn [Subsystem.steps_ok].
  - intros [= <- <-]. reflexivity.
  - destruct (loop s) as [tr [e|s']] eqn:E; [discriminate|].
    destruct (steps_ok n s') as [[tr' s'']|] eqn:E'; [|discriminate].
    intros [= <- <-].
    rewrite (while_loop_step_ok n s tr s' E), (IH s' tr' E'). reflexivity.
Qed.

Lemma while_loop_failed n k s tk sk tf e :
  (k < n)%nat ->
  steps_ok k s = Some (tk, sk) ->
  loop sk = (tf, inl e) ->
  while_loop n s =
  (tk ++ CallLoop :: map Publish tf ++ [Publish (status_error e)], inr tt).
Proof.
  revert k s tk. induction n as [|n IH]; intros k s tk Hk; [lia|].
  destruct k as [|k]; cbn [Subsystem.steps_ok].
  - intros [= <- <-] Hf. rewrite (while_loop_step_raise n s tf e Hf). reflexivity.
  - destruct (loop s) as [tr [e'|s']] eqn:E; [discriminate|].
    destruct (steps_ok k s') as [[tr' s'']|] eqn:E'; [|discriminate].
    intros [= <- <-] Hf.
    rewrite (while_loop_step_ok n s tr s' E).
    rewrite (IH k s' tr' ltac:(lia) E' Hf). cbn [fst snd app].
    rewrite <- app_assoc. reflexivity.
Qed.

Lemma steps_ok_calls k s tk sk :
  steps_ok k s = Some (tk, sk) -> calls_of_loop tk = k.
Proof.
  unfold calls_of_loop.
  revert s tk. induction k as [|k IH]; intros s tk; cbn [Subsystem.steps_ok].
  - intros [= <- <-]. reflexivity.
  - destruct (loop s) as [tr [e|s']] eqn:E; [discriminate|].
    destruct (steps_ok k s') as [[tr' s'']|] eqn:E'; [|discriminate].
    intros [= <- <-]. cbn [List.filter length].
    rewrite List.filter_app, length_app, (IH s' tr' E').
    assert (List.filter (fun e => match e with CallLoop => true | _ => false end)
              (map Publish tr) = []) as ->; [|reflexivity].
    clear. induction tr as [|x tr IH]; [reflexivity | exact IH].
Qed.

Lemma run_init_failed budget s ti e :
  init_hardware s = (ti, inl e) ->
  run budget s =
  (Publish (status "initializing") :: CallInit :: map Publish ti
     ++ [Publish (status_error e)], inr false).
Proof.
  intros H. unfold Subsystem.run, publish; unfold bind, try_except, emit, call, ret.
  rewrite H. cbn [fst snd app]. rewrite ?app_nil_r. reflexivity.
Qed.

Lemma run_init_ok budget s ti s1 :
  init_hardware s = (ti, inr s1) ->
  run budget s =
  (Publish (status "initializing") :: CallInit :: map Publish ti
     ++ Publish (status "ok") :: fst (while_loop budget s1)
     ++ [Publish (status "off")], inr true).
Proof.
  intros H. unfold Subsystem.run, publish; unfold bind, try_except, emit, call, ret.
  rewrite H. cbn [fst snd app].
  pose proof (while_loop_returns budget s1) as Hr.
  destruct (while_loop budget s1) as [tw r]. cbn [snd fst] in *. subst r.
  cbn [app]. rewrite ?app_nil_r, <- ?app_assoc. reflexivity.
Qed.

Lemma calls_of_loop_app tr1 tr2 :
  calls_of_loop (tr1 ++ tr2) = (calls_of_loop tr1 + calls_of_loop tr2)%nat.
Proof. unfold calls_of_loop. rewrite List.filter_app, length_app. reflexivity. Qed.

Lemma calls_of_loop_publishes kvs : calls_of_loop (map Publish kvs) = O.
Proof. induction kvs as [|kv kvs IH]; [reflexivity | exact IH]. Qed.

Lemma last_published_snoc tr kv :
  last_published (tr ++ [Publish kv]) = Some kv.
Proof.
  unfold last_published. rewrite omap_app. cbn [omap]. apply last_snoc.
Qed.

(** The courses a run can take.  A run never lets an exception out: it
    returns.  If [init_hardware] raises, 'error' with the message is
    published and the run returns at once, with no call of [loop()].  If a
    call of [loop()] raises, 'error' with the message is published, no
    further call is made, and the closing 'off' is published after the
    'error'.  If the stop request is seen after [budget] calls, each of
    them has run to its end and 'off' is published. *)
Theorem subsystem_failures_become_status (budget : nat) (s : S) :
  (exists tr ready, run budget s = (tr, inr ready)) /\
  (forall ti e,
     init_hardware s = (ti, inl e) ->
     run budget s =
       (Publish (status "initializing") :: CallInit :: map Publish ti
          ++ [Publish (status_error e)], inr false) /\
     calls_of_loop (fst (run budget s)) = O /\
     last_published (fst (run budget s)) = Some (status_error e)) /\
  (forall ti s1 k tk sk tf e,
     init_hardware s = (ti, inr s1) ->
     (k < budget)%nat ->
     steps_ok k s1 = Some (tk, sk) ->
     loop sk = (tf, inl e) ->
     run budget s =
       (Publish (status "initializing") :: CallInit :: map Publish ti
          ++ Publish (status "ok") :: tk
          ++ CallLoop :: map Publish tf
          ++ [Publish (status_error e); Publish (status "off")], inr true) /\
     calls_of_loop (fst (run budget s)) = Datatypes.S k /\
     last_published (fst (run budget s)) = Some (status "off")) /\
  (forall ti s1 tk sk,
     init_hardware s = (ti, inr s1) ->
     steps_ok budget s1 = Some (tk, sk) ->
     run budget s =
       (Publish (status "initializing") :: CallInit :: map Publish ti
          ++ Publish (status "ok") :: tk ++ [Publish (status "off")], inr true) /\
     calls_of_loop (fst (run budget s)) = budget /\
     last_published (fst (run budget s)) = Some (status "off")).
Proof.
  split; [|split; [|split]].
  - destruct (init_hardware s) as [ti [e|s1]] eqn:E.
    + rewrite (run_init_failed budget s ti e E). eauto.
    + rewrite (run_init_ok budget s ti s1 E). eauto.
  - intros ti e E. rewrite (run_init_failed budget s ti e E). cbn [fst].
    split; [reflexivity|]. split.
    + change (calls_of_loop (map Publish ti ++ [Publish (status_error e)]) = O).
      rewrite calls_of_loop_app, calls_of_loop_publishes. reflexivity.
    + rewrite !app_comm_cons. apply last_published_snoc.
  - intros ti s1 k tk sk tf e E Hk Hs Hf.
    rewrite (run_init_ok budget s ti s1 E).
    rewrite (while_loop_failed budget k s1 tk sk tf e Hk Hs Hf). cbn [fst].
    split; [|split].
    + repeat (rewrite <- ?app_assoc; cbn [app]). reflexivity.
    + change (calls_of_loop (map Publish ti ++ Publish (status "ok") ::
                (tk ++ CallLoop :: map Publish tf ++ [Publish (status_error e)])
                ++ [Publish (status "off")]) = Datatypes.S k).
      rewrite calls_of_loop_app, calls_of_loop_publishes.
      change (calls_of_loop ((tk ++ CallLoop :: map Publish tf
                ++ [Publish (status_error e)]) ++ [Publish (status "off")])
              = Datatypes.S k).
      rewrite !calls_of_loop_app, (steps_ok_calls k s1 tk sk Hs).
      change (calls_of_loop (CallLoop :: map Publish tf ++ [Publish (status_error e)]))
        with (Datatypes.S (calls_of_loop (map Publish tf ++ [Publish (status_error e)]))).
      rewrite calls_of_loop_app, calls_of_loop_publishes. cbn. lia.
    + rewrite !app_comm_cons, app_assoc. apply last_published_snoc.
  - intros ti s1 tk sk E Hs.
    rewrite (run_init_ok budget s ti s1 E).
    rewrite (while_loop_stopped budget s1 tk sk Hs). cbn [fst].
    split; [reflexivity|]. split.
    + change (calls_of_loop (map Publish ti ++ Publish (status "ok") ::
                tk ++ [Publish (status "off")]) = budget).
      rewrite calls_of_loop_app, calls_of_loop_publishes.
      change (calls_of_loop (tk ++ [Publish (status "off")]) = budget).
      rewrite calls_of_loop_app, (steps_ok_calls budget s1 tk sk Hs). cbn. lia.
    + rewrite !app_comm_cons, app_assoc.
      apply last_published_snoc.
Qed.

End Lifecycle.

Lemma subsystem_failures_become_status_witness :
  Subsystem.calls_of_loop
    (fst (Subsystem.run nat Scenario.init_counting Scenario.loop_counting 5 O))
    = 3%nat /\
  Subsystem.last_published
    (fst (Subsystem.run nat Scenario.init_failing Scenario.loop_counting 5 O))
    = Some (Subsystem.status_error "no such device").
Proof.
  split.
  - destruct (subsystem_failures_become_status nat Scenario.init_counting
                Scenario.loop_counting 5 O) as (_ & _ & H & _).
    refine (proj1 (proj2 (H [] O 2%nat _ 2%nat [] "sensor unplugged"%string
                            eq_refl _ eq_refl eq_refl))).
    lia.
  - destruct (subsystem_failures_become_status nat Scenario.init_failing
                Scenario.loop_counting 5 O) as (_ & H & _).
    exact (proj2 (proj2 (H [] "no such device"%string eq_refl))).
Defined.

Section StatusLeft.
Import Subsystem.
Import StatusFact.

(** C9, at a failing [loop()].  A subsystem whose [init_hardware] returns
    and whose third [loop()] raises 'sensor unplugged': the run returns
    (ready flag true) after three calls of [loop()], and the last two
    things it publishes are 'error' with the message and then 'off'.
    Since [put] replaces the entry of a name, what Shared State holds for
    the subsystem afterwards is status 'off' with no error message: the
    failure is not left as a status fact.  A subsystem whose
    [init_hardware] raises is left with status 'error' and the message. *)
Theorem loop_failure_status_is_overwritten :
  let r := run nat Scenario.init_counting Scenario.loop_counting 5 O in
  let r0 := run nat Scenario.init_failing Scenario.loop_counting 5 O in
  snd r = inr true /\
  calls_of_loop (fst r) = 3%nat /\
  (exists pre,
     fst r = pre ++ [Publish (status_error "sensor unplugged");
                     Publish (status "off")]) /\
  (exists e,
     left_for "counting" (fst r) = Some e /\
     Py.dict_get e "status" = Some (Py.VStr "off") /\
     Py.dict_get e "error" = None) /\
  (exists e0,
     left_for "counting" (fst r0) = Some e0 /\
     Py.dict_get e0 "status" = Some (Py.VStr "error") /\
     Py.dict_get e0 "error" = Some (Py.VStr "no such device")).
Proof.
  intros r r0. split; [reflexivity|]. split; [reflexivity|]. split.
  - exists [Publish (status "initializing"); CallInit; Publish (status "ok");
            CallLoop; Publish [("count"%string, Py.VInt 0)];
            CallLoop; Publish [("count"%string, Py.VInt 1)]; CallLoop].
    vm_compute. reflexivity.
  - split; eexists; (split; [vm_compute; reflexivity|]); split; reflexivity.
Qed.

End StatusLeft.

Lemma drive_enable_debounce_witness :
  Controller.drive_enable_counter
    (fst (Controller.drive_enabled 0 Scenario.braking_example)) = 0%Z /\
  Controller.drive_enable_counter
    (fst (Controller.drive_enabled 1 Scenario.braking_example)) = 10%Z.
Proof.
  destruct drive_enable_debounce as [_ H].
  split.
  - apply (proj1 (H 0%Z Scenario.braking_example)). discriminate.
  - apply (proj1 (proj2 (H 1%Z Scenario.braking_example))). reflexivity.
Defined.

(** ** The planner's forward constraint *)

Section Planning.
Import Navigator.
Variable G : graph.
Variable get_direction_vector : Q -> Q * Q.

(** What [networkx] guarantees about the two queries: a shortest path
    starts at its source; a path exists when a length does; and a node has
    a path to the target when one of its neighbours has. *)
Hypothesis path_starts_at_source :
  forall u v p, shortest_path G u v = Some p -> exists rest, p = u :: rest.
Hypothesis path_when_length :
  forall u v d, shortest_path_length G u v = Some d ->
                exists p, shortest_path G u v = Some p.
Hypothesis path_through_neighbor :
  forall u n v d, In n (neighbors G u) ->
                  shortest_path_length G n v = Some d ->
                  exists p, shortest_path G u v = Some p.

Lemma candidates_spec current goal heading ns c n :
  In (c, n) (candidates G current goal heading ns) <->
  In n ns /\ turn_to G current heading n <= 135 /\
  exists d, shortest_path_length G n goal = Some d /\ c = Datatypes.S d.
Proof.
  induction ns as [|m ns IH]; cbn [candidates In].
  - split; [intros [] | intros [[] _]].
  - destruct (Qgtb (turn_to G current heading m) 135) eqn:E.
    + rewrite IH. apply Qgtb_true in E. split.
      * intros (Hin & Ht & Hd). split; [right; exact Hin | split; assumption].
      * intros ([->|Hin] & Ht & Hd); [lra|]. split; [exact Hin | split; assumption].
    + apply Qgtb_false in E.
      destruct (shortest_path_length G m goal) as [len|] eqn:El.
      * cbn [In]. rewrite IH. split.
        -- intros [[= <- <-]|(Hin & Ht & Hd)].
           ++ split; [left; reflexivity|]. split; [exact E|].
              exists len. split; [exact El | reflexivity].
           ++ split; [right; exact Hin | split; assumption].
        -- intros ([->|Hin] & Ht & d & Hd & ->).
           ++ left. rewrite El in Hd. injection Hd as ->. reflexivity.
           ++ right. split; [exact Hin|]. split; [exact Ht|]. exists d. split; [exact Hd | reflexivity].
      * rewrite IH. split.
        -- intros (Hin & Ht & Hd). split; [right; exact Hin | split; assumption].
        -- intros ([->|Hin] & Ht & d & Hd & ->).
           ++ rewrite El in Hd. discriminate.
           ++ split; [exact Hin|]. split; [exact Ht|]. exists d. split; [exact Hd | reflexivity].
Qed.

Lemma min_by_cost_spec l best :
  In (min_by_cost best l) (best :: l) /\
  forall x, In x (best :: l) -> (fst (min_by_cost best l) <= fst x)%nat.
Proof.
  revert best. induction l as [|y l IH]; intros best; cbn [min_by_cost].
  - split; [left; reflexivity|]. intros x [<-|[]]. lia.
  - destruct (IH (if Nat.ltb (fst y) (fst best) then y else best)) as [Hin Hmin].
    split.
    + destruct Hin as [Hin|Hin]; [|right; right; exact Hin].
      rewrite <- Hin. destruct (Nat.ltb (fst y) (fst best));
        [right; left; reflexivity | left; reflexivity].
    + intros x Hx.
      assert (fst (min_by_cost (if Nat.ltb (fst y) (fst best) then y else best) l)
              <= fst (if Nat.ltb (fst y) (fst best) then y else best))%nat as Hle.
      { apply Hmin. left. reflexivity. }
      destruct Hx as [<-|[<-|Hx]].
      * destruct (Nat.ltb_spec (fst y) (fst best)); lia.
      * destruct (Nat.ltb_spec (fst y) (fst best)); lia.
      * apply Hmin. right. exact Hx.
Qed.

(** The outcome of [_plan_new_path] when some neighbour is a candidate. *)
Lemma plan_new_path_commits current goal heading s c cs :
  candidates G current goal heading (neighbors G current) = c :: cs ->
  let best := snd (min_by_cost c cs) in
  exists rest,
    plan_new_path G current goal heading s =
      ({| goal_region := goal_region s;
          current_path := current :: best :: rest |}, None) /\
    (forall p, shortest_path G current goal = Some p ->
               p !! 1%nat <> Some best ->
               shortest_path G best goal = Some (best :: rest)) /\
    (forall p, shortest_path G current goal = Some p ->
               p !! 1%nat = Some best ->
               current :: best :: rest = p).
Proof.
  intros Hc best. unfold plan_new_path. rewrite Hc. fold best.
  destruct (min_by_cost_spec cs c) as [Hin _].
  rewrite <- Hc in Hin.
  destruct (min_by_cost c cs) as [cost b] eqn:Em. cbn [snd] in best. subst best.
  apply candidates_spec in Hin as (Hnb & _ & d & Hd & _).
  destruct (path_through_neighbor current b goal d Hnb Hd) as [p Hp].
  rewrite Hp.
  destruct (path_starts_at_source _ _ _ Hp) as [rest0 ->].
  destruct (path_when_length _ _ _ Hd) as [p' Hp'].
  destruct (path_starts_at_source _ _ _ Hp') as [rest' ->].
  destruct rest0 as [|n rest0].
  - cbn [length Nat.ltb Nat.leb orb]. rewrite Hp'.
    exists rest'. split; [reflexivity|]. split.
    + intros q [= <-] _. reflexivity.
    + intros q [= <-]. cbn. discriminate.
  - cbn [length Nat.ltb Nat.leb orb lookup list_lookup].
    destruct (String.eqb_spec n b) as [->|Hne]; cbn [negb].
    + exists rest0. split; [reflexivity|]. split.
      * intros q [= <-] Hq. cbn in Hq. contradiction.
      * intros q [= <-] _. reflexivity.
    + rewrite Hp'. exists rest'. split; [reflexivity|]. split.
      * intros q [= <-] _. reflexivity.
      * intros q [= <-] Hq. cbn in Hq. congruence.
Qed.

Lemma plan_new_path_clears current goal heading s :
  candidates G current goal heading (neighbors G current) = [] ->
  plan_new_path G current goal heading s =
    ({| goal_region := goal_region s; current_path := [] |}, None).
Proof. intros Hc. unfold plan_new_path. rewrite Hc. reflexivity. Qed.

Lemma candidates_none_pass current goal heading ns :
  (forall n, In n ns -> 135 < turn_to G current heading n) ->
  candidates G current goal heading ns = [].
Proof.
  intros H. destruct (candidates G current goal heading ns) as [|[c n] cs] eqn:E;
    [reflexivity|].
  assert (In (c, n) (candidates G current goal heading ns)) as Hin
    by (rewrite E; left; reflexivity).
  apply candidates_spec in Hin as (Hn & Ht & _).
  specialize (H n Hn). lra.
Qed.

Lemma index_of_head x l : index_of x (x :: l) = Some O.
Proof. cbn [index_of]. rewrite String.eqb_refl. reflexivity. Qed.

Lemma index_of_contains x l i : index_of x l = Some i -> contains x l = true.
Proof.
  unfold contains. revert i.
  induction l as [|y l IH]; intros i; cbn [index_of existsb]; [discriminate|].
  rewrite (String.eqb_sym x y). destruct (String.eqb y x); [reflexivity|].
  destruct (index_of x l) as [j|]; [|discriminate].
  intros _. exact (IH j eq_refl).
Qed.

(** What [update] answers once the plan is made without an exception. *)
Lemma update_after_planning s current goal imu s1 :
  replans G s current goal ->
  plan_new_path G current goal (convert_imu_to_world_yaw imu) s = (s1, None) ->
  (current_path s1 = [] ->
   update G get_direction_vector current imu s =
     (s1, inr (TurnAround (0, 0)))) /\
  (forall best rest,
     current_path s1 = current :: best :: rest ->
     update G get_direction_vector current imu s =
       (s1, inr (Navigating
                   (get_direction_vector (angle_to_neighbor G current best))
                   best (current :: best :: rest)))).
Proof.
  intros (Hg & Hne & Hnode & Hcur & Hpath) Hplan. unfold update.
  rewrite Hg.
  destruct (String.eqb_spec goal "") as [->|_]; [contradiction|].
  rewrite Hnode. cbn [negb].
  destruct (String.eqb_spec current goal) as [->|_]; [contradiction|].
  destruct Hpath as [Hp|[Hp|(i & Hi & Hnext)]].
  - rewrite Hp, Hplan. split.
    + intros ->. reflexivity.
    + intros best rest E. rewrite E, index_of_head. cbn [lookup list_lookup].
      unfold guidance. rewrite E. reflexivity.
  - rewrite Hp. cbn [negb].
    assert (match current_path s with
            | [] => plan_new_path G current goal (convert_imu_to_world_yaw imu) s
            | _ :: _ => plan_new_path G current goal (convert_imu_to_world_yaw imu) s
            end = (s1, None)) as ->
      by (destruct (current_path s); exact Hplan).
    split.
    + intros ->. reflexivity.
    + intros best rest E. rewrite E, index_of_head. cbn [lookup list_lookup].
      unfold guidance. rewrite E. reflexivity.
  - rewrite (index_of_contains _ _ _ Hi). cbn [negb].
    destruct (current_path s) as [|x xs] eqn:Ep; [discriminate Hi|].
    rewrite Ep, Hi, Hnext.
    unfold replan_after_overshoot. rewrite Hplan.
    split.
    + intros ->. reflexivity.
    + intros best rest E. rewrite E. cbn [lookup list_lookup].
      unfold guidance. rewrite E. reflexivity.
Qed.

(** C8.  When [update] re-plans (no cached path, current region off the
    path, or at its end): the second node of the committed path is
    never a neighbour whose turn from the world-frame heading exceeds 135
    degrees; if some neighbour passes the turn filter and has a path to the
    goal, the committed path starts at the current region, its second node
    is a passing neighbour of least (1 + distance to the goal), it is that
    neighbour's shortest path behind the current region whenever the raw
    shortest path's second node differs, and guidance points to it; if no
    neighbour passes, the path is emptied and the status is turn-around
    with a zero direction vector. *)
Theorem planner_forward_constraint (s : t) (current goal : string) (imu : Q) :
  replans G s current goal ->
  let heading := convert_imu_to_world_yaw imu in
  let r := update G get_direction_vector current imu s in
  (forall n, current_path (fst r) !! 1%nat = Some n ->
             In n (neighbors G current) /\ turn_to G current heading n <= 135) /\
  ((exists n d, In n (neighbors G current) /\
                turn_to G current heading n <= 135 /\
                shortest_path_length G n goal = Some d) ->
   exists best d rest,
     In best (neighbors G current) /\
     turn_to G current heading best <= 135 /\
     shortest_path_length G best goal = Some d /\
     (forall n' d', In n' (neighbors G current) ->
                    turn_to G current heading n' <= 135 ->
                    shortest_path_length G n' goal = Some d' ->
                    (1 + d <= 1 + d')%nat) /\
     current_path (fst r) = current :: best :: rest /\
     (forall p, shortest_path G current goal = Some p ->
                p !! 1%nat <> Some best ->
                shortest_path G best goal = Some (best :: rest)) /\
     (forall p, shortest_path G current goal = Some p ->
                p !! 1%nat = Some best ->
                current :: best :: rest = p) /\
     snd r = inr (Navigating
                    (get_direction_vector (angle_to_neighbor G current best))
                    best (current :: best :: rest))) /\
  ((forall n, In n (neighbors G current) -> 135 < turn_to G current heading n) ->
   current_path (fst r) = [] /\ snd r = inr (TurnAround (0, 0))).
Proof.
  intros Hre heading r.
  destruct (candidates G current goal heading (neighbors G current))
    as [|c cs] eqn:Hc.
  - (* nothing to go to: the path is cleared *)
    pose proof (plan_new_path_clears current goal heading s Hc) as Hplan.
    assert (r = ({| goal_region := goal_region s; current_path := [] |},
                 inr (TurnAround (0, 0)))) as ->.
    { subst r.
      apply (proj1 (update_after_planning s current goal imu _ Hre Hplan)).
      reflexivity. }
    cbn [fst snd current_path]. split; [|split].
    + intros n Hn. discriminate Hn.
    + intros (n & d & Hn & Ht & Hd). exfalso.
      assert (In (Datatypes.S d, n)
                (candidates G current goal heading (neighbors G current))) as Hin.
      { apply candidates_spec. split; [exact Hn|]. split; [exact Ht|].
        exists d. split; [exact Hd | reflexivity]. }
      rewrite Hc in Hin. destruct Hin.
    + intros _. split; reflexivity.
  - destruct (plan_new_path_commits current goal heading s c cs Hc)
      as (rest & Hplan & Hsplice & Hraw).
    destruct (min_by_cost_spec cs c) as [Hin Hmin].
    rewrite <- Hc in Hin, Hmin.
    destruct (min_by_cost c cs) as [cost best] eqn:Em. cbn [snd fst] in *.
    apply candidates_spec in Hin as (Hnb & Hturn & d & Hd & ->).
    assert (r = ({| goal_region := goal_region s;
                    current_path := current :: best :: rest |},
                 inr (Navigating
                        (get_direction_vector (angle_to_neighbor G current best))
                        best (current :: best :: rest)))) as ->.
    { subst r.
      apply (proj2 (update_after_planning s current goal imu _ Hre Hplan)).
      reflexivity. }
    cbn [fst snd current_path]. split; [|split].
    + intros n [= <-]. split; assumption.
    + intros _. exists best, d, rest.
      repeat (split; [assumption || reflexivity|]).
      split; [|repeat (split; [assumption || reflexivity|]); reflexivity].
      intros n' d' Hn' Ht' Hd'.
      specialize (Hmin (Datatypes.S d', n')). cbn [fst] in Hmin.
      assert (In (Datatypes.S d', n')
                (candidates G current goal heading (neighbors G current))) as Hc'.
      { apply candidates_spec. split; [exact Hn'|]. split; [exact Ht'|].
        exists d'. split; [exact Hd' | reflexivity]. }
      specialize (Hmin Hc'). lia.
    + intros Hall. specialize (Hall best Hnb). lra.
Qed.

End Planning.

Section PlanningScenario.
Import Navigator.
Import Scenario.

Lemma chain_path_starts_at_source u v p :
  shortest_path chain u v = Some p -> exists rest, p = u :: rest.
Proof.
  cbn [shortest_path chain]. unfold chain_shortest_path. intros H.
  apply find_some in H as [_ H]. unfold joins in H.
  destruct p as [|a p]; cbn [head] in H; [discriminate|].
  destruct (last (a :: p)); [|discriminate].
  apply andb_true_iff in H as [H _]. apply String.eqb_eq in H. subst a.
  exists p. reflexivity.
Qed.

Lemma chain_path_when_length u v d :
  shortest_path_length chain u v = Some d ->
  exists p, shortest_path chain u v = Some p.
Proof.
  cbn [shortest_path_length shortest_path chain].
  destruct (chain_shortest_path u v) as [p|]; [|discriminate].
  intros _. exists p. reflexivity.
Qed.

Lemma chain_path_target u v p :
  chain_shortest_path u v = Some p -> In v ["A"; "B"; "C"]%string.
Proof.
  unfold chain_shortest_path. intros H. apply find_some in H as [Hin H].
  unfold joins in H.
  destruct (head p); [|discriminate].
  destruct (last p) as [b|] eqn:El; [|discriminate].
  apply andb_true_iff in H as [_ H]. apply String.eqb_eq in H. subst b.
  unfold chain_paths in Hin. cbn [In] in Hin.
  repeat (destruct Hin as [<-|Hin];
          [cbn in El; injection El as <-; cbn; tauto|]).
  destruct Hin.
Qed.

Lemma chain_path_through_neighbor u n v d :
  In n (neighbors chain u) ->
  shortest_path_length chain n v = Some d ->
  exists p, shortest_path chain u v = Some p.
Proof.
  intros Hn Hd. apply chain_path_when_length in Hd as [p Hp].
  cbn [shortest_path chain] in Hp. apply chain_path_target in Hp.
  cbn [neighbors chain] in Hn.
  destruct (String.eqb_spec u "A") as [->|_];
    [|destruct (String.eqb_spec u "B") as [->|_];
      [|destruct (String.eqb_spec u "C") as [->|_]; [|destruct Hn]]];
    cbn [In] in Hp;
    destruct Hp as [<-|[<-|[<-|[]]]]; eexists; vm_compute; reflexivity.
Qed.

Lemma planner_forward_constraint_witness :
  In "B"%string (neighbors chain "A") /\
  turn_to chain "A" (convert_imu_to_world_yaw 90) "B" <= 135.
Proof.
  refine (proj1 (planner_forward_constraint chain chain_direction
                   chain_path_starts_at_source chain_path_when_length
                   chain_path_through_neighbor heading_for_C "A" "C" 90 _)
                "B"%string eq_refl).
  unfold replans. cbn.
  split; [reflexivity|]. split; [discriminate|]. split; [reflexivity|].
  split; [discriminate|]. left. reflexivity.
Defined.

(** The spec's chain scenario, evaluated. *)
Example chain_guidance :
  snd (update chain chain_direction "A" 90 heading_for_C) =
  inr (Navigating (0, 1) "B" ["A"; "B"; "C"]%string).
Proof. vm_compute. reflexivity. Qed.

End PlanningScenario.

(** ** Deep copies on the object heap *)

Section DeepCopy.
Import Py.

Lemma copied_mono (m m' : gmap loc loc) v v' :
  m ⊆ m' -> copied m v v' -> copied m' v v'.
Proof.
  intros Hsub. destruct v; cbn [copied]; try exact id.
  intros (l' & Hl & ->). exists l'. split; [|reflexivity].
  exact (lookup_weaken _ _ _ _ Hl Hsub).
Qed.

Lemma obj_copied_mono (m m' : gmap loc loc) o o' :
  m ⊆ m' -> obj_copied m o o' -> obj_copied m' o o'.
Proof.
  intros Hsub. destruct o as [xs|kvs], o' as [ys|kvs']; cbn [obj_copied];
    try exact id.
  - intros H. eapply Forall2_impl; [exact H|].
    intros x y. apply copied_mono. exact Hsub.
  - intros H. eapply Forall2_impl; [exact H|].
    intros x y [Hk Hv]. split; [exact Hk|].
    exact (copied_mono _ _ _ _ Hsub Hv).
Qed.

Lemma copied_fresh h0 st v v' :
  copying h0 st -> copied (c_memo st) v v' ->
  fresh_value (length h0) (length (c_heap st)) v'.
Proof.
  intros Hc. destruct v; cbn [copied]; try (intros ->; exact I).
  intros (l' & Hl & ->). cbn [fresh_value].
  apply (copying_memo _ _ Hc) in Hl. lia.
Qed.

Lemma copied_atom m v : (forall l, v <> VRef l) -> copied m v v.
Proof. destruct v; intros H; try reflexivity. exfalso. exact (H l eq_refl). Qed.

Lemma fresh_value_mono base top top' v :
  (top <= top')%nat -> fresh_value base top v -> fresh_value base top' v.
Proof. intros Ht. destruct v; cbn [fresh_value]; [exact id ..|lia]. Qed.

(** Storing into the copy under construction keeps the copy state. *)
Lemma copying_store h0 st l' o' :
  copying h0 st ->
  (length h0 <= l')%nat ->
  Forall (fresh_value (length h0) (length (c_heap st))) (fields o') ->
  copying h0 {| c_heap := <[l' := o']> (c_heap st); c_memo := c_memo st |}.
Proof.
  intros [Hold Hgrow Hmemo Hnew] Hl' Hfresh. constructor; cbn [c_heap c_memo].
  - intros l Hl. rewrite list_lookup_insert_ne by lia. exact (Hold l Hl).
  - rewrite length_insert. exact Hgrow.
  - intros l l0 Hm. rewrite length_insert. exact (Hmemo l l0 Hm).
  - intros l o Hl Ho. rewrite length_insert. destruct (decide (l = l')) as [->|Hne].
    + apply list_lookup_insert_Some in Ho as [(_ & <- & _)|[Hne _]];
        [exact Hfresh | contradiction].
    + rewrite list_lookup_insert_ne in Ho by congruence. exact (Hnew l o Hl Ho).
Qed.

Lemma copying_enter h0 st l o :
  copying h0 st ->
  (l < length h0)%nat ->
  fields o = [] ->
  copying h0 (enter l o st).
Proof.
  intros [Hold Hgrow Hmemo Hnew] Hl Ho. unfold enter.
  constructor; cbn [c_heap c_memo].
  - intros a Ha. rewrite lookup_app_l by lia. exact (Hold a Ha).
  - rewrite length_app. lia.
  - intros a a' Hm. rewrite length_app. cbn [length].
    apply lookup_insert_Some in Hm as [[<- <-]|[_ Hm]].
    + lia.
    + specialize (Hmemo a a' Hm). lia.
  - intros a oa Ha Hoa. rewrite length_app.
    destruct (decide (a < length (c_heap st))%nat) as [Hlt|Hge].
    + rewrite lookup_app_l in Hoa by exact Hlt.
      eapply Forall_impl; [exact (Hnew a oa Ha Hoa)|].
      intros v. apply fresh_value_mono. lia.
    + rewrite lookup_app_r in Hoa by lia.
      destruct (a - length (c_heap st))%nat; cbn in Hoa; [|discriminate].
      injection Hoa as <-. rewrite Ho. constructor.
Qed.

(** One item copied by [rec] and stored in the copy at [l'], followed by the
    rest of the loop. *)
Lemma loop_step_compose h0 l' x x' st st1 o' st_end :
  copy_step h0 x st x' st1 ->
  (length h0 <= l')%nat -> (l' < length (c_heap st))%nat ->
  loop_step h0 l'
    {| c_heap := <[l' := o']> (c_heap st1); c_memo := c_memo st1 |} st_end ->
  loop_step h0 l' st st_end.
Proof.
  intros (Hc1 & Hsub1 & Hsame1 & Hlen1 & Hcop1 & Hnew1) Hbase Hl'
         (Hc2 & Hsub2 & Hsame2 & Hlen2 & Hnew2).
  cbn [c_heap c_memo] in *. rewrite length_insert in *.
  split; [exact Hc2|]. split; [etrans; eassumption|].
  split; [|split; [lia|]].
  - intros a Ha Hne. rewrite Hsame2 by (lia || exact Hne).
    rewrite list_lookup_insert_ne by congruence. apply Hsame1. exact Ha.
  - intros a a' Hm Hnone.
    destruct (c_memo st1 !! a) as [a1|] eqn:E1.
    + assert (a1 = a') as ->.
      { pose proof (lookup_weaken _ _ _ _ E1 Hsub2) as E. congruence. }
      destruct (Hnew1 a a' E1 Hnone) as (Hge & o & oc & Ho & Hoc & Hcop).
      split; [exact Hge|]. exists o, oc. split; [exact Ho|]. split.
      * pose proof (copying_memo _ _ Hc1 a a' E1) as (_ & _ & Hlt).
        rewrite Hsame2 by lia.
        rewrite list_lookup_insert_ne by lia. exact Hoc.
      * exact (obj_copied_mono _ _ _ _ Hsub2 Hcop).
    + destruct (Hnew2 a a' Hm E1) as (Hge & Hex). split; [lia | exact Hex].
Qed.

Lemma loop_step_refl h0 l' st : copying h0 st -> loop_step h0 l' st st.
Proof.
  intros Hc. split; [exact Hc|]. split; [reflexivity|].
  split; [reflexivity|]. split; [lia|].
  intros a a' H1 H2. congruence.
Qed.

Lemma copy_list_items_spec h0 rec l' (Hrec : copies h0 rec) :
  forall xs done ys st st_end,
    copy_list_items rec l' xs st = Some st_end ->
    copying h0 st ->
    Forall (value_closed (length h0)) xs ->
    (length h0 <= l')%nat ->
    c_heap st !! l' = Some (OList ys) ->
    Forall2 (copied (c_memo st)) done ys ->
    loop_step h0 l' st st_end /\
    exists ys', c_heap st_end !! l' = Some (OList ys') /\
                Forall2 (copied (c_memo st_end)) (done ++ xs) ys'.
Proof.
  induction xs as [|x xs IH]; intros done ys st st_end Hrun Hc Hxs Hbase Hl' Hdone;
    cbn [copy_list_items] in Hrun.
  - injection Hrun as <-. split; [apply loop_step_refl; exact Hc|].
    exists ys. rewrite app_nil_r. split; assumption.
  - destruct (rec x st) as [[x' st1]|] eqn:Ex; [|discriminate].
    apply Forall_cons in Hxs as [Hx Hxs].
    pose proof (Hrec x st x' st1 Ex Hc Hx) as Hstep.
    pose proof Hstep as (Hc1 & Hsub1 & Hsame1 & Hlen1 & Hcop1 & Hnew1).
    assert (l' < length (c_heap st))%nat as Hlt
      by (apply lookup_lt_Some in Hl'; exact Hl').
    assert (c_heap st1 !! l' = Some (OList ys)) as Hl1
      by (rewrite Hsame1 by exact Hlt; exact Hl').
    unfold list_append in Hrun. rewrite Hl1 in Hrun.
    assert (Forall (fresh_value (length h0) (length (c_heap st1)))
              (fields (OList (ys ++ [x'])))) as Hfr.
    { cbn [fields]. apply Forall_app. split.
      - exact (copying_new _ _ Hc1 l' (OList ys) Hbase Hl1).
      - constructor; [|constructor]. exact (copied_fresh h0 st1 x x' Hc1 Hcop1). }
    specialize (IH (done ++ [x]) (ys ++ [x']) _ st_end Hrun).
    destruct IH as [Hloop (ys' & Hys' & Hall)].
    + apply copying_store; assumption.
    + exact Hxs.
    + exact Hbase.
    + cbn [c_heap]. apply list_lookup_insert_eq.
      apply lookup_lt_Some in Hl1. exact Hl1.
    + cbn [c_memo]. apply Forall2_app.
      * eapply Forall2_impl; [exact Hdone|].
        intros a b. apply copied_mono. exact Hsub1.
      * constructor; [exact Hcop1 | constructor].
    + split.
      * exact (loop_step_compose h0 l' x x' st st1 _ st_end Hstep Hbase Hlt Hloop).
      * exists ys'. split; [exact Hys'|]. rewrite <- app_assoc in Hall. exact Hall.
Qed.

Lemma dict_set_fresh {V} (d : list (string * V)) k v :
  ~ In k (map fst d) -> dict_set d k v = d ++ [(k, v)].
Proof.
  induction d as [|[k' v'] d IH]; cbn [dict_set map fst In app]; intros H.
  - reflexivity.
  - destruct (String.eqb_spec k' k) as [->|_]; [exfalso; apply H; left; reflexivity|].
    rewrite IH; [reflexivity|]. intros Hin. apply H. right. exact Hin.
Qed.

Lemma pair_copied_keys m done kvs :
  Forall2 (pair_copied m) done kvs -> map fst kvs = map fst done.
Proof.
  induction 1 as [|a b done kvs [Hk _] _ IH]; cbn [map]; [reflexivity|].
  rewrite IH, Hk. reflexivity.
Qed.

Lemma copy_dict_items_spec h0 rec l' (Hrec : copies h0 rec) :
  forall kvs done kvs' st st_end,
    copy_dict_items rec l' kvs st = Some st_end ->
    copying h0 st ->
    Forall (value_closed (length h0)) (map snd kvs) ->
    NoDup (map fst (done ++ kvs)) ->
    (length h0 <= l')%nat ->
    c_heap st !! l' = Some (ODict kvs') ->
    Forall2 (pair_copied (c_memo st)) done kvs' ->
    loop_step h0 l' st st_end /\
    exists kvs'', c_heap st_end !! l' = Some (ODict kvs'') /\
                  Forall2 (pair_copied (c_memo st_end)) (done ++ kvs) kvs''.
Proof.
  induction kvs as [|[k x] kvs IH];
    intros done kvs' st st_end Hrun Hc Hxs Hnd Hbase Hl' Hdone;
    cbn [copy_dict_items] in Hrun.
  - injection Hrun as <-. split; [apply loop_step_refl; exact Hc|].
    exists kvs'. rewrite app_nil_r. split; assumption.
  - destruct (rec x st) as [[x' st1]|] eqn:Ex; [|discriminate].
    cbn [map snd] in Hxs. apply Forall_cons in Hxs as [Hx Hxs].
    pose proof (Hrec x st x' st1 Ex Hc Hx) as Hstep.
    pose proof Hstep as (Hc1 & Hsub1 & Hsame1 & Hlen1 & Hcop1 & Hnew1).
    assert (l' < length (c_heap st))%nat as Hlt
      by (apply lookup_lt_Some in Hl'; exact Hl').
    assert (c_heap st1 !! l' = Some (ODict kvs')) as Hl1
      by (rewrite Hsame1 by exact Hlt; exact Hl').
    unfold dict_store in Hrun. rewrite Hl1 in Hrun.
    assert (dict_set kvs' k x' = kvs' ++ [(k, x')]) as Hset.
    { apply dict_set_fresh. rewrite (pair_copied_keys _ _ _ Hdone).
      rewrite map_app in Hnd. cbn [map fst] in Hnd.
      apply NoDup_app in Hnd as (_ & Hdisj & _).
      intros Hin. apply (Hdisj k).
      - apply list_elem_of_In. exact Hin.
      - left. }
    rewrite Hset in Hrun.
    assert (Forall (fresh_value (length h0) (length (c_heap st1)))
              (fields (ODict (kvs' ++ [(k, x')])))) as Hfr.
    { cbn [fields]. rewrite map_app. apply Forall_app. split.
      - exact (copying_new _ _ Hc1 l' (ODict kvs') Hbase Hl1).
      - constructor; [|constructor]. exact (copied_fresh h0 st1 x x' Hc1 Hcop1). }
    specialize (IH (done ++ [(k, x)]) (kvs' ++ [(k, x')]) _ st_end Hrun).
    destruct IH as [Hloop (kvs'' & Hk'' & Hall)].
    + apply copying_store; assumption.
    + exact Hxs.
    + rewrite <- app_assoc. exact Hnd.
    + exact Hbase.
    + cbn [c_heap]. apply list_lookup_insert_eq.
      apply lookup_lt_Some in Hl1. exact Hl1.
    + cbn [c_memo]. apply Forall2_app.
      * eapply Forall2_impl; [exact Hdone|].
        intros a b [Hk Hv]. split; [exact Hk|].
        exact (copied_mono _ _ _ _ Hsub1 Hv).
      * constructor; [|constructor]. split; [reflexivity | exact Hcop1].
    + split.
      * exact (loop_step_compose h0 l' x x' st st1 _ st_end Hstep Hbase Hlt Hloop).
      * exists kvs''. split; [exact Hk''|]. rewrite <- app_assoc in Hall. exact Hall.
Qed.

Lemma heap_wf_lookup h0 l o :
  heap_wf h0 -> h0 !! l = Some o -> obj_wf (length h0) o.
Proof.
  unfold heap_wf. rewrite List.Forall_forall. intros Hwf Hl.
  apply Hwf. apply list_elem_of_In. eapply list_elem_of_lookup_2. exact Hl.
Qed.

Lemma copy_step_same h0 v st v' :
  copying h0 st -> copied (c_memo st) v v' -> copy_step h0 v st v' st.
Proof.
  intros Hc Hcop. split; [exact Hc|]. split; [reflexivity|].
  split; [reflexivity|]. split; [lia|]. split; [exact Hcop|].
  intros a a' H1 H2. congruence.
Qed.

(** Entering a container and running its item loop is one copy step. *)
Lemma copy_step_container h0 l o oc st st_end :
  copying h0 st ->
  c_memo st !! l = None ->
  (l < length h0)%nat ->
  h0 !! l = Some o ->
  fields oc = [] ->
  loop_step h0 (length (c_heap st)) (enter l oc st) st_end ->
  (exists o', c_heap st_end !! length (c_heap st) = Some o' /\
              obj_copied (c_memo st_end) o o') ->
  copy_step h0 (VRef l) st (VRef (length (c_heap st))) st_end.
Proof.
  intros Hc Hnone Hl Ho Hoc (Hc2 & Hsub2 & Hsame2 & Hlen2 & Hnew2) (o' & Ho' & Hcop).
  unfold enter in *. cbn [c_heap c_memo] in *. rewrite length_app in *.
  cbn [length] in *.
  assert (c_memo st ⊆ c_memo st_end) as Hsub.
  { etrans; [|exact Hsub2]. apply insert_subseteq. exact Hnone. }
  assert (c_memo st_end !! l = Some (length (c_heap st))) as Hml.
  { eapply lookup_weaken; [|exact Hsub2]. apply lookup_insert_eq. }
  split; [exact Hc2|]. split; [exact Hsub|]. split; [|split; [lia|split]].
  - intros a Ha. rewrite Hsame2 by lia. apply lookup_app_l. exact Ha.
  - cbn [copied]. exists (length (c_heap st)). split; [exact Hml | reflexivity].
  - intros a a' Hm Hn. destruct (decide (a = l)) as [->|Hne].
    + assert (a' = length (c_heap st)) as -> by congruence.
      split; [lia|]. exists o, o'. split; [exact Ho|]. split; assumption.
    + destruct (Hnew2 a a') as (Hge & Hex); [exact Hm | |].
      * rewrite lookup_insert_ne by congruence. exact Hn.
      * split; [lia | exact Hex].
Qed.

Lemma deepcopy_copies h0 (Hwf : heap_wf h0) fuel : copies h0 (deepcopy fuel).
Proof.
  induction fuel as [|fuel IH]; intros v st v' st' Hrun Hc Hv;
    (destruct v as [| | | | | |l];
     [injection Hrun as <- <-; apply copy_step_same; [exact Hc | reflexivity] ..|]);
    cbn [deepcopy] in Hrun;
    (destruct (c_memo st !! l) as [lc|] eqn:Em;
     [injection Hrun as <- <-; apply copy_step_same; [exact Hc|];
      exists lc; split; [exact Em | reflexivity]|]).
  - discriminate.
  - cbn [value_closed] in Hv.
    assert (c_heap st !! l = h0 !! l) as Hsrc by exact (copying_old _ _ Hc l Hv).
    rewrite Hsrc in Hrun.
    destruct (h0 !! l) as [[xs|kvs]|] eqn:Eo; [| |discriminate].
    + destruct (copy_list_items _ _ xs _) as [st_end|] eqn:Eloop; [|discriminate].
      injection Hrun as <- <-.
      destruct (heap_wf_lookup h0 l _ Hwf Eo) as [Hclosed _]. cbn [fields] in Hclosed.
      destruct (copy_list_items_spec h0 _ _ IH xs [] [] _ _ Eloop)
        as [Hloop (ys' & Hys' & Hall)].
      * apply copying_enter; [exact Hc | exact Hv | reflexivity].
      * exact Hclosed.
      * exact (copying_grows _ _ Hc).
      * unfold enter. cbn [c_heap]. rewrite lookup_app_r by lia.
        rewrite Nat.sub_diag. reflexivity.
      * constructor.
      * eapply copy_step_container; try eassumption; [reflexivity|].
        exists (OList ys'). split; [exact Hys' | exact Hall].
    + destruct (copy_dict_items _ _ kvs _) as [st_end|] eqn:Eloop; [|discriminate].
      injection Hrun as <- <-.
      destruct (heap_wf_lookup h0 l _ Hwf Eo) as [Hclosed Hnd]. cbn [fields] in Hclosed.
      destruct (copy_dict_items_spec h0 _ _ IH kvs [] [] _ _ Eloop)
        as [Hloop (kvs'' & Hk'' & Hall)].
      * apply copying_enter; [exact Hc | exact Hv | reflexivity].
      * exact Hclosed.
      * exact Hnd.
      * exact (copying_grows _ _ Hc).
      * unfold enter. cbn [c_heap]. rewrite lookup_app_r by lia.
        rewrite Nat.sub_diag. reflexivity.
      * constructor.
      * eapply copy_step_container; try eassumption; [reflexivity|].
        exists (ODict kvs''). split; [exact Hk'' | exact Hall].
Qed.

(** *** The copy terminates: one unit of fuel per object not yet copied *)

Lemma memo_room h0 st l :
  copying h0 st -> (l < length h0)%nat -> c_memo st !! l = None ->
  (size (c_memo st) < length h0)%nat.
Proof.
  intros Hc Hl Hnone.
  rewrite <- (size_dom (D := gset nat) (c_memo st)).
  rewrite <- (size_set_seq (C := gset nat) 0 (length h0)).
  apply subset_size. split.
  - intros a Ha. apply elem_of_dom in Ha as [a' Ha].
    apply (copying_memo _ _ Hc) in Ha. apply elem_of_set_seq. lia.
  - intros Hsub. apply not_elem_of_dom in Hnone. apply Hnone.
    apply Hsub. apply elem_of_set_seq. lia.
Qed.

Lemma copying_list_append h0 st l' x' :
  copying h0 st -> (length h0 <= l')%nat ->
  fresh_value (length h0) (length (c_heap st)) x' ->
  copying h0 {| c_heap := list_append l' x' (c_heap st); c_memo := c_memo st |}.
Proof.
  intros Hc Hl' Hx. unfold list_append.
  destruct (c_heap st !! l') as [[ys|kvs]|] eqn:E; try (destruct st; exact Hc).
  apply copying_store; [exact Hc | exact Hl' |].
  cbn [fields]. apply Forall_app. split.
  - exact (copying_new _ _ Hc l' _ Hl' E).
  - constructor; [exact Hx | constructor].
Qed.

Lemma fresh_dict_set base top kvs k x :
  Forall (fresh_value base top) (map snd kvs) -> fresh_value base top x ->
  Forall (fresh_value base top) (map snd (dict_set kvs k x)).
Proof.
  intros Hk Hx. induction kvs as [|[k' v'] kvs IH]; cbn [dict_set map snd].
  - constructor; [exact Hx | constructor].
  - cbn [map snd] in Hk. apply Forall_cons in Hk as [Hv Hk].
    destruct (String.eqb k' k); cbn [map snd]; constructor;
      [exact Hx | exact Hk | exact Hv | exact (IH Hk)].
Qed.

Lemma copying_dict_store h0 st l' k x' :
  copying h0 st -> (length h0 <= l')%nat ->
  fresh_value (length h0) (length (c_heap st)) x' ->
  copying h0 {| c_heap := dict_store l' k x' (c_heap st); c_memo := c_memo st |}.
Proof.
  intros Hc Hl' Hx. unfold dict_store.
  destruct (c_heap st !! l') as [[ys|kvs]|] eqn:E; try (destruct st; exact Hc).
  apply copying_store; [exact Hc | exact Hl' |].
  cbn [fields]. apply fresh_dict_set; [|exact Hx].
  exact (copying_new _ _ Hc l' _ Hl' E).
Qed.

Lemma copy_list_items_total h0 rec l' n :
  copies h0 rec -> answers h0 n rec -> (length h0 <= l')%nat ->
  forall xs st,
    copying h0 st -> Forall (value_closed (length h0)) xs ->
    (length h0 - size (c_memo st) <= n)%nat ->
    is_Some (copy_list_items rec l' xs st).
Proof.
  intros Hrec Hans Hl'.
  induction xs as [|x xs IH]; intros st Hc Hxs Hn; cbn [copy_list_items].
  - eexists. reflexivity.
  - apply Forall_cons in Hxs as [Hx Hxs].
    destruct (Hans x st Hc Hx Hn) as [[x' st1] Ex]. rewrite Ex.
    destruct (Hrec x st x' st1 Ex Hc Hx) as (Hc1 & Hsub1 & _ & _ & Hcop1 & _).
    apply IH; [|exact Hxs|].
    + apply copying_list_append; [exact Hc1 | exact Hl' |].
      exact (copied_fresh h0 st1 x x' Hc1 Hcop1).
    + cbn [c_memo]. pose proof (map_subseteq_size _ _ Hsub1). lia.
Qed.

Lemma copy_dict_items_total h0 rec l' n :
  copies h0 rec -> answers h0 n rec -> (length h0 <= l')%nat ->
  forall kvs st,
    copying h0 st -> Forall (value_closed (length h0)) (map snd kvs) ->
    (length h0 - size (c_memo st) <= n)%nat ->
    is_Some (copy_dict_items rec l' kvs st).
Proof.
  intros Hrec Hans Hl'.
  induction kvs as [|[k x] kvs IH]; intros st Hc Hxs Hn; cbn [copy_dict_items].
  - eexists. reflexivity.
  - cbn [map snd] in Hxs. apply Forall_cons in Hxs as [Hx Hxs].
    destruct (Hans x st Hc Hx Hn) as [[x' st1] Ex]. rewrite Ex.
    destruct (Hrec x st x' st1 Ex Hc Hx) as (Hc1 & Hsub1 & _ & _ & Hcop1 & _).
    apply IH; [|exact Hxs|].
    + apply copying_dict_store; [exact Hc1 | exact Hl' |].
      exact (copied_fresh h0 st1 x x' Hc1 Hcop1).
    + cbn [c_memo]. pose proof (map_subseteq_size _ _ Hsub1). lia.
Qed.

Lemma deepcopy_answers h0 (Hwf : heap_wf h0) fuel : answers h0 fuel (deepcopy fuel).
Proof.
  induction fuel as [|fuel IH]; intros v st Hc Hv Hn;
    (destruct v as [| | | | | |l]; [eexists; reflexivity ..|]);
    cbn [deepcopy];
    (destruct (c_memo st !! l) as [lc|] eqn:Em; [eexists; reflexivity|]);
    cbn [value_closed] in Hv;
    pose proof (memo_room h0 st l Hc Hv Em) as Hroom.
  - lia.
  - rewrite (copying_old _ _ Hc l Hv).
    destruct (lookup_lt_is_Some_2 h0 l Hv) as [o Eo]. rewrite Eo.
    destruct (heap_wf_lookup h0 l o Hwf Eo) as [Hclosed _].
    assert (length h0 - size (c_memo (enter l (OList []) st)) <= fuel)%nat as Hn'.
    { unfold enter. cbn [c_memo]. rewrite map_size_insert_None by exact Em. lia. }
    destruct o as [xs|kvs]; cbn [fields] in Hclosed.
    + destruct (copy_list_items_total h0 (deepcopy fuel) (length (c_heap st)) fuel
                  (deepcopy_copies h0 Hwf fuel) IH (copying_grows _ _ Hc) xs
                  (enter l (OList []) st)) as [st_end ->].
      * apply copying_enter; [exact Hc | exact Hv | reflexivity].
      * exact Hclosed.
      * exact Hn'.
      * eexists. reflexivity.
    + destruct (copy_dict_items_total h0 (deepcopy fuel) (length (c_heap st)) fuel
                  (deepcopy_copies h0 Hwf fuel) IH (copying_grows _ _ Hc) kvs
                  (enter l (ODict []) st)) as [st_end ->].
      * apply copying_enter; [exact Hc | exact Hv | reflexivity].
      * exact Hclosed.
      * exact Hn'.
      * eexists. reflexivity.
Qed.

Lemma copying_start h0 : copying h0 {| c_heap := h0; c_memo := ∅ |}.
Proof.
  constructor; cbn [c_heap c_memo].
  - reflexivity.
  - lia.
  - intros l l' H. rewrite lookup_empty in H. discriminate.
  - intros l o Hl Ho. apply lookup_lt_Some in Ho. lia.
Qed.

(** Everything reachable from an object of the copy is an object of the copy. *)
Lemma reach_fresh h0 st l l' :
  copying h0 st ->
  (length h0 <= l)%nat /\ (l < length (c_heap st))%nat ->
  reach (c_heap st) l l' ->
  (length h0 <= l')%nat /\ (l' < length (c_heap st))%nat.
Proof.
  intros Hc Hl Hreach. induction Hreach as [l|l o l1 l2 Ho Hin _ IH]; [exact Hl|].
  apply IH. pose proof (copying_new _ _ Hc l o (proj1 Hl) Ho) as Hf.
  rewrite List.Forall_forall in Hf. exact (Hf _ Hin).
Qed.

End DeepCopy.

(** ** Shared State: [put] and [snapshot] *)

Section SharedStateFacts.
Import Py.
Import SharedState.

Lemma dict_get_set_eq {V} (d : list (string * V)) k v :
  dict_get (dict_set d k v) k = Some v.
Proof.
  induction d as [|[k' v'] d IH]; cbn [dict_set dict_get].
  - rewrite String.eqb_refl. reflexivity.
  - destruct (String.eqb_spec k' k) as [->|Hne]; cbn [dict_get].
    + rewrite String.eqb_refl. reflexivity.
    + destruct (String.eqb_spec k' k); [contradiction | exact IH].
Qed.

Lemma dict_get_set_ne {V} (d : list (string * V)) k k' v :
  k <> k' -> dict_get (dict_set d k v) k' = dict_get d k'.
Proof.
  intros Hne. induction d as [|[k0 v0] d IH]; cbn [dict_set dict_get].
  - destruct (String.eqb_spec k k'); [contradiction | reflexivity].
  - destruct (String.eqb_spec k0 k) as [->|Hk0]; cbn [dict_get].
    + destruct (String.eqb_spec k k'); [contradiction | reflexivity].
    + destruct (String.eqb k0 k'); [reflexivity | exact IH].
Qed.

Lemma dict_get_map_values {V W} (f : V -> W) (d : list (string * V)) k :
  dict_get (map (fun p => (fst p, f (snd p))) d) k = option_map f (dict_get d k).
Proof.
  induction d as [|[k' v'] d IH]; cbn [map dict_get fst snd]; [reflexivity|].
  destruct (String.eqb k' k); [reflexivity | exact IH].
Qed.

Lemma dict_set_keys {V} (d : list (string * V)) k v :
  map fst (dict_set d k v) =
  if existsb (String.eqb k) (map fst d) then map fst d else map fst d ++ [k].
Proof.
  induction d as [|[k' v'] d IH]; cbn [dict_set map fst existsb app].
  - reflexivity.
  - rewrite (String.eqb_sym k k').
    destruct (String.eqb k' k); cbn [map fst orb]; [reflexivity|].
    rewrite IH. destruct (existsb (String.eqb k) (map fst d)); reflexivity.
Qed.

Lemma dict_set_nodup {V} (d : list (string * V)) k v :
  NoDup (map fst d) -> NoDup (map fst (dict_set d k v)).
Proof.
  intros H. rewrite dict_set_keys.
  destruct (existsb (String.eqb k) (map fst d)) eqn:E; [exact H|].
  apply NoDup_app. split; [exact H|]. split; [|apply NoDup_singleton].
  intros x Hx Hx'. apply list_elem_of_singleton in Hx'. subst x.
  assert (existsb (String.eqb k) (map fst d) = true); [|congruence].
  apply existsb_exists. exists k. split; [|apply String.eqb_refl].
  apply list_elem_of_In. exact Hx.
Qed.

Lemma dict_set_values {V} (P : V -> Prop) (d : list (string * V)) k v :
  Forall P (map snd d) -> P v -> Forall P (map snd (dict_set d k v)).
Proof.
  intros Hd Hv. induction d as [|[k' v'] d IH]; cbn [dict_set map snd].
  - constructor; [exact Hv | constructor].
  - cbn [map snd] in Hd. apply Forall_cons in Hd as [Hv' Hd].
    destruct (String.eqb k' k); cbn [map snd]; constructor;
      [exact Hv | exact Hd | exact Hv' | exact (IH Hd)].
Qed.

Lemma value_closed_mono n n' v :
  (n <= n')%nat -> value_closed n v -> value_closed n' v.
Proof. intros Hn. destruct v; cbn [value_closed]; [exact id ..|lia]. Qed.

Lemma obj_wf_mono n n' o : (n <= n')%nat -> obj_wf n o -> obj_wf n' o.
Proof.
  intros Hn [Hc Hk]. split; [|exact Hk].
  eapply Forall_impl; [exact Hc|]. intros v. apply value_closed_mono. exact Hn.
Qed.

Lemma coerce_closed n v : value_closed n v -> value_closed n (coerce v).
Proof. destruct v as [| [|] | | | | |]; cbn; auto. Qed.

Lemma safe_entry_wf n now kv :
  Forall (value_closed n) (map snd kv) -> NoDup (map fst kv) ->
  obj_wf n (ODict (safe_entry now kv)).
Proof.
  intros Hc Hk. unfold safe_entry. split; cbn [fields].
  - apply dict_set_values; [|exact I].
    rewrite map_map. cbn [snd].
    rewrite List.Forall_forall in Hc |- *. intros v Hv.
    apply in_map_iff in Hv as (p & <- & Hp). apply coerce_closed.
    apply Hc. apply in_map. exact Hp.
  - apply dict_set_nodup. rewrite map_map. cbn [fst]. exact Hk.
Qed.

Lemma put_spec s now who kv :
  wf s ->
  Forall (value_closed (length (heap s))) (map snd kv) ->
  NoDup (map fst kv) ->
  exists s1,
    put now who kv s = Some s1 /\ wf s1 /\ data s1 = data s /\
    entry_of s1 who = Some (safe_entry now kv).
Proof.
  intros [Hwf [d Hd]] Hc Hk. unfold put.
  pose proof (lookup_lt_Some _ _ _ Hd) as Hlt.
  rewrite lookup_app_l by exact Hlt. rewrite Hd.
  eexists. split; [reflexivity|].
  assert (length (<[data s := ODict (dict_set d who (VRef (length (heap s))))]>
                    (heap s ++ [ODict (safe_entry now kv)]))
          = Datatypes.S (length (heap s))) as Hlen.
  { rewrite length_insert, length_app. cbn [length]. lia. }
  split; [|split; [reflexivity|]].
  - split; cbn [heap data].
    + unfold heap_wf. rewrite Hlen. apply Forall_insert.
      * apply Forall_app. split.
        -- eapply Forall_impl; [exact Hwf|]. intros o. apply obj_wf_mono. lia.
        -- constructor; [|constructor].
           apply (obj_wf_mono (length (heap s))); [lia|].
           apply safe_entry_wf; assumption.
      * destruct (heap_wf_lookup _ _ _ Hwf Hd) as [Hdc Hdk]. cbn [fields] in Hdc.
        split; cbn [fields].
        -- apply dict_set_values; [|cbn; lia].
           eapply Forall_impl; [exact Hdc|]. intros v. apply value_closed_mono. lia.
        -- apply dict_set_nodup. exact Hdk.
    + eexists. apply list_lookup_insert_eq. rewrite length_app. lia.
  - unfold entry_of. cbn [heap data].
    rewrite list_lookup_insert_eq by (rewrite length_app; lia).
    rewrite dict_get_set_eq.
    rewrite list_lookup_insert_ne by lia.
    rewrite lookup_app_r by lia. rewrite Nat.sub_diag. reflexivity.
Qed.

Lemma snapshot_spec s :
  wf s ->
  exists root s2 m,
    snapshot s = Some (root, s2) /\ data s2 = data s /\
    copying (heap s) {| c_heap := heap s2; c_memo := m |} /\
    m !! data s = Some root /\
    (forall a a', m !! a = Some a' ->
       exists o o', heap s !! a = Some o /\ heap s2 !! a' = Some o' /\
                    obj_copied m o o').
Proof.
  intros [Hwf [d Hd]]. unfold snapshot.
  pose proof (lookup_lt_Some _ _ _ Hd) as Hlt.
  destruct (deepcopy_answers (heap s) Hwf (Datatypes.S (length (heap s)))
              (VRef (data s)) {| c_heap := heap s; c_memo := ∅ |})
    as [[v' st'] Hrun].
  { apply copying_start. }
  { exact Hlt. }
  { cbn [c_memo]. lia. }
  rewrite Hrun.
  destruct (deepcopy_copies (heap s) Hwf _ _ _ _ _ Hrun (copying_start _) Hlt)
    as (Hc & _ & _ & _ & Hcop & Hnew).
  cbn [copied] in Hcop. destruct Hcop as (root & Hroot & ->).
  exists root, {| heap := c_heap st'; data := data s |}, (c_memo st').
  split; [reflexivity|]. split; [reflexivity|]. cbn [heap].
  split; [destruct st'; exact Hc|]. split; [exact Hroot|].
  intros a a' Ha. apply (Hnew a a' Ha). apply lookup_empty.
Qed.

Lemma put_keeps_fresh_objects s now who kv s3 l :
  put now who kv s = Some s3 ->
  (data s < l)%nat -> (l < length (heap s))%nat ->
  heap s3 !! l = heap s !! l.
Proof.
  unfold put. intros Hput Hd Hl.
  destruct ((heap s ++ [ODict (safe_entry now kv)]) !! data s) as [[xs|d]|];
    try discriminate.
  injection Hput as <-. cbn [heap].
  rewrite list_lookup_insert_ne by lia. apply lookup_app_l. exact Hl.
Qed.

(** C10.  [put(who, **kv)] stores for [who] a new entry in which every int,
    bool or float value has become a float, every list or dict value is the
    very same object, every other value has become its string form, and
    ['ts'] is the write time, whatever the caller passed under that key.
    [snapshot()] returns a deep copy of the whole map: an isomorphic graph
    of new objects, none reachable from it being an object of the stored
    state, so that no write into the snapshot changes a stored object and
    no later [put] changes an object of the snapshot. *)
Theorem put_coerces_snapshot_isolates
  (s : t) (now : Q) (who : string) (kv : list (string * value)) :
  wf s ->
  Forall (value_closed (length (heap s))) (map snd kv) ->
  NoDup (map fst kv) ->
  (exists s1, put now who kv s = Some s1 /\ wf s1 /\
              entry_of s1 who = Some (safe_entry now kv)) /\
  dict_get (safe_entry now kv) "ts" = Some (VFloat now) /\
  (forall k, k <> "ts"%string ->
     dict_get (safe_entry now kv) k = option_map coerce (dict_get kv k)) /\
  ((forall b, coerce (VBool b) = VFloat (if b then 1 else 0)) /\
   (forall z, coerce (VInt z) = VFloat (inject_Z z)) /\
   (forall q, coerce (VFloat q) = VFloat q) /\
   (forall l, coerce (VRef l) = VRef l) /\
   coerce VNone = VStr "None" /\
   (forall str, coerce (VStr str) = VStr str) /\
   (forall str, coerce (VObj str) = VStr str)) /\
  (exists root s2,
     snapshot s = Some (root, s2) /\ data s2 = data s /\
     (forall a, (a < length (heap s))%nat -> heap s2 !! a = heap s !! a) /\
     (exists m : gmap loc loc,
        m !! data s = Some root /\
        forall a a', m !! a = Some a' ->
          exists o o', heap s !! a = Some o /\ heap s2 !! a' = Some o' /\
                       obj_copied m o o') /\
     (forall l, reach (heap s2) root l -> (length (heap s) <= l)%nat) /\
     (forall l o a, reach (heap s2) root l -> (a < length (heap s))%nat ->
                    <[l := o]> (heap s2) !! a = heap s !! a) /\
     (forall now' who' kv' s3 l,
        put now' who' kv' s2 = Some s3 -> reach (heap s2) root l ->
        heap s3 !! l = heap s2 !! l)).
Proof.
  intros Hwf Hc Hk.
  split.
  { destruct (put_spec s now who kv Hwf Hc Hk) as (s1 & H1 & H2 & _ & H3).
    exists s1. split; [exact H1|]. split; assumption. }
  split; [unfold safe_entry; apply dict_get_set_eq|].
  split.
  { intros k Hne. unfold safe_entry.
    rewrite dict_get_set_ne by congruence. apply dict_get_map_values. }
  split; [repeat split|].
  destruct (snapshot_spec s Hwf) as (root & s2 & m & Hsnap & Hdata & Hcopy & Hroot & Hiso).
  exists root, s2. split; [exact Hsnap|]. split; [exact Hdata|].
  pose proof (copying_memo _ _ Hcopy _ _ Hroot) as (Hd & Hr1 & Hr2).
  cbn [c_heap c_memo] in *.
  assert (forall l, reach (heap s2) root l ->
                    (length (heap s) <= l)%nat /\ (l < length (heap s2))%nat) as Hfresh.
  { intros l Hl. apply (reach_fresh _ _ root l Hcopy); [cbn [c_heap]; lia | exact Hl]. }
  split; [exact (copying_old _ _ Hcopy)|].
  split; [exists m; split; assumption|].
  split; [intros l Hl; apply (Hfresh l Hl)|].
  split.
  - intros l o a Hl Ha. destruct (Hfresh l Hl) as [Hge _].
    rewrite list_lookup_insert_ne by lia. exact (copying_old _ _ Hcopy a Ha).
  - intros now' who' kv' s3 l Hput Hl. destruct (Hfresh l Hl) as [Hge Hlt].
    apply (put_keeps_fresh_objects s2 now' who' kv' s3 l Hput); [|exact Hlt].
    rewrite Hdata. lia.
Qed.

End SharedStateFacts.

Section SharedStateScenario.
Import Py.
Import SharedState.
Import Scenario.

Lemma state_example_wf : wf state_example.
Proof.
  assert (forall l : list string, bool_decide (NoDup l) = true -> NoDup l) as Hnd.
  { intros l H. apply bool_decide_eq_true in H. exact H. }
  split.
  - unfold heap_wf, state_example. cbn [heap length].
    apply Forall_cons_2; [|apply Forall_cons_2; [|apply Forall_cons_2; [|apply Forall_nil_2]]].
    + split; [|apply Hnd; reflexivity].
      cbn [fields map snd]. apply Forall_cons_2; [cbn; lia | apply Forall_nil_2].
    + split; [|exact I].
      cbn [fields]. apply Forall_cons_2; [exact I|].
      apply Forall_cons_2; [cbn; lia | apply Forall_nil_2].
    + split; [|apply Hnd; reflexivity].
      cbn [fields map snd]. apply Forall_cons_2; [cbn; lia|].
      apply Forall_cons_2; [exact I | apply Forall_nil_2].
  - eexists. reflexivity.
Defined.

Lemma put_coerces_snapshot_isolates_witness :
  (exists s1, put 18 "vpr" kv_example state_example = Some s1 /\ wf s1 /\
              entry_of s1 "vpr" = Some (safe_entry 18 kv_example)) /\
  dict_get (safe_entry 18 kv_example) "ts" = Some (VFloat 18).
Proof.
  pose proof (put_coerces_snapshot_isolates state_example 18 "vpr" kv_example
                state_example_wf) as H.
  refine ((fun H' => conj (proj1 H') (proj1 (proj2 H'))) (H _ _)).
  - unfold kv_example, state_example. cbn [map snd heap length].
    apply Forall_cons_2; [exact I|]. apply Forall_cons_2; [cbn; lia|].
    repeat (apply Forall_cons_2; [exact I|]). apply Forall_nil_2.
  - apply (proj1 (bool_decide_eq_true _)). reflexivity.
Defined.

(** The stored entry and the snapshot of the example, evaluated. *)
Example put_example :
  option_map (fun s1 => entry_of s1 "vpr") (put 18 "vpr" kv_example state_example)
  = Some (Some [("status"%string, VStr "ok"); ("top_regions"%string, VRef 1%nat);
                ("frames"%string, VFloat (inject_Z 3)); ("ready"%string, VFloat 1);
                ("ts"%string, VFloat 18); ("last_error"%string, VStr "None")]).
Proof. vm_compute. reflexivity. Qed.

Example snapshot_example :
  snapshot state_example =
  Some (3%nat,
        {| heap := heap state_example ++
             [ODict [("vpr"%string, VRef 4%nat)];
              ODict [("top_regions"%string, VRef 5%nat); ("ts"%string, VFloat 17)];
              OList [VObj "('r_01', 0.9)"; VRef 5%nat]];
           data := 0%nat |}).
Proof. vm_compute. reflexivity. Qed.

End SharedStateScenario.

(** * Further properties of the code *)

(** ** Actuator pulses *)

Section Pulses.
Import PWM.

Lemma py_int_floor (x : Q) : (0 <= Qnum x)%Z -> py_int x = Qfloor x.
Proof.
  intros H. destruct x as [n d]. unfold py_int, Qfloor. cbn [Qnum Qden] in *.
  apply Z.quot_div_nonneg; lia.
Qed.

Lemma py_int_ceiling (x : Q) : (Qnum x <= 0)%Z -> py_int x = Qceiling x.
Proof.
  intros H. destruct x as [n d].
  unfold py_int, Qceiling, Qfloor, Qopp. cbn [Qnum Qden] in *.
  rewrite <- (Z.opp_involutive n) at 1.
  rewrite Z.quot_opp_l by lia. rewrite Z.quot_div_nonneg by lia. reflexivity.
Qed.

Lemma Qnum_sign (x : Q) : (0 <= Qnum x)%Z <-> 0 <= x.
Proof.
  destruct x as [n d]. unfold Qle. cbn [Qnum Qden]. lia.
Qed.

Lemma py_int_mono (x y : Q) : x <= y -> (py_int x <= py_int y)%Z.
Proof.
  intros Hxy.
  destruct (Z_le_gt_dec 0 (Qnum x)) as [Hx|Hx].
  - assert (0 <= Qnum y)%Z as Hy.
    { apply Qnum_sign. apply Qnum_sign in Hx. lra. }
    rewrite !py_int_floor by assumption. apply Qfloor_resp_le. exact Hxy.
  - destruct (Z_le_gt_dec 0 (Qnum y)) as [Hy|Hy].
    + rewrite (py_int_ceiling x) by lia. rewrite (py_int_floor y) by exact Hy.
      assert (Qceiling x <= 0)%Z.
      { change 0%Z with (Qceiling 0). apply Qceiling_resp_le.
        destruct x as [n d]. unfold Qle. cbn [Qnum Qden] in *. lia. }
      assert (0 <= Qfloor y)%Z.
      { change 0%Z with (Qfloor 0). apply Qfloor_resp_le.
        apply Qnum_sign. exact Hy. }
      lia.
    + rewrite !py_int_ceiling by lia. apply Qceiling_resp_le. exact Hxy.
Qed.

Lemma py_int_inject (z : Z) : py_int (inject_Z z) = z.
Proof. unfold py_int, inject_Z. cbn [Qnum Qden]. apply Z.quot_1_r. Qed.

Lemma py_int_within (a b : Z) (x : Q) :
  inject_Z a <= x -> x <= inject_Z b -> (a <= py_int x <= b)%Z.
Proof.
  intros Ha Hb. split.
  - rewrite <- (py_int_inject a). apply py_int_mono. exact Ha.
  - rewrite <- (py_int_inject b). apply py_int_mono. exact Hb.
Qed.

Lemma py_min_spec (a b : Q) :
  (py_min a b == a \/ py_min a b == b) /\ py_min a b <= a /\ py_min a b <= b.
Proof.
  unfold py_min. destruct (Qgtb a b) eqn:E.
  - apply Qgtb_true in E. split; [right; reflexivity|]. split; lra.
  - apply Qgtb_false in E. split; [left; reflexivity|]. split; lra.
Qed.

Lemma py_min_mono (a b b' : Q) : b <= b' -> py_min a b <= py_min a b'.
Proof.
  intros H. unfold py_min.
  destruct (Qgtb a b) eqn:E1, (Qgtb a b') eqn:E2;
    try apply Qgtb_true in E1; try apply Qgtb_false in E1;
    try apply Qgtb_true in E2; try apply Qgtb_false in E2; lra.
Qed.

(** The value [1575 + val * 25] that [set_controls] truncates for a positive
    throttle. *)
Lemma throttle_pulse_within (throttle : Q) :
  0 < throttle ->
  1575 <= inject_Z THR_START_US
          + py_min 1 ((throttle - THR_DEADBAND) / (1 - THR_DEADBAND))
            * inject_Z THR_RANGE_US /\
  inject_Z THR_START_US
    + py_min 1 ((throttle - THR_DEADBAND) / (1 - THR_DEADBAND))
      * inject_Z THR_RANGE_US <= 1600.
Proof.
  intros Hpos.
  assert ((throttle - THR_DEADBAND) / (1 - THR_DEADBAND) == throttle) as Hv.
  { unfold THR_DEADBAND. field. }
  set (v := py_min 1 ((throttle - THR_DEADBAND) / (1 - THR_DEADBAND))).
  assert (0 < v /\ v <= 1) as [Hv0 Hv1].
  { subst v. destruct (py_min_spec 1 ((throttle - THR_DEADBAND) / (1 - THR_DEADBAND)))
      as ([E|E] & H1 & H2); rewrite E; rewrite ?Hv; split; lra. }
  change (inject_Z THR_START_US) with 1575.
  change (inject_Z THR_RANGE_US) with 25.
  split; lra.
Qed.

Lemma set_controls_throttle (throttle steering : Q) (p : t) :
  (throttle <= 0 ->
   throttle_us (set_controls throttle steering p) = THROTTLE_NEUTRAL) /\
  (0 < throttle ->
   (THR_START_US <= throttle_us (set_controls throttle steering p)
    <= THR_MAX_US)%Z).
Proof.
  unfold set_controls. cbn [throttle_us].
  destruct (Qle_bool throttle THR_DEADBAND) eqn:E.
  - apply Qle_bool_iff in E. unfold THR_DEADBAND in E.
    split; [reflexivity|]. intros H. lra.
  - assert (0 < throttle) as Hpos.
    { apply Qnot_le_lt. intros H. apply Qle_bool_iff in H.
      unfold THR_DEADBAND in E. congruence. }
    destruct (throttle_pulse_within throttle Hpos) as [Hlo Hhi].
    split; [intros H; lra|]. intros _.
    exact (py_int_within 1575 1600 _ Hlo Hhi).
Qed.

Lemma set_controls_never_brakes (throttle steering : Q) (p : t) :
  (THROTTLE_NEUTRAL <= throttle_us (set_controls throttle steering p))%Z.
Proof.
  destruct (set_controls_throttle throttle steering p) as [Hn Hp].
  destruct (Qlt_le_dec 0 throttle) as [H|H].
  - specialize (Hp H). unfold THR_START_US, THROTTLE_NEUTRAL in *. lia.
  - rewrite (Hn H). lia.
Qed.

(** X1.  Whatever the command, [set_controls] leaves the steering pulse
    within [1000, 2000] and the throttle pulse either neutral (1500, for a
    throttle of zero or less) or within [1575, 1600]: it never writes the
    brake pulse and never a reverse pulse. *)
Theorem set_controls_pulse_range (throttle steering : Q) (p : t) :
  let p' := set_controls throttle steering p in
  (STEER_MIN <= steer_us p' <= STEER_MAX)%Z /\
  (throttle <= 0 -> throttle_us p' = THROTTLE_NEUTRAL) /\
  (0 < throttle -> (THR_START_US <= throttle_us p' <= THR_MAX_US)%Z) /\
  throttle_us p' <> THROTTLE_BRAKE_US /\
  (THROTTLE_NEUTRAL <= throttle_us p')%Z.
Proof.
  intros p'. subst p'.
  destruct (set_controls_throttle throttle steering p) as [Hn Hp].
  pose proof (set_controls_never_brakes throttle steering p) as Hge.
  split; [unfold set_controls; cbn [steer_us]; unfold STEER_MIN, STEER_MAX; lia|].
  split; [exact Hn|]. split; [exact Hp|]. split; [|exact Hge].
  unfold THROTTLE_NEUTRAL, THROTTLE_BRAKE_US in *. lia.
Qed.

Lemma set_controls_pulse_range_witness :
  (THR_START_US <= throttle_us (set_controls 0.5 (-3)
                                  {| throttle_us := 1000; steer_us := 1500 |})
   <= THR_MAX_US)%Z.
Proof.
  refine (proj1 (proj2 (proj2 (set_controls_pulse_range 0.5 (-3)
                   {| throttle_us := 1000; steer_us := 1500 |}))) _).
  reflexivity.
Defined.

(** X2.  More throttle never gives a shorter throttle pulse and more
    steering never a shorter steering pulse; a zero command gives the
    neutral pulse pair (1500, 1500) and the extreme steerings give the end
    stops. *)
Theorem set_controls_monotone (t1 t2 s1 s2 : Q) (p q : t) :
  t1 <= t2 -> s1 <= s2 ->
  (throttle_us (set_controls t1 s1 p) <= throttle_us (set_controls t2 s2 q))%Z /\
  (steer_us (set_controls t1 s1 p) <= steer_us (set_controls t2 s2 q))%Z /\
  set_controls 0 0 p = {| throttle_us := 1500; steer_us := 1500 |} /\
  steer_us (set_controls t1 (-1) p) = STEER_MIN /\
  steer_us (set_controls t1 1 p) = STEER_MAX.
Proof.
  intros Ht Hs. split; [|split; [|repeat split]].
  - destruct (Qlt_le_dec 0 t1) as [H1|H1].
    + assert (0 < t2) as H2 by lra.
      unfold set_controls. cbn [throttle_us].
      assert (Qle_bool t1 THR_DEADBAND = false) as ->.
      { destruct (Qle_bool t1 THR_DEADBAND) eqn:E; [|reflexivity].
        apply Qle_bool_iff in E. unfold THR_DEADBAND in E. lra. }
      assert (Qle_bool t2 THR_DEADBAND = false) as ->.
      { destruct (Qle_bool t2 THR_DEADBAND) eqn:E; [|reflexivity].
        apply Qle_bool_iff in E. unfold THR_DEADBAND in E. lra. }
      apply py_int_mono.
      assert (py_min 1 ((t1 - THR_DEADBAND) / (1 - THR_DEADBAND)) <=
              py_min 1 ((t2 - THR_DEADBAND) / (1 - THR_DEADBAND))) as Hm.
      { apply py_min_mono. unfold THR_DEADBAND.
        assert ((t1 - 0) / (1 - 0) == t1) as -> by field.
        assert ((t2 - 0) / (1 - 0) == t2) as -> by field. exact Ht. }
      change (inject_Z THR_RANGE_US) with 25. lra.
    + rewrite (proj1 (set_controls_throttle t1 s1 p) H1).
      apply set_controls_never_brakes.
  - unfold set_controls. cbn [steer_us].
    assert (py_int (1500 + s1 * 500) <= py_int (1500 + s2 * 500))%Z
      by (apply py_int_mono; lra).
    unfold STEER_MIN, STEER_MAX. lia.
Qed.

Lemma set_controls_monotone_witness :
  (throttle_us (set_controls 0.2 (-0.5) {| throttle_us := 1500; steer_us := 1500 |})
   <= throttle_us (set_controls 0.9 0.5 {| throttle_us := 1000; steer_us := 1200 |}))%Z.
Proof.
  refine (proj1 (set_controls_monotone 0.2 0.9 (-0.5) 0.5
                   {| throttle_us := 1500; steer_us := 1500 |}
                   {| throttle_us := 1000; steer_us := 1200 |} _ _));
    unfold Qle; cbn; lia.
Defined.

End Pulses.

(** ** The actuation cycle *)

Section ActuationCycle.
Import Controller.

Lemma stop_condition_evidence (c : t) :
  stop_condition c = true <->
  exists sr conf,
    stop_region c = Some sr /\ sr <> ""%string /\
    In (sr, conf) (VPR.get_top_regions (vpr c)) /\ stop_threshold < conf.
Proof.
  split.
  - unfold stop_condition. destruct (stop_region c) as [sr|]; [|discriminate].
    intros H. apply andb_true_iff in H as [Hne Hex].
    apply negb_true_iff, String.eqb_neq in Hne.
    apply existsb_exists in Hex as ([r conf] & Hin & Hrc).
    cbn [fst snd] in Hrc. apply andb_true_iff in Hrc as [Hr Hconf].
    apply String.eqb_eq in Hr. subst r. apply Qgtb_true in Hconf.
    exists sr, conf. repeat split; assumption.
  - intros (sr & conf & Hsr & Hne & Hin & Hconf).
    exact (stop_condition_true c sr conf Hsr Hne Hin Hconf).
Qed.

Lemma act_cycle_brakes (c : t) (val : Z) (arrival : option Inference.action) :
  snd (act_cycle val arrival c) = Some PWM.HardBrake <-> stop_condition c = true.
Proof.
  unfold act_cycle. destruct (stop_condition c); cbn [snd].
  - split; reflexivity.
  - destruct (drive_enabled val c) as [c1 enabled].
    destruct enabled.
    + destruct (Queue.get_timeout (act_q c1) arrival) as [[[th st] q']|];
        cbn [snd]; split; discriminate.
    + cbn [snd]. split; discriminate.
Qed.

(** X3.  An actuation cycle issues the hard brake exactly when a non-empty
    stop region is configured and the VPR estimate lists it with a
    confidence strictly above 0.75; and the throttle pulse is at the brake
    value after a cycle only if that cycle braked, or it issued no command
    (the wait for an action timed out) and the pulse was there before. *)
Theorem brake_requires_evidence
  (c : t) (val : Z) (arrival : option Inference.action) :
  let r := act_cycle val arrival c in
  (snd r = Some PWM.HardBrake <->
   exists sr conf,
     stop_region c = Some sr /\ sr <> ""%string /\
     In (sr, conf) (VPR.get_top_regions (vpr c)) /\ 0.75 < conf) /\
  (PWM.throttle_us (pwm (fst r)) = PWM.THROTTLE_BRAKE_US ->
   snd r = Some PWM.HardBrake \/
   (snd r = None /\ PWM.throttle_us (pwm c) = PWM.THROTTLE_BRAKE_US)).
Proof.
  intros r. subst r. split.
  - rewrite act_cycle_brakes. apply stop_condition_evidence.
  - unfold act_cycle. destruct (stop_condition c); cbn [fst snd].
    + intros _. left. reflexivity.
    + unfold drive_enabled.
      destruct (Z.ltb drive_enable_threshold _).
      * cbn [act_q].
        destruct (Queue.get_timeout (act_q c) arrival) as [[[th st] q']|];
          cbn [fst snd with_act pwm PWM.exec].
        -- intros H. pose proof (set_controls_never_brakes th st (pwm c)) as Hge.
           unfold PWM.THROTTLE_NEUTRAL, PWM.THROTTLE_BRAKE_US in *. lia.
        -- intros H. right. split; [reflexivity | exact H].
      * cbn [fst snd with_act pwm PWM.exec].
        intros H. pose proof (set_controls_never_brakes 0 0 (pwm c)) as Hge.
        unfold PWM.THROTTLE_NEUTRAL, PWM.THROTTLE_BRAKE_US in *. lia.
Qed.

(** X4.  The drive-enable interlock: in a cycle that does not brake, a
    sampled level other than 1, or a counter that has not yet reached 5,
    makes the cycle command zero throttle and zero steering; the pulses
    are then neutral and centred, whatever they were, and the action
    waiting in the channel is neither applied nor removed. *)
Theorem interlock_forces_neutral
  (c : t) (val : Z) (arrival : option Inference.action) :
  stop_condition c = false ->
  (val <> 1%Z \/ (drive_enable_counter c < 5)%Z) ->
  let r := act_cycle val arrival c in
  snd r = Some (PWM.SetControls 0 0) /\
  pwm (fst r) = {| PWM.throttle_us := 1500; PWM.steer_us := 1500 |} /\
  act_q (fst r) = act_q c /\
  obs_q (fst r) = obs_q c /\
  drive_enable_counter (fst r) =
    (if Z.eqb val 1 then drive_enable_counter c + 1 else 0)%Z.
Proof.
  intros Hstop Hoff r. subst r. unfold act_cycle. rewrite Hstop.
  unfold drive_enabled.
  assert (Z.ltb drive_enable_threshold
            (if Z.eqb val 1 then drive_enable_counter c + 1 else 0)%Z = false)
    as ->.
  { apply Z.ltb_ge. unfold drive_enable_threshold.
    destruct (Z.eqb_spec val 1); [|lia].
    destruct Hoff as [Hv|Hc]; [contradiction | lia]. }
  cbn [fst snd with_act pwm act_q obs_q drive_enable_counter PWM.exec].
  repeat split.
Qed.

Lemma interlock_forces_neutral_witness :
  let c0 := with_act [(0.5, 0.1)] (PWM.SetControls 1 1)
              (init {| PWM.throttle_us := 1500; PWM.steer_us := 1500 |}) in
  let r := act_cycle 0 None c0 in
  snd r = Some (PWM.SetControls 0 0) /\
  pwm (fst r) = {| PWM.throttle_us := 1500; PWM.steer_us := 1500 |} /\
  act_q (fst r) = act_q c0 /\
  obs_q (fst r) = obs_q c0 /\
  drive_enable_counter (fst r) =
    (if Z.eqb 0 1 then drive_enable_counter c0 + 1 else 0)%Z.
Proof.
  intros c0. apply (interlock_forces_neutral c0 0 None).
  - reflexivity.
  - left. discriminate.
Defined.

(** X5.  A cycle leaves a forward throttle pulse behind a command of its
    own only if it did not brake, sampled the enable line at 1 with the
    counter already at 5 or more (so this is at least the sixth enabled
    sample in a row), and took the command, of positive throttle, from the
    action channel. *)
Theorem forward_requires_sustained_enable
  (c : t) (val : Z) (arrival : option Inference.action) (cmd : PWM.command) :
  snd (act_cycle val arrival c) = Some cmd ->
  (PWM.THROTTLE_NEUTRAL < PWM.throttle_us (pwm (fst (act_cycle val arrival c))))%Z ->
  stop_condition c = false /\ val = 1%Z /\ (5 <= drive_enable_counter c)%Z /\
  exists th st q',
    Queue.get_timeout (act_q c) arrival = Some ((th, st), q') /\
    cmd = PWM.SetControls th st /\ 0 < th /\
    act_q (fst (act_cycle val arrival c)) = q' /\
    drive_enable_counter (fst (act_cycle val arrival c)) =
      (drive_enable_counter c + 1)%Z.
Proof.
  unfold act_cycle. destruct (stop_condition c); cbn [fst snd].
  - cbn [with_act pwm PWM.exec PWM.hard_brake PWM.throttle_us].
    intros _ H. unfold PWM.THROTTLE_NEUTRAL, PWM.THROTTLE_BRAKE_US in H. lia.
  - unfold drive_enabled.
    destruct (Z.ltb drive_enable_threshold _) eqn:En.
    + apply Z.ltb_lt in En. unfold drive_enable_threshold in En.
      destruct (Z.eqb_spec val 1) as [Hv|Hv]; [|lia].
      cbn [act_q].
      destruct (Queue.get_timeout (act_q c) arrival) as [[[th st] q']|];
        cbn [fst snd with_act pwm act_q drive_enable_counter PWM.exec];
        [|discriminate].
      intros [= <-] Hfwd.
      split; [reflexivity|]. split; [exact Hv|]. split; [lia|].
      exists th, st, q'. split; [reflexivity|]. split; [reflexivity|].
      split; [|split; reflexivity].
      destruct (Qlt_le_dec 0 th) as [Hth|Hth]; [exact Hth|].
      rewrite (proj1 (set_controls_throttle th st (pwm c)) Hth) in Hfwd. lia.
    + cbn [fst snd with_act pwm PWM.exec]. intros _ Hfwd.
      rewrite (proj1 (set_controls_throttle 0 0 (pwm c))) in Hfwd by lra. lia.
Qed.

Lemma forward_requires_sustained_enable_witness :
  let c0 := fst (sample_all [1; 1; 1; 1; 1]%Z
                   (with_act [(0.5, 0.1)] (PWM.SetControls 0 0)
                      (init {| PWM.throttle_us := 1500; PWM.steer_us := 1500 |}))) in
  stop_condition c0 = false /\ (5 <= drive_enable_counter c0)%Z.
Proof.
  intros c0.
  destruct (forward_requires_sustained_enable c0 1 None (PWM.SetControls 0.5 0.1))
    as (H1 & _ & H2 & _).
  - reflexivity.
  - vm_compute. reflexivity.
  - split; [exact H1 | exact H2].
Defined.

(** X6.  Clearing the stop region (with [None] or with the empty string
    the UI sends for "None") blanks the estimate, stops the frame feed and
    rules out braking in the next cycle whatever VPR held.  Setting a
    non-empty region always keeps the estimate as it is and starts the
    feed; the next cycle then brakes exactly when that estimate lists the
    region above the threshold, so a region already recognised brakes at
    once.  In every case the call records the region, and calling it twice
    is the same as calling it once. *)
Theorem set_stop_region_effect (region : option string) (c : t) :
  stop_region (set_stop_region region c) = region /\
  (truthy region = false ->
   forall val arrival,
     stop_condition (set_stop_region region c) = false /\
     snd (act_cycle val arrival (set_stop_region region c)) <> Some PWM.HardBrake /\
     VPR.get_top_regions (vpr (set_stop_region region c)) = VPR.blank /\
     VPR.pred_hist (vpr (set_stop_region region c)) = VPR.pred_hist (vpr c) /\
     vpr_feed_running (set_stop_region region c) = false) /\
  (forall sr,
     region = Some sr -> sr <> ""%string ->
     vpr (set_stop_region region c) = vpr c /\
     vpr_feed_running (set_stop_region region c) = true /\
     forall val arrival,
       snd (act_cycle val arrival (set_stop_region region c)) = Some PWM.HardBrake
       <-> exists conf, In (sr, conf) (VPR.get_top_regions (vpr c)) /\
                        0.75 < conf) /\
  set_stop_region region (set_stop_region region c) = set_stop_region region c.
Proof.
  split; [reflexivity|]. split; [|split].
  - intros Hf val arrival.
    assert (stop_condition (set_stop_region region c) = false) as Hs.
    { unfold stop_condition, set_stop_region. cbn [stop_region].
      destruct region as [sr|]; [|reflexivity].
      cbn [truthy] in Hf. rewrite Hf. reflexivity. }
    split; [exact Hs|]. split.
    + intros H. apply act_cycle_brakes in H. congruence.
    + unfold set_stop_region. cbn [vpr vpr_feed_running]. rewrite Hf.
      repeat split.
  - intros sr -> Hne.
    assert (truthy (Some sr) = true) as Ht.
    { cbn [truthy]. apply negb_true_iff, String.eqb_neq. exact Hne. }
    assert (vpr (set_stop_region (Some sr) c) = vpr c) as Hv.
    { unfold set_stop_region. cbn [vpr]. rewrite Ht. reflexivity. }
    split; [exact Hv|]. split.
    { unfold set_stop_region. cbn [vpr_feed_running]. exact Ht. }
    intros val arrival. rewrite act_cycle_brakes, stop_condition_evidence.
    rewrite Hv. cbn [set_stop_region stop_region]. split.
    + intros (sr' & conf & [= <-] & _ & Hin & Hconf).
      exists conf. split; [exact Hin | exact Hconf].
    + intros (conf & Hin & Hconf). exists sr, conf.
      repeat split; assumption.
  - unfold set_stop_region. cbn [obs_q act_q vpr vpr_feed_running stop_region
                                 drive_enable_counter pwm].
    destruct (truthy region); reflexivity.
Qed.

End ActuationCycle.

(** ** Whole schedules of the three workers *)

Section Schedules.
Import Controller.
Import Schedule.
Variable policy : list Q -> Inference.action.

Local Abbreviation run := (Controller.run policy).
Local Abbreviation step := (Controller.step policy).

Lemma pulses_ok_exec (cmd : PWM.command) (p : PWM.t) :
  pulses_ok p -> pulses_ok (PWM.exec cmd p).
Proof.
  intros [Hs Ht]. destruct cmd as [|th st]; cbn [PWM.exec].
  - split; [exact Hs|]. left. reflexivity.
  - split.
    + unfold PWM.set_controls. cbn [PWM.steer_us].
      unfold PWM.STEER_MIN, PWM.STEER_MAX. lia.
    + destruct (Qlt_le_dec 0 th) as [H|H].
      * right. right. exact (proj2 (set_controls_throttle th st p) H).
      * right. left. exact (proj1 (set_controls_throttle th st p) H).
Qed.

Lemma act_cycle_pulses (val : Z) (arrival : option Inference.action) (c : t) :
  pulses_ok (pwm c) -> pulses_ok (pwm (fst (act_cycle val arrival c))).
Proof.
  intros Hp. unfold act_cycle. destruct (stop_condition c); cbn [fst].
  - apply pulses_ok_exec. exact Hp.
  - unfold drive_enabled. destruct (Z.ltb drive_enable_threshold _).
    + cbn [act_q].
      destruct (Queue.get_timeout (act_q c) arrival) as [[[th st] q']|];
        cbn [fst with_act pwm]; [apply pulses_ok_exec|]; exact Hp.
    + cbn [fst with_act pwm]. apply pulses_ok_exec. exact Hp.
Qed.

Lemma act_cycle_channels (val : Z) (c : t) :
  obs_q (fst (act_cycle val None c)) = obs_q c /\
  (length (act_q (fst (act_cycle val None c))) <= length (act_q c))%nat.
Proof.
  unfold act_cycle. destruct (stop_condition c); cbn [fst].
  - cbn [with_act obs_q act_q]. split; [reflexivity|].
    destruct (act_q c) as [|a q]; cbn [Queue.get_nowait length]; lia.
  - unfold drive_enabled. destruct (Z.ltb drive_enable_threshold _).
    + cbn [act_q].
      destruct (act_q c) as [|[th st] q] eqn:E;
        cbn [Queue.get_timeout fst with_act obs_q act_q length].
      * split; [reflexivity | cbn; lia].
      * split; [reflexivity | lia].
    + cbn [fst with_act obs_q act_q]. split; [reflexivity | lia].
Qed.

Lemma sensor_step_channel (obs : Inference.observation) (c : t) :
  (length (obs_q c) <= OBS_MAXSIZE)%nat ->
  (obs_q (sensor_step obs c) = obs_q c ++ [obs] /\ obs_q c = [] \/
   obs_q (sensor_step obs c) = obs_q c /\ length (obs_q c) = OBS_MAXSIZE) /\
  act_q (sensor_step obs c) = act_q c /\
  pwm (sensor_step obs c) = pwm c.
Proof.
  intros Hlen. unfold sensor_step, Queue.put_nowait, Queue.full.
  cbn [obs_q act_q pwm]. split; [|split; reflexivity].
  unfold OBS_MAXSIZE in *.
  destruct (obs_q c) as [|o [|o' q]]; cbn [length] in *.
  - left. split; reflexivity.
  - right. split; reflexivity.
  - lia.
Qed.

Lemma inference_loop_total (inf : Inference.t) (oq : list Inference.observation)
  (aq : list Inference.action) :
  exists inf' aq' out,
    Inference.loop policy ACT_MAXSIZE inf oq aq = Some (inf', [], aq', out) /\
    (length aq' <= Nat.max (length aq) ACT_MAXSIZE)%nat /\
    (oq = [] -> out = Inference.NoObservation) /\
    (forall o oq', oq = o :: oq' ->
       exists newest older, oq = older ++ [newest] /\ taken [out] = [newest]).
Proof.
  unfold Inference.loop. destruct oq as [|o oq']; cbn [Queue.get_nowait].
  - exists inf, aq, Inference.NoObservation. split; [reflexivity|].
    split; [lia|]. split; [reflexivity|]. intros ? ? H. discriminate H.
  - assert (exists newest older, o :: oq' = older ++ [newest] /\
              Inference.drain_newest o oq' = (newest, [])) as
      (newest & older & Hq & Hd).
    { destruct (exists_last (l := o :: oq')) as (older & newest & Hq);
        [discriminate|].
      exists newest, older. split; [exact Hq|].
      destruct older as [|o1 older]; cbn [app] in Hq.
      - injection Hq as -> ->. reflexivity.
      - injection Hq as -> ->. apply drain_newest_last. }
    rewrite Hd. destruct (Inference.model_loaded inf); cbn [negb].
    + rewrite drain_empties. cbn [Queue.put_nowait Queue.full ACT_MAXSIZE
                                  Nat.eqb negb andb Nat.leb length app].
      eexists _, _, _. split; [reflexivity|]. cbn [length].
      split; [unfold ACT_MAXSIZE; lia|]. split; [discriminate|].
      intros ? ? _. exists newest, older. split; [exact Hq | reflexivity].
    + eexists _, _, _. split; [reflexivity|].
      split; [lia|]. split; [discriminate|].
      intros ? ? _. exists newest, older. split; [exact Hq | reflexivity].
Qed.

Lemma run_cons (e : event) (es : list event) (s : sys) :
  run (e :: es) s =
  match step e s with
  | None => None
  | Some (s1, o1) =>
      match run es s1 with
      | None => None
      | Some (s2, o2) => Some (s2, o1 ++ o2)
      end
  end.
Proof. reflexivity. Qed.

(** What one scheduled event does to the channels, the pulses and the log
    of readings. *)
Lemma step_spec (e : event) (c : t) (inf : Inference.t) :
  channels_ok c ->
  exists c' inf' outs,
    step e (c, inf) = Some ((c', inf'), outs) /\
    channels_ok c' /\
    (pulses_ok (pwm c) -> pulses_ok (pwm c')) /\
    length outs = infer_steps [e] /\
    sublist (taken outs ++ obs_q c') (obs_q c ++ sensed [e]).
Proof.
  intros [Ho Ha]. destruct e as [obs| |val]; cbn [Controller.step].
  - destruct (sensor_step_channel obs c Ho) as (Hq & Haq & Hp).
    eexists _, _, _. split; [reflexivity|].
    split; [|split; [rewrite Hp; tauto|split; [reflexivity|]]].
    + split; [|rewrite Haq; exact Ha].
      destruct Hq as [[-> ->]|[-> _]]; [cbn; unfold OBS_MAXSIZE; lia | exact Ho].
    + cbn [taken omap app sensed].
      destruct Hq as [[-> _]|[-> _]]; [reflexivity|].
      apply sublist_inserts_r. reflexivity.
  - destruct (inference_loop_total inf (obs_q c) (act_q c))
      as (inf' & aq' & out & Hl & Hlen & Hnone & Hsome).
    rewrite Hl. eexists _, _, _. split; [reflexivity|].
    cbn [with_queues obs_q act_q pwm].
    split; [|split; [tauto|split; [reflexivity|]]].
    + unfold channels_ok, OBS_MAXSIZE, ACT_MAXSIZE in *.
      cbn [with_queues obs_q act_q length]. lia.
    + cbn [sensed omap]. rewrite !app_nil_r.
      destruct (obs_q c) as [|o oq'] eqn:E.
      * rewrite (Hnone eq_refl). reflexivity.
      * destruct (Hsome o oq' eq_refl) as (newest & older & -> & ->).
        apply sublist_inserts_l. reflexivity.
  - destruct (act_cycle_channels val c) as [Hoq Haq].
    eexists _, _, _. split; [reflexivity|].
    split; [|split; [apply act_cycle_pulses|split; [reflexivity|]]].
    + unfold channels_ok. rewrite Hoq. split; [exact Ho | lia].
    + cbn [taken omap sensed app]. rewrite Hoq, app_nil_r. reflexivity.
Qed.

Lemma sensed_cons (e : event) (es : list event) :
  sensed (e :: es) = sensed [e] ++ sensed es.
Proof. unfold sensed. cbn [omap]. destruct e; reflexivity. Qed.

Lemma taken_app (o1 o2 : list Inference.outcome) :
  taken (o1 ++ o2) = taken o1 ++ taken o2.
Proof. apply omap_app. Qed.

Lemma run_spec (es : list event) (c : t) (inf : Inference.t) :
  channels_ok c ->
  exists c' inf' outs,
    run es (c, inf) = Some ((c', inf'), outs) /\
    channels_ok c' /\
    (pulses_ok (pwm c) -> pulses_ok (pwm c')) /\
    length outs = infer_steps es /\
    sublist (taken outs ++ obs_q c') (obs_q c ++ sensed es).
Proof.
  revert c inf. induction es as [|e es IH]; intros c inf Hc.
  - exists c, inf, []. split; [reflexivity|]. split; [exact Hc|].
    split; [tauto|]. split; [reflexivity|].
    cbn [taken omap sensed app]. rewrite app_nil_r. reflexivity.
  - destruct (step_spec e c inf Hc) as (c1 & inf1 & o1 & Hs & Hc1 & Hp1 & Hn1 & Hsub1).
    destruct (IH c1 inf1 Hc1) as (c2 & inf2 & o2 & Hr & Hc2 & Hp2 & Hn2 & Hsub2).
    exists c2, inf2, (o1 ++ o2). rewrite run_cons, Hs, Hr.
    split; [reflexivity|]. split; [exact Hc2|]. split; [tauto|]. split.
    + rewrite length_app, Hn1, Hn2. unfold infer_steps. cbn [List.filter].
      destruct e; cbn [length]; lia.
    + rewrite taken_app, sensed_cons, <- app_assoc.
      transitivity (taken o1 ++ obs_q c1 ++ sensed es).
      * apply sublist_app; [reflexivity | exact Hsub2].
      * rewrite !app_assoc. apply sublist_app; [exact Hsub1 | reflexivity].
Qed.

(** X7.  Whatever the interleaving of sensor iterations, inference steps
    and actuation cycles, no step lets [Full] escape: the run goes through,
    both channels never hold more than their one item, and each inference
    step logs exactly one outcome. *)
Theorem schedule_never_overflows (es : list event) (c : t) (inf : Inference.t) :
  channels_ok c ->
  exists c' inf' outs,
    run es (c, inf) = Some ((c', inf'), outs) /\
    (length (obs_q c') <= 1)%nat /\ (length (act_q c') <= 1)%nat /\
    length outs = infer_steps es.
Proof.
  intros Hc.
  destruct (run_spec es c inf Hc) as (c' & inf' & outs & Hr & [Ho Ha] & _ & Hn & _).
  exists c', inf', outs. split; [exact Hr|].
  unfold OBS_MAXSIZE, ACT_MAXSIZE in *. repeat split; assumption.
Qed.

(** X8.  The readings the inference steps take are, in order and without
    repetition, a selection of the readings held at the start followed by
    those the sensor loop produced: no reading is acted on twice, none is
    invented, and their order is never swapped. *)
Theorem taken_readings_are_sensed
  (es : list event) (c c' : t) (inf inf' : Inference.t)
  (outs : list Inference.outcome) :
  channels_ok c ->
  run es (c, inf) = Some ((c', inf'), outs) ->
  sublist (taken outs) (obs_q c ++ sensed es).
Proof.
  intros Hc Hrun.
  destruct (run_spec es c inf Hc) as (c2 & inf2 & o2 & Hr & _ & _ & _ & Hsub).
  rewrite Hrun in Hr. injection Hr as <- <- <-.
  transitivity (taken outs ++ obs_q c'); [|exact Hsub].
  apply sublist_inserts_r. reflexivity.
Qed.

(** X9.  Started with admissible pulses (as [PWMController.__init__]
    leaves them, neutral and centred), every schedule keeps the steering
    pulse within [1000, 2000] and the throttle pulse at 1000 (brake), 1500
    (neutral) or within [1575, 1600]: no reverse or intermediate throttle
    is ever commanded, whatever the policy puts out. *)
Theorem schedule_keeps_pulses_admissible
  (es : list event) (c c' : t) (inf inf' : Inference.t)
  (outs : list Inference.outcome) :
  channels_ok c ->
  pulses_ok (pwm c) ->
  run es (c, inf) = Some ((c', inf'), outs) ->
  pulses_ok (pwm c').
Proof.
  intros Hc Hp Hrun.
  destruct (run_spec es c inf Hc) as (c2 & inf2 & o2 & Hr & _ & Hp2 & _).
  rewrite Hrun in Hr. injection Hr as <- <- <-. exact (Hp2 Hp).
Qed.

End Schedules.

Section ScheduleScenarios.
Import Controller.
Import Schedule.

Lemma schedule_never_overflows_witness :
  exists c' inf' outs,
    Controller.run Scenario.policy_example [Sense Scenario.obs_old; Sense Scenario.obs_new; Infer; Actuate 1; Infer]
        Scenario.system_start = Some ((c', inf'), outs) /\
    (length (obs_q c') <= 1)%nat /\ (length (act_q c') <= 1)%nat /\
    length outs = 2%nat.
Proof.
  apply (schedule_never_overflows Scenario.policy_example
           [Sense Scenario.obs_old; Sense Scenario.obs_new; Infer; Actuate 1; Infer]
           (fst Scenario.system_start) (snd Scenario.system_start)).
  split; cbn; lia.
Defined.

Lemma taken_readings_are_sensed_witness :
  sublist [Scenario.obs_old] ([] ++ [Scenario.obs_old; Scenario.obs_new]).
Proof.
  refine (taken_readings_are_sensed Scenario.policy_example
            [Sense Scenario.obs_old; Sense Scenario.obs_new; Infer]
            (fst Scenario.system_start) _ (snd Scenario.system_start) _
            [Inference.Acted Scenario.obs_old _] _ _).
  - split; cbn; lia.
  - vm_compute. reflexivity.
Defined.

Lemma schedule_keeps_pulses_admissible_witness :
  pulses_ok
    (pwm (fst (fst (default (Scenario.system_start, [])
                      (Controller.run Scenario.policy_example [Sense Scenario.obs_new; Infer; Actuate 1; Actuate 1;
                            Actuate 1; Actuate 1; Actuate 1; Actuate 1]
                           Scenario.system_start))))).
Proof.
  refine (schedule_keeps_pulses_admissible Scenario.policy_example
            [Sense Scenario.obs_new; Infer; Actuate 1; Actuate 1;
             Actuate 1; Actuate 1; Actuate 1; Actuate 1]
            (fst Scenario.system_start) _ (snd Scenario.system_start) _ _ _ _ _).
  - split; cbn; lia.
  - split; [cbn; unfold PWM.STEER_MIN, PWM.STEER_MAX; lia|].
    right. left. reflexivity.
  - vm_compute. reflexivity.
Defined.

End ScheduleScenarios.

(** ** More on the VPR window and its estimate *)

Section WindowFacts.
Import VPR.

Lemma deque_append_drop {A} (l : list A) (x : A) (n : nat) :
  deque_append n (drop (length l - n) l) x =
  drop (length (l ++ [x]) - n) (l ++ [x]).
Proof.
  unfold deque_append.
  rewrite <- (drop_app_le l [x]) by lia.
  rewrite drop_drop. f_equal.
  rewrite length_drop, !length_app. cbn [length]. lia.
Qed.

Lemma window_general (fs : list frame) (s : t) :
  (length (pred_hist s) <= AVG_WINDOW)%nat ->
  pred_hist (process_all fs s) =
  drop (length (pred_hist s ++ fs) - AVG_WINDOW) (pred_hist s ++ fs).
Proof.
  intros Hlen. induction fs as [|f fs IH] using rev_ind.
  - rewrite app_nil_r.
    replace (length (pred_hist s) - AVG_WINDOW)%nat with O by lia.
    reflexivity.
  - rewrite process_all_snoc, pred_hist_process, IH, app_assoc.
    apply deque_append_drop.
Qed.

(** X10.  The window always holds the frames processed last, oldest first:
    after any number of frames it is the last three of the frames it held
    followed by those pushed (all of them while fewer than three), so its
    length is min(3, number of frames seen) and a frame leaves it exactly
    when three newer ones have been processed. *)
Theorem window_is_last_frames (fs : list frame) (s : t) :
  (length (pred_hist s) <= AVG_WINDOW)%nat ->
  pred_hist (process_all fs s) =
    drop (length (pred_hist s ++ fs) - AVG_WINDOW) (pred_hist s ++ fs) /\
  length (pred_hist (process_all fs s)) =
    Nat.min AVG_WINDOW (length (pred_hist s) + length fs) /\
  get_top_regions (process_all fs s) =
    match fs with
    | [] => get_top_regions s
    | _ => smooth (pred_hist (process_all fs s))
    end.
Proof.
  intros Hlen. pose proof (window_general fs s Hlen) as Hw.
  split; [exact Hw|]. split.
  - rewrite Hw, length_drop, length_app. lia.
  - destruct fs as [|f fs] using rev_ind; [reflexivity|].
    rewrite process_all_snoc. unfold get_top_regions. rewrite top_k_process.
    destruct (fs ++ [f]) eqn:E; [|reflexivity].
    destruct fs; discriminate E.
Qed.

Lemma window_is_last_frames_witness :
  pred_hist (process_all [Scenario.frame_a; Scenario.frame_b; Scenario.r1_090;
                          Scenario.r2_080] init) =
  drop (length (pred_hist init ++ [Scenario.frame_a; Scenario.frame_b;
                                   Scenario.r1_090; Scenario.r2_080])
        - AVG_WINDOW)
       (pred_hist init ++ [Scenario.frame_a; Scenario.frame_b; Scenario.r1_090;
                           Scenario.r2_080]).
Proof.
  refine (proj1 (window_is_last_frames
                   [Scenario.frame_a; Scenario.frame_b; Scenario.r1_090;
                    Scenario.r2_080] init _)).
  unfold AVG_WINDOW. cbn [init pred_hist length]. lia.
Defined.

(** X11.  The estimate keeps the best: a region listed somewhere in the
    window but left out of the estimate has a windowed mean no greater than
    the confidence of every region the estimate reports. *)
Theorem estimate_keeps_the_best (hist : list frame) (r : string) :
  present r hist ->
  ~ In r (map fst (smooth hist)) ->
  forall r' m', In (r', m') (smooth hist) -> mean (confs_of r hist) <= m'.
Proof.
  intros Hp Hout r' m' Hin.
  pose proof (mean_conf_of_present hist r Hp) as Hg.
  apply dict_get_In in Hg.
  assert (In (r, mean (confs_of r hist))
             (sorted_desc (mean_conf (accumulate hist)))) as Hs.
  { apply list_elem_of_In.
    rewrite (sorted_desc_perm (mean_conf (accumulate hist))).
    apply list_elem_of_In. exact Hg. }
  rewrite <- (take_drop TOP_K (sorted_desc (mean_conf (accumulate hist)))) in Hs.
  apply in_app_or in Hs as [Hs|Hs].
  - exfalso. apply Hout. apply in_map_iff.
    exists (r, mean (confs_of r hist)). split; [reflexivity | exact Hs].
  - apply (descending_take_drop TOP_K
             (sorted_desc (mean_conf (accumulate hist)))
             (sorted_desc_descending _)
             (r', m') (r, mean (confs_of r hist))); assumption.
Qed.

Lemma estimate_keeps_the_best_witness :
  mean (confs_of "r_04" [Scenario.frame_a; Scenario.frame_b]) <=
  mean (confs_of "r_06" [Scenario.frame_a; Scenario.frame_b]).
Proof.
  apply (estimate_keeps_the_best [Scenario.frame_a; Scenario.frame_b] "r_04")
    with (r' := "r_06"%string).
  - exists Scenario.frame_a, 0.3. split; [left; reflexivity|].
    do 4 right. left. reflexivity.
  - intros H. vm_compute in H.
    repeat (destruct H as [H|H]; [discriminate H|]). exact H.
  - vm_compute. do 4 right. left. reflexivity.
Defined.

Lemma mean_between_extremes (v : list Q) :
  v <> [] ->
  (exists c, In c v /\ c <= mean v) /\ (exists c, In c v /\ mean v <= c).
Proof.
  intros Hne.
  assert (0 < py_len v) as Hpos.
  { destruct v as [|x v]; [contradiction|].
    rewrite py_len_cons. pose proof (py_len_nonneg v). lra. }
  assert (forall (w : list Q) (a b : Q),
            (forall c, In c w -> a <= c) ->
            a * py_len w <= fold_left Qplus w b - b) as Hlo.
  { induction w as [|x w IH]; intros a b Hall; cbn [fold_left].
    - change (py_len (@nil Q)) with 0. lra.
    - rewrite py_len_cons.
      specialize (IH a (b + x) (fun c Hc => Hall c (or_intror Hc))).
      specialize (Hall x (or_introl eq_refl)). lra. }
  assert (forall (w : list Q) (a b : Q),
            (forall c, In c w -> c <= a) ->
            fold_left Qplus w b - b <= a * py_len w) as Hhi.
  { induction w as [|x w IH]; intros a b Hall; cbn [fold_left].
    - change (py_len (@nil Q)) with 0. lra.
    - rewrite py_len_cons.
      specialize (IH a (b + x) (fun c Hc => Hall c (or_intror Hc))).
      specialize (Hall x (or_introl eq_refl)). lra. }
  assert (forall w : list Q, w <> [] ->
            (exists lo, In lo w /\ forall c, In c w -> lo <= c) /\
            (exists hi, In hi w /\ forall c, In c w -> c <= hi)) as Hext.
  { induction w as [|x w IH]; intros Hw; [contradiction|].
    destruct w as [|y w].
    - split; exists x; (split; [left; reflexivity|]);
        intros c [<-|[]]; lra.
    - destruct (IH ltac:(discriminate)) as [(lo & Hlo1 & Hlo2) (hi & Hhi1 & Hhi2)].
      split.
      + destruct (Qlt_le_dec x lo) as [H|H].
        * exists x. split; [left; reflexivity|].
          intros c [<-|Hc]; [lra|]. specialize (Hlo2 c Hc). lra.
        * exists lo. split; [right; exact Hlo1|].
          intros c [<-|Hc]; [exact H | exact (Hlo2 c Hc)].
      + destruct (Qlt_le_dec hi x) as [H|H].
        * exists x. split; [left; reflexivity|].
          intros c [<-|Hc]; [lra|]. specialize (Hhi2 c Hc). lra.
        * exists hi. split; [right; exact Hhi1|].
          intros c [<-|Hc]; [exact H | exact (Hhi2 c Hc)]. }
  destruct (Hext v Hne) as [(lo & Hl1 & Hl2) (hi & Hh1 & Hh2)].
  unfold mean, py_sum. split.
  - exists lo. split; [exact Hl1|].
    apply Qle_shift_div_l; [exact Hpos|].
    specialize (Hlo v lo 0 Hl2). lra.
  - exists hi. split; [exact Hh1|].
    apply Qle_shift_div_r; [exact Hpos|].
    specialize (Hhi v hi 0 Hh2). lra.
Qed.

Lemma reported_between_samples (hist : list frame) (r : string) (m : Q) :
  In (r, m) (smooth hist) ->
  (exists f1 c1, In f1 hist /\ In (r, c1) f1 /\ c1 <= m) /\
  (exists f2 c2, In f2 hist /\ In (r, c2) f2 /\ m <= c2).
Proof.
  intros Hin.
  apply reported_is_mean in Hin as [Hp ->].
  apply present_confs in Hp.
  destruct (mean_between_extremes _ Hp) as [(c1 & H1 & Hle1) (c2 & H2 & Hle2)].
  apply In_confs_of in H1 as (f1 & Hf1 & Hc1).
  apply In_confs_of in H2 as (f2 & Hf2 & Hc2).
  split; [exists f1, c1 | exists f2, c2]; repeat split; assumption.
Qed.

(** X12.  A confidence reported by the estimate lies between the smallest
    and the largest confidence some retained frame gives that region: the
    smoothing never reports more than the best single-frame match in the
    window, nor less than the worst. *)
Theorem estimate_between_frame_extremes
  (s : t) (f : frame) (r : string) (m : Q) :
  In (r, m) (get_top_regions (process f s)) ->
  (exists f1 c1, In f1 (pred_hist (process f s)) /\ In (r, c1) f1 /\ c1 <= m) /\
  (exists f2 c2, In f2 (pred_hist (process f s)) /\ In (r, c2) f2 /\ m <= c2).
Proof.
  unfold get_top_regions. rewrite top_k_process.
  apply reported_between_samples.
Qed.

Lemma estimate_between_frame_extremes_witness :
  (exists f1 c1,
     In f1 (pred_hist (process Scenario.r1_060 (process Scenario.r1_090 init))) /\
     In ("r1"%string, c1) f1 /\ c1 <= (0.9 + 0.6) / 2) /\
  (exists f2 c2,
     In f2 (pred_hist (process Scenario.r1_060 (process Scenario.r1_090 init))) /\
     In ("r1"%string, c2) f2 /\ (0.9 + 0.6) / 2 <= c2).
Proof.
  apply (estimate_between_frame_extremes
           (process Scenario.r1_090 init) Scenario.r1_060 "r1" ((0.9 + 0.6) / 2)).
  left. reflexivity.
Defined.

Lemma set_images_keep_last (imgs : list (option frame)) (s : t) :
  fold_left (fun s i => set_image i s) imgs s =
  match last (omap id imgs) with
  | Some f => {| image := Some f; top_k := top_k s; pred_hist := pred_hist s |}
  | None => s
  end.
Proof.
  induction imgs as [|i imgs IH] using rev_ind; [reflexivity|].
  rewrite fold_left_app, omap_app. cbn [fold_left].
  destruct i as [f|].
  - change (omap id [Some f]) with [f].
    rewrite last_snoc, IH. cbn [set_image].
    destruct (last (omap id imgs)); reflexivity.
  - change (omap id [@None frame]) with (@nil frame).
    rewrite app_nil_r. cbn [set_image]. exact IH.
Qed.

(** X13.  The frame slot holds one frame.  However many frames are handed
    to [set_image] before the loop runs (a [None] among them is ignored),
    the loop pushes the one handed over last, and only that one: the
    window becomes the previous window followed by it, cut to the last
    three, and the estimate is recomputed from that window; the frames
    replaced in the slot never enter the window.  The slot is then empty,
    so a further loop iteration changes nothing; and with nothing handed
    over and an empty slot the loop changes nothing. *)
Theorem frame_slot_keeps_newest (imgs : list (option frame)) (s : t) :
  (forall f,
     last (omap id imgs) = Some f ->
     let s' := loop (fold_left (fun s i => set_image i s) imgs s) in
     pred_hist s' = deque_append AVG_WINDOW (pred_hist s) f /\
     last (pred_hist s') = Some f /\
     length (pred_hist s') = Nat.min AVG_WINDOW (Datatypes.S (length (pred_hist s))) /\
     get_top_regions s' = smooth (pred_hist s') /\
     s' = process f s /\
     image s' = None /\ loop s' = s') /\
  (omap id imgs = [] -> image s = None ->
   loop (fold_left (fun s i => set_image i s) imgs s) = s).
Proof.
  split.
  - intros f Hlast s'. subst s'. rewrite set_images_keep_last, Hlast.
    change (loop {| image := Some f; top_k := top_k s;
                    pred_hist := pred_hist s |})
      with {| image := None;
              top_k := smooth (deque_append AVG_WINDOW (pred_hist s) f);
              pred_hist := deque_append AVG_WINDOW (pred_hist s) f |}.
    cbn [pred_hist get_top_regions top_k image].
    split; [reflexivity|]. split; [|split; [|repeat split]].
    + unfold deque_append.
      rewrite drop_app_le
        by (rewrite length_app; unfold AVG_WINDOW; cbn [length]; lia).
      apply last_snoc.
    + unfold deque_append. rewrite length_drop, length_app.
      unfold AVG_WINDOW. cbn [length]. lia.
  - intros Hnone Him. rewrite set_images_keep_last, Hnone. cbn [last].
    unfold loop. rewrite Him. reflexivity.
Qed.

Lemma frame_slot_keeps_newest_witness :
  let s' := loop (fold_left (fun s i => set_image i s)
                    [Some Scenario.frame_a; None; Some Scenario.frame_b; None]
                    (process Scenario.r1_090 init)) in
  pred_hist s' =
    deque_append AVG_WINDOW (pred_hist (process Scenario.r1_090 init))
      Scenario.frame_b /\
  last (pred_hist s') = Some Scenario.frame_b.
Proof.
  intros s'.
  destruct (proj1 (frame_slot_keeps_newest
                     [Some Scenario.frame_a; None; Some Scenario.frame_b; None]
                     (process Scenario.r1_090 init))
              Scenario.frame_b eq_refl) as (H1 & H2 & _).
  split; [exact H1 | exact H2].
Defined.

End WindowFacts.

Section BrakeEvidence.
Import Controller.

(** X14.  When the estimate the actuation cycle reads is the one VPR
    computed for its last frame, a hard brake is backed by the window: some
    retained frame lists the stop region with a confidence above 0.75. *)
Theorem brake_backed_by_frame
  (c : t) (val : Z) (arrival : option Inference.action)
  (f : VPR.frame) (s : VPR.t) :
  vpr c = VPR.process f s ->
  snd (act_cycle val arrival c) = Some PWM.HardBrake ->
  exists sr fr conf,
    stop_region c = Some sr /\ sr <> ""%string /\
    In fr (VPR.pred_hist (vpr c)) /\ In (sr, conf) fr /\ 0.75 < conf.
Proof.
  intros Hv Hb. apply act_cycle_brakes, stop_condition_evidence in Hb.
  destruct Hb as (sr & m & Hsr & Hne & Hin & Hm).
  rewrite Hv in Hin |- *. unfold VPR.get_top_regions in Hin.
  rewrite top_k_process in Hin.
  destruct (proj2 (reported_between_samples _ sr m Hin))
    as (fr & conf & Hfr & Hc & Hle).
  exists sr, fr, conf.
  repeat split; try assumption.
  unfold stop_threshold in Hm. lra.
Qed.

Lemma brake_backed_by_frame_witness :
  let c := set_stop_region (Some "r_05"%string)
             {| obs_q := []; act_q := [];
                vpr := VPR.process [("r_05"%string, 0.8)] VPR.init;
                vpr_feed_running := true; stop_region := None;
                drive_enable_counter := 0;
                pwm := {| PWM.throttle_us := 1500; PWM.steer_us := 1500 |} |} in
  exists sr fr conf,
    stop_region c = Some sr /\ sr <> ""%string /\
    In fr (VPR.pred_hist (vpr c)) /\ In (sr, conf) fr /\ 0.75 < conf.
Proof.
  intros c.
  apply (brake_backed_by_frame c 1 None [("r_05"%string, 0.8)] VPR.init).
  - reflexivity.
  - vm_compute. reflexivity.
Defined.

End BrakeEvidence.

(** ** More on the navigator *)

Section Headings.
Import Navigator.

Lemma py_mod_range (x m : Q) : 0 < m -> 0 <= py_mod x m /\ py_mod x m < m.
Proof.
  intros Hm. unfold py_mod.
  pose proof (Qfloor_le (x / m)) as Hlo.
  pose proof (Qlt_floor (x / m)) as Hhi.
  rewrite inject_Z_plus in Hhi. change (inject_Z 1) with 1 in Hhi.
  set (k := inject_Z (Qfloor (x / m))) in *.
  assert ((x / m) * m == x) as Hx by (field; lra).
  pose proof (Qmult_le_compat_r k (x / m) m Hlo ltac:(lra)) as H1.
  pose proof (Qmult_lt_compat_r (x / m) (k + 1) m Hm Hhi) as H2.
  rewrite Hx in H1, H2. split; lra.
Qed.

Lemma turn_angle_cases (a b : Q) :
  (calculate_turn_angle a b == Qabs (a - b) \/
   calculate_turn_angle a b == 360 - Qabs (a - b)) /\
  calculate_turn_angle a b <= Qabs (a - b) /\
  calculate_turn_angle a b <= 360 - Qabs (a - b).
Proof. unfold calculate_turn_angle. apply py_min_spec. Qed.

Lemma Qabs_cases (x : Q) : (0 <= x /\ Qabs x == x) \/ (x < 0 /\ Qabs x == - x).
Proof.
  destruct (Qlt_le_dec x 0) as [H|H].
  - right. split; [exact H|]. apply Qabs_neg. lra.
  - left. split; [exact H|]. apply Qabs_pos. exact H.
Qed.

(** X15.  The world yaw computed from an IMU yaw lies in [0, 360) and
    differs from (IMU yaw - 90) by a whole number of turns; and the turn
    between two headings of [0, 360) lies in [0, 180], does not depend on
    the order of the two, and is zero exactly when they are equal. *)
Theorem heading_arithmetic (imu a b : Q) :
  (0 <= convert_imu_to_world_yaw imu /\ convert_imu_to_world_yaw imu < 360) /\
  (exists k : Z, convert_imu_to_world_yaw imu == imu - 90 + 360 * inject_Z k) /\
  (0 <= a /\ a < 360 -> 0 <= b /\ b < 360 ->
   (0 <= calculate_turn_angle a b /\ calculate_turn_angle a b <= 180) /\
   calculate_turn_angle a b == calculate_turn_angle b a /\
   (calculate_turn_angle a b == 0 <-> a == b)).
Proof.
  split; [|split].
  - unfold convert_imu_to_world_yaw. apply py_mod_range. reflexivity.
  - unfold convert_imu_to_world_yaw, py_mod.
    exists (1 - Qfloor ((imu - 90 + 360) / 360))%Z.
    unfold Zminus. rewrite inject_Z_plus, inject_Z_opp.
    change (inject_Z 1) with 1. ring.
  - intros [Ha0 Ha1] [Hb0 Hb1].
    destruct (turn_angle_cases a b) as (Hab & Hab1 & Hab2).
    destruct (turn_angle_cases b a) as (Hba & Hba1 & Hba2).
    rewrite (Qabs_Qminus b a) in Hba, Hba1, Hba2.
    assert (0 <= Qabs (a - b) /\ Qabs (a - b) < 360 /\
            (Qabs (a - b) == 0 <-> a == b)) as (Hd0 & Hd1 & Hdz).
    { destruct (Qabs_cases (a - b)) as [[Hs He]|[Hs He]]; rewrite He;
        (split; [lra|]); (split; [lra|]); split; intros H; lra. }
    set (d := Qabs (a - b)) in *.
    split; [|split; [|split]].
    + destruct Hab as [Hab|Hab]; rewrite Hab; split; lra.
    + destruct Hab as [Hab|Hab], Hba as [Hba|Hba]; lra.
    + intros H. apply Hdz. destruct Hab as [Hab|Hab]; lra.
    + intros H. apply Hdz in H. destruct Hab as [Hab|Hab]; lra.
Qed.

End Headings.

Section PathFollowing.
Import Navigator.
Variable G : graph.
Variable get_direction_vector : Q -> Q * Q.

Lemma index_of_lookup (x : string) (l : list string) (i : nat) :
  NoDup l -> l !! i = Some x -> index_of x l = Some i.
Proof.
  revert i. induction l as [|y l IH]; intros i Hnd Hi; [discriminate Hi|].
  apply NoDup_cons in Hnd as [Hy Hnd]. cbn [index_of].
  destruct i as [|i]; cbn in Hi.
  - injection Hi as ->. rewrite String.eqb_refl. reflexivity.
  - destruct (String.eqb_spec y x) as [->|Hne].
    + exfalso. apply Hy. apply list_elem_of_lookup. exists i. exact Hi.
    + rewrite (IH i Hnd Hi). reflexivity.
Qed.

(** X16.  While the current region lies on the cached path (a path
    without repeated regions) and has a successor there, [update] answers
    NAVIGATING towards that successor and leaves goal and path as they
    are: nothing is replanned, and the heading plays no part, so the
    135-degree turn limit is not applied again along a cached path. *)
Theorem cached_path_is_followed
  (s : t) (goal current next : string) (i : nat) (imu : Q) :
  goal_region s = Some goal -> goal <> ""%string ->
  has_node G current = true -> current <> goal ->
  NoDup (current_path s) ->
  current_path s !! i = Some current ->
  current_path s !! Datatypes.S i = Some next ->
  update G get_direction_vector current imu s =
    (s, inr (Navigating
               (get_direction_vector (angle_to_neighbor G current next))
               next (current_path s))).
Proof.
  intros Hg Hne Hn Hcg Hnd Hi Hnext.
  pose proof (index_of_lookup current (current_path s) i Hnd Hi) as Hidx.
  pose proof (index_of_contains _ _ _ Hidx) as Hc.
  unfold update. rewrite Hg.
  destruct (String.eqb_spec goal ""); [contradiction|].
  rewrite Hn. cbn [negb].
  destruct (String.eqb_spec current goal); [contradiction|].
  destruct (current_path s) as [|p0 ps] eqn:Ep; [discriminate Hi|].
  rewrite Hc. cbn [negb]. rewrite Ep, Hidx, Hnext.
  unfold guidance. rewrite Ep. reflexivity.
Qed.

(** X17.  [set_destination] always drops the cached path.  With a region
    that is not in the network the goal is unset and the next [update]
    answers IDLE; with a known one, the next [update] from another region
    of the network has to plan afresh, and from the goal itself it answers
    GOAL_REACHED. *)
Theorem set_destination_resets (goal current : string) (imu : Q) (s : t) :
  current_path (set_destination G goal s) = [] /\
  (has_node G goal = false ->
   set_destination G goal s = init /\
   update G get_direction_vector current imu (set_destination G goal s) =
     (init, inr Idle)) /\
  (has_node G goal = true -> goal <> ""%string ->
   goal_region (set_destination G goal s) = Some goal /\
   (has_node G current = true -> current <> goal ->
    replans G (set_destination G goal s) current goal) /\
   update G get_direction_vector goal imu (set_destination G goal s) =
     (set_destination G goal s, inr (GoalReached (0, 0)))).
Proof.
  unfold set_destination. split; [|split].
  - destruct (has_node G goal); reflexivity.
  - intros ->. cbn [negb]. split; reflexivity.
  - intros Hn Hne. rewrite Hn. cbn [negb goal_region]. split; [reflexivity|].
    split.
    + intros Hc Hcg. repeat split; try assumption. left. reflexivity.
    + unfold update. cbn [goal_region].
      destruct (String.eqb_spec goal ""); [contradiction|].
      rewrite Hn, String.eqb_refl. reflexivity.
Qed.

(** Whether a neighbour becomes a candidate in [_plan_new_path]. *)
Local Abbreviation passes current goal heading :=
  (fun n : string =>
     negb (Qgtb (turn_to G current heading n) 135) &&
     match shortest_path_length G n goal with
     | Some _ => true
     | None => false
     end).

Lemma candidates_keep_order (current goal : string) (heading : Q)
  (ns : list string) :
  map snd (candidates G current goal heading ns) =
  List.filter (passes current goal heading) ns.
Proof.
  induction ns as [|n ns IH]; [reflexivity|].
  cbn [candidates List.filter].
  destruct (Qgtb (turn_to G current heading n) 135); cbn [negb andb];
    [exact IH|].
  destruct (shortest_path_length G n goal);
    [cbn [map snd]; rewrite IH; reflexivity | exact IH].
Qed.

Lemma min_by_cost_first (l : list (nat * string)) (best : nat * string) :
  exists pre post,
    best :: l = pre ++ min_by_cost best l :: post /\
    Forall (fun y => (fst (min_by_cost best l) < fst y)%nat) pre /\
    Forall (fun y => (fst (min_by_cost best l) <= fst y)%nat) post.
Proof.
  revert best. induction l as [|x l IH]; intros best; cbn [min_by_cost].
  - exists [], []. repeat split; constructor.
  - destruct (Nat.ltb_spec (fst x) (fst best)) as [Hlt|Hge].
    + destruct (IH x) as (pre & post & Heq & Hpre & Hpost).
      exists (best :: pre), post. rewrite Heq. split; [reflexivity|].
      split; [|exact Hpost].
      apply Forall_cons_2; [|exact Hpre].
      assert (fst (min_by_cost x l) <= fst x)%nat; [|lia].
      destruct pre as [|p pre]; cbn [app] in Heq.
      * injection Heq as Hx _. rewrite <- Hx. lia.
      * injection Heq as <- _. apply Forall_cons in Hpre as [Hp _]. lia.
    + destruct (IH best) as (pre & post & Heq & Hpre & Hpost).
      destruct pre as [|p pre]; cbn [app] in Heq.
      * injection Heq as Hb Hl. exists [], (x :: post).
        split; [cbn [app]; congruence|].
        split; [constructor|].
        apply Forall_cons_2; [rewrite <- Hb; exact Hge | exact Hpost].
      * injection Heq as Hp0 Hl. exists (best :: x :: pre), post.
        split; [cbn [app]; congruence|]. split; [|exact Hpost].
        apply Forall_cons in Hpre as [Hp Hpre]. rewrite <- Hp0 in Hp.
        apply Forall_cons_2; [exact Hp|].
        apply Forall_cons_2; [lia | exact Hpre].
Qed.

(** X18.  The candidates of a planning step are exactly the neighbours
    that pass the turn limit and reach the goal, in adjacency order, each
    with the cost 1 + its distance to the goal; so when some neighbour
    passes there are candidates, and the one chosen costs no more than it.
    Among several of least cost the planner takes the first: every
    candidate before the chosen one costs strictly more, every later one
    at least as much. *)
Theorem planner_breaks_ties_by_adjacency (current goal : string) (heading : Q) :
  let cands := candidates G current goal heading (neighbors G current) in
  map snd cands =
    List.filter (passes current goal heading) (neighbors G current) /\
  (forall c n,
     In (c, n) cands <->
     In n (neighbors G current) /\ turn_to G current heading n <= 135 /\
     exists d, shortest_path_length G n goal = Some d /\ c = Datatypes.S d) /\
  (forall n d,
     In n (neighbors G current) -> turn_to G current heading n <= 135 ->
     shortest_path_length G n goal = Some d ->
     exists c cs,
       cands = c :: cs /\
       (fst (min_by_cost c cs) <= Datatypes.S d)%nat /\
       In (snd (min_by_cost c cs)) (neighbors G current)) /\
  (forall c cs,
     cands = c :: cs ->
     exists pre post,
       c :: cs = pre ++ min_by_cost c cs :: post /\
       Forall (fun y => (fst (min_by_cost c cs) < fst y)%nat) pre /\
       Forall (fun y => (fst (min_by_cost c cs) <= fst y)%nat) post).
Proof.
  intros cands. split; [apply candidates_keep_order|].
  split; [intros c n; apply candidates_spec|]. split.
  - intros n d Hn Ht Hd.
    assert (In (Datatypes.S d, n) cands) as Hin.
    { apply candidates_spec. split; [exact Hn|]. split; [exact Ht|].
      exists d. split; [exact Hd | reflexivity]. }
    destruct cands as [|c cs] eqn:Ec; [destruct Hin|].
    exists c, cs. split; [reflexivity|].
    destruct (min_by_cost_spec cs c) as [Hbest Hmin].
    split; [exact (Hmin _ Hin)|].
    rewrite <- Ec in Hbest. destruct (min_by_cost c cs) as [cost best].
    apply candidates_spec in Hbest. exact (proj1 Hbest).
  - intros c cs _. apply min_by_cost_first.
Qed.

End PathFollowing.

Section PathFollowingScenario.
Import Navigator.
Import Scenario.

Lemma cached_path_is_followed_witness :
  update chain chain_direction "B" 270
    {| goal_region := Some "C"%string; current_path := ["A"; "B"; "C"]%string |} =
  ({| goal_region := Some "C"%string; current_path := ["A"; "B"; "C"]%string |},
   inr (Navigating (chain_direction (angle_to_neighbor chain "B" "C"))
          "C" ["A"; "B"; "C"]%string)).
Proof.
  apply (cached_path_is_followed chain chain_direction
           {| goal_region := Some "C"%string;
              current_path := ["A"; "B"; "C"]%string |}
           "C" "B" "C" 1 270).
  - reflexivity.
  - discriminate.
  - reflexivity.
  - discriminate.
  - apply (proj1 (bool_decide_eq_true _)). reflexivity.
  - reflexivity.
  - reflexivity.
Defined.

Lemma planner_breaks_ties_by_adjacency_witness :
  exists c cs,
    candidates chain "B" "C" 90 (neighbors chain "B") = c :: cs /\
    (fst (min_by_cost c cs) <= 1)%nat /\
    In (snd (min_by_cost c cs)) (neighbors chain "B").
Proof.
  refine (proj1 (proj2 (proj2 (planner_breaks_ties_by_adjacency chain "B" "C" 90)))
            "C"%string O _ _ _).
  - right. left. reflexivity.
  - vm_compute. discriminate.
  - reflexivity.
Defined.

End PathFollowingScenario.

(** ** The lidar reader *)

Section LidarFrames.
Import LD19.

Lemma byte_val_range (b : Byte.byte) : (0 <= byte_val b <= 255)%Z.
Proof.
  unfold byte_val. pose proof (Byte.to_N_bounded b) as H. lia.
Qed.

Lemma unpack_H_total (fr : list Byte.byte) (off : nat) :
  (Datatypes.S off < length fr)%nat ->
  exists v, unpack_H fr off = Some v /\ (0 <= v <= 65535)%Z.
Proof.
  intros Hlen. unfold unpack_H.
  destruct (lookup_lt_is_Some_2 fr off ltac:(lia)) as [lo ->].
  destruct (lookup_lt_is_Some_2 fr (Datatypes.S off) Hlen) as [hi ->].
  eexists. split; [reflexivity|].
  pose proof (byte_val_range lo). pose proof (byte_val_range hi). lia.
Qed.

Lemma sample_total (md : Q) (s : Z) (step : Q) (fr : list Byte.byte) (i : nat) :
  length fr = FRAME_LEN -> (i < PTS)%nat ->
  exists d,
    unpack_H fr (6 + i * 3) = Some d /\ (0 <= d <= 65535)%Z /\
    sample md s step fr i =
      Some (Navigator.py_mod
              ((inject_Z s + inject_Z (Z.of_nat i) * step) / 100) 360,
            py_min (inject_Z d / 1000) md).
Proof.
  intros Hlen Hi. unfold FRAME_LEN, PTS in *.
  destruct (unpack_H_total fr (6 + i * 3) ltac:(lia)) as (d & Hd & Hr).
  exists d. split; [exact Hd|]. split; [exact Hr|].
  unfold sample. rewrite Hd. reflexivity.
Qed.

Lemma sample_ranges (md : Q) (s : Z) (step : Q) (fr : list Byte.byte)
  (i : nat) (p : Q * Q) :
  sample md s step fr i = Some p ->
  (0 <= fst p /\ fst p < 360) /\ snd p <= md /\ (0 <= md -> 0 <= snd p).
Proof.
  unfold sample. destruct (unpack_H fr (6 + i * 3)) as [d|] eqn:Hd;
    [|discriminate].
  intros [= <-]. cbn [fst snd]. split; [apply py_mod_range; reflexivity|].
  destruct (py_min_spec (inject_Z d / 1000) md) as (Hc & H1 & H2).
  split; [exact H2|]. intros Hmd.
  assert (0 <= inject_Z d / 1000) as Hdm.
  { unfold unpack_H in Hd.
    destruct (fr !! (6 + i * 3)%nat) as [lo|]; [|discriminate].
    destruct (fr !! Datatypes.S (6 + i * 3)) as [hi|]; [|discriminate].
    injection Hd as <-.
    pose proof (byte_val_range lo). pose proof (byte_val_range hi).
    apply Qle_shift_div_l; [reflexivity|].
    rewrite Qmult_0_l. change 0 with (inject_Z 0). rewrite <- Zle_Qle. lia. }
  destruct Hc as [Hc|Hc]; rewrite Hc; assumption.
Qed.

Lemma floor_unique (x : Q) (z : Z) :
  inject_Z z <= x -> x < inject_Z (z + 1) -> Qfloor x = z.
Proof.
  intros Hlo Hhi.
  pose proof (Qfloor_resp_le _ _ Hlo) as H1. rewrite Qfloor_Z in H1.
  pose proof (Qfloor_le x) as H2.
  assert (inject_Z (Qfloor x) < inject_Z (z + 1)) as H3 by lra.
  rewrite <- Zlt_Qlt in H3. lia.
Qed.

Lemma py_mod_period (x : Q) (k : Z) :
  Navigator.py_mod (x + 360 * inject_Z k) 360 == Navigator.py_mod x 360.
Proof.
  unfold Navigator.py_mod.
  assert (Qfloor ((x + 360 * inject_Z k) / 360) = (Qfloor (x / 360) + k)%Z)
    as ->.
  { apply floor_unique.
    - pose proof (Qfloor_le (x / 360)) as H. rewrite inject_Z_plus.
      assert ((x + 360 * inject_Z k) / 360 == x / 360 + inject_Z k) as ->
          by field.
      lra.
    - pose proof (Qlt_floor (x / 360)) as H.
      rewrite !inject_Z_plus in *.
      assert ((x + 360 * inject_Z k) / 360 == x / 360 + inject_Z k) as ->
          by field.
      lra. }
  rewrite inject_Z_plus. ring.
Qed.

Lemma py_mod_compat (x y : Q) :
  x == y -> Navigator.py_mod x 360 == Navigator.py_mod y 360.
Proof.
  intros H. unfold Navigator.py_mod.
  assert (Qfloor (x / 360) = Qfloor (y / 360)) as ->.
  { apply Qfloor_comp. apply Qdiv_comp; [exact H | reflexivity]. }
  lra.
Qed.

(** X19.  A 47-byte frame always parses, into exactly twelve
    (angle, distance) samples; every angle lies in [0, 360) and every
    distance is at most the cap (and not negative when the cap is not);
    the first sample is at the start angle of the frame and the last at
    its end angle, both read as hundredths of a degree modulo 360. *)
Theorem parse_frame_shape (md : Q) (fr : list Byte.byte) :
  length fr = FRAME_LEN ->
  exists (samples : list (Q * Q)) (s e : Z),
    parse_frame md fr = Some samples /\
    length samples = PTS /\
    Forall (fun p => (0 <= fst p /\ fst p < 360) /\ snd p <= md /\
                     (0 <= md -> 0 <= snd p)) samples /\
    unpack_H fr 4 = Some s /\ unpack_H fr 42 = Some e /\
    (exists p0, samples !! 0%nat = Some p0 /\
                fst p0 == Navigator.py_mod (inject_Z s / 100) 360) /\
    (exists p11, samples !! 11%nat = Some p11 /\
                 fst p11 == Navigator.py_mod (inject_Z e / 100) 360).
Proof.
  intros Hlen. unfold parse_frame.
  destruct (unpack_H_total fr 4) as (s & Hs & Hsr);
    [unfold FRAME_LEN in Hlen; lia|].
  destruct (unpack_H_total fr 42) as (e & He & Her);
    [unfold FRAME_LEN in Hlen; lia|].
  rewrite Hs, He.
  set (span := ((e - s + 36000) mod 36000)%Z).
  set (step := if Nat.ltb 1 PTS
               then inject_Z span / inject_Z (Z.of_nat (PTS - 1)) else 0).
  assert (is_Some (mapM (sample md s step fr) (seq 0 PTS))) as [samples Hm].
  { apply mapM_is_Some. apply List.Forall_forall. intros i Hi.
    apply in_seq in Hi.
    destruct (sample_total md s step fr i Hlen ltac:(lia)) as (d & _ & _ & Hsm).
    change (is_Some (sample md s step fr i)). rewrite Hsm. eexists. reflexivity. }
  exists samples, s, e. rewrite Hm.
  pose proof (length_mapM _ _ _ Hm) as Hl. rewrite length_seq in Hl.
  pose proof (proj1 (mapM_Some _ _ _) Hm) as Hall.
  split; [reflexivity|]. split; [symmetry; exact Hl|]. split.
  - apply List.Forall_forall. intros p Hp.
    apply list_elem_of_In in Hp.
    apply list_elem_of_lookup in Hp as [j Hj].
    destruct (Forall2_lookup_r _ _ _ _ _ Hall Hj) as (i & _ & Hsm).
    exact (sample_ranges md s step fr i p Hsm).
  - split; [reflexivity|]. split; [reflexivity|].
    assert (forall i, (i < PTS)%nat ->
              exists p, samples !! i = Some p /\
                fst p = Navigator.py_mod
                          ((inject_Z s + inject_Z (Z.of_nat i) * step) / 100)
                          360) as Hat.
    { intros i Hi.
      assert (seq 0 PTS !! i = Some i) as Hsi.
      { rewrite lookup_seq. split; [reflexivity | exact Hi]. }
      destruct (Forall2_lookup_l _ _ _ _ _ Hall Hsi) as (p & Hp & Hsm).
      destruct (sample_total md s step fr i Hlen Hi) as (d & _ & _ & Hsm').
      rewrite Hsm' in Hsm. injection Hsm as <-.
      exists (Navigator.py_mod
                ((inject_Z s + inject_Z (Z.of_nat i) * step) / 100) 360,
              py_min (inject_Z d / 1000) md).
      split; [exact Hp | reflexivity]. }
    split.
    + destruct (Hat 0%nat ltac:(unfold PTS; lia)) as (p & Hp & Ha).
      exists p. split; [exact Hp|]. rewrite Ha.
      apply py_mod_compat. change (inject_Z (Z.of_nat 0)) with 0. field.
    + destruct (Hat 11%nat ltac:(unfold PTS; lia)) as (p & Hp & Ha).
      exists p. split; [exact Hp|]. rewrite Ha.
      pose proof (Z.div_mod (e - s + 36000) 36000 ltac:(lia)) as Hdm.
      fold span in Hdm.
      set (k := ((e - s + 36000) / 36000)%Z) in Hdm.
      assert (inject_Z span == inject_Z e - inject_Z s + 36000
                               - 36000 * inject_Z k) as Hspan.
      { assert (span = e - s + 36000 - 36000 * k)%Z as -> by lia.
        unfold Zminus. rewrite !inject_Z_plus, !inject_Z_opp, inject_Z_mult.
        reflexivity. }
      rewrite <- (py_mod_period (inject_Z e / 100) (1 - k)).
      apply py_mod_compat.
      subst step. cbn [Nat.ltb Nat.leb PTS Nat.sub].
      change (inject_Z (Z.of_nat 11)) with 11.
      unfold Zminus. rewrite inject_Z_plus, inject_Z_opp.
      change (inject_Z 1) with 1. rewrite Hspan. field.
Qed.

Lemma parse_frame_shape_witness :
  exists (samples : list (Q * Q)) (s e : Z),
    parse_frame 12 (HEADER ++ replicate 45 Byte.x10) = Some samples /\
    length samples = PTS /\
    Forall (fun p => (0 <= fst p /\ fst p < 360) /\ snd p <= 12 /\
                     (0 <= 12 -> 0 <= snd p)) samples /\
    unpack_H (HEADER ++ replicate 45 Byte.x10) 4 = Some s /\
    unpack_H (HEADER ++ replicate 45 Byte.x10) 42 = Some e /\
    (exists p0, samples !! 0%nat = Some p0 /\
                fst p0 == Navigator.py_mod (inject_Z s / 100) 360) /\
    (exists p11, samples !! 11%nat = Some p11 /\
                 fst p11 == Navigator.py_mod (inject_Z e / 100) 360).
Proof.
  apply (parse_frame_shape 12 (HEADER ++ replicate 45 Byte.x10)).
  reflexivity.
Defined.

End LidarFrames.

Section LidarBuckets.
Import LD19.

Lemma circ_diff_range (logical tgt : Q) :
  0 <= logical /\ logical < 360 -> 0 <= tgt /\ tgt < 360 ->
  0 <= circ_diff logical tgt /\ circ_diff logical tgt <= 180.
Proof.
  intros [Hl0 Hl1] [Ht0 Ht1]. unfold circ_diff.
  destruct (Qabs_cases (logical - tgt)) as [[Hs He]|[Hs He]];
    destruct (Qgtb (Qabs (logical - tgt)) 180) eqn:E;
    try apply Qgtb_true in E; try apply Qgtb_false in E;
    rewrite He in *; split; lra.
Qed.

(** What the scan returns: the running answer when no target improves on
    it, and otherwise a target within the tolerance that is nearest. *)
Lemma bucket_scan_spec (w logical : Q) (tgts : list Q) :
  Forall (fun t => 0 <= circ_diff logical t) tgts ->
  forall (i : nat) (best : Q) (idx : option nat),
    (bucket_scan w logical tgts i best idx = idx /\
     Forall (fun t' => w < circ_diff logical t' \/ best <= circ_diff logical t')
            tgts) \/
    (exists k t,
       bucket_scan w logical tgts i best idx = Some k /\
       (i <= k)%nat /\ tgts !! (k - i)%nat = Some t /\
       circ_diff logical t <= w /\ circ_diff logical t < best /\
       Forall (fun t' => w < circ_diff logical t' \/
                         circ_diff logical t <= circ_diff logical t') tgts).
Proof.
  induction tgts as [|tgt rest IH]; intros Hnn i best idx.
  - left. split; [reflexivity | constructor].
  - apply Forall_cons in Hnn as [Hnn0 Hnn].
    cbn [bucket_scan].
    destruct (Qle_bool (circ_diff logical tgt) w) eqn:Ew;
      [destruct (Qgtb best (circ_diff logical tgt)) eqn:Eb|]; cbn [andb].
    + apply Qle_bool_iff in Ew. apply Qgtb_true in Eb.
      destruct (Qeq_bool (circ_diff logical tgt) 0) eqn:Ez.
      * apply Qeq_bool_iff in Ez. right. exists i, tgt.
        split; [reflexivity|]. split; [lia|].
        rewrite Nat.sub_diag. split; [reflexivity|].
        split; [exact Ew|]. split; [exact Eb|].
        apply Forall_cons_2; [right; lra|].
        eapply Forall_impl; [exact Hnn|]. intros t' Ht'. cbn in Ht'. right. lra.
      * right.
        destruct (IH Hnn (Datatypes.S i) (circ_diff logical tgt) (Some i))
          as [[Hr Hall]|(k & t & Hr & Hk & Ht & Htw & Htb & Hall)].
        -- exists i, tgt. split; [exact Hr|]. split; [lia|].
           rewrite Nat.sub_diag. split; [reflexivity|].
           split; [exact Ew|]. split; [exact Eb|].
           apply Forall_cons_2; [right; lra | exact Hall].
        -- exists k, t. split; [exact Hr|]. split; [lia|].
           replace (k - i)%nat with (Datatypes.S (k - Datatypes.S i)) by lia.
           split; [exact Ht|]. split; [exact Htw|]. split; [lra|].
           apply Forall_cons_2; [right; lra | exact Hall].
    + apply Qgtb_false in Eb.
      destruct (IH Hnn (Datatypes.S i) best idx)
        as [[Hr Hall]|(k & t & Hr & Hk & Ht & Htw & Htb & Hall)].
      * left. split; [exact Hr|]. apply Forall_cons_2; [right; exact Eb | exact Hall].
      * right. exists k, t. split; [exact Hr|]. split; [lia|].
        replace (k - i)%nat with (Datatypes.S (k - Datatypes.S i)) by lia.
        split; [exact Ht|]. split; [exact Htw|]. split; [exact Htb|].
        apply Forall_cons_2; [right; lra | exact Hall].
    + assert (w < circ_diff logical tgt) as Hw.
      { apply Qnot_le_lt. intros H. apply Qle_bool_iff in H. congruence. }
      destruct (IH Hnn (Datatypes.S i) best idx)
        as [[Hr Hall]|(k & t & Hr & Hk & Ht & Htw & Htb & Hall)].
      * left. split; [exact Hr|]. apply Forall_cons_2; [left; exact Hw | exact Hall].
      * right. exists k, t. split; [exact Hr|]. split; [lia|].
        replace (k - i)%nat with (Datatypes.S (k - Datatypes.S i)) by lia.
        split; [exact Ht|]. split; [exact Htw|]. split; [exact Htb|].
        apply Forall_cons_2; [left; exact Hw | exact Hall].
Qed.

Lemma init_targets_range (angles : list Q) (resolution off dist_max : Q) :
  Forall (fun t => 0 <= t /\ t < 360)
         (targets (init angles resolution off dist_max)).
Proof.
  unfold init. cbn [targets]. apply List.Forall_forall. intros t Ht.
  apply in_map_iff in Ht as (a & <- & _). apply py_mod_range. reflexivity.
Qed.

(** X20.  With targets in [0, 360), as [__init__] makes them,
    [_bucket_index] answers with the index of a target nearest (on the
    circle) to the offset-corrected angle, provided that target is within
    the tolerance; it answers [None] exactly when no target is.  An index
    it returns is always within the list. *)
Theorem bucket_index_nearest (l : t) (physical_angle : Q) :
  Forall (fun t => 0 <= t /\ t < 360) (targets l) ->
  let logical := Navigator.py_mod (physical_angle + offset l) 360 in
  match bucket_index l physical_angle with
  | Some k =>
      (k < length (targets l))%nat /\
      exists t, targets l !! k = Some t /\
                circ_diff logical t <= w l /\
                forall t', In t' (targets l) ->
                           circ_diff logical t <= circ_diff logical t'
  | None => forall t', In t' (targets l) -> w l < circ_diff logical t'
  end.
Proof.
  intros Htg logical.
  assert (Forall (fun t => 0 <= circ_diff logical t) (targets l)) as Hnn.
  { eapply Forall_impl; [exact Htg|]. intros t Ht. cbn.
    apply circ_diff_range; [apply py_mod_range; reflexivity | exact Ht]. }
  unfold bucket_index. fold logical.
  destruct (bucket_scan_spec (w l) logical (targets l) Hnn 0 (w l + 1) None)
    as [[Hr Hall]|(k & t & Hr & _ & Ht & Htw & _ & Hall)]; rewrite Hr.
  - intros t' Ht'. rewrite List.Forall_forall in Hall.
    destruct (Hall t' Ht') as [H|H]; lra.
  - rewrite Nat.sub_0_r in Ht. split; [exact (lookup_lt_Some _ _ _ Ht)|].
    exists t. split; [exact Ht|]. split; [exact Htw|].
    intros t' Ht'. rewrite List.Forall_forall in Hall.
    destruct (Hall t' Ht') as [H|H]; lra.
Qed.

Lemma bucket_index_nearest_witness :
  let logical := Navigator.py_mod (226 + offset default) 360 in
  match bucket_index default 226 with
  | Some k =>
      (k < length (targets default))%nat /\
      exists t, targets default !! k = Some t /\
                circ_diff logical t <= w default /\
                forall t', In t' (targets default) ->
                           circ_diff logical t <= circ_diff logical t'
  | None => forall t', In t' (targets default) -> w default < circ_diff logical t'
  end.
Proof.
  apply (bucket_index_nearest default 226).
  apply init_targets_range.
Defined.

Lemma bucket_index_lt (l : t) (ang : Q) (k : nat) :
  bucket_index l ang = Some k -> (k < length (targets l))%nat.
Proof.
  unfold bucket_index.
  set (logical := Navigator.py_mod (ang + offset l) 360).
  assert (forall tgts i best idx,
            (forall j, idx = Some j -> (j < i)%nat) ->
            bucket_scan (w l) logical tgts i best idx = Some k ->
            (k < i + length tgts)%nat) as Hgen.
  { induction tgts as [|tgt rest IH]; intros i best idx Hidx; cbn [bucket_scan length].
    - intros ->. specialize (Hidx k eq_refl). lia.
    - destruct (Qle_bool _ _ && Qgtb _ _).
      + destruct (Qeq_bool _ 0).
        * intros [= <-]. lia.
        * intros H. apply IH in H; [lia|]. intros j [= <-]. lia.
      + intros H. apply IH in H; [lia|].
        intros j Hj. specialize (Hidx j Hj). lia. }
  intros H. apply Hgen in H; [exact H|]. intros j Hj. discriminate Hj.
Qed.

End LidarBuckets.

Section LidarReadLoop.
Import LD19.

(** The condition under which a pair enters [frame_updates]. *)
Local Abbreviation valid l :=
  (fun kv : nat * Q =>
     (0.01 < snd kv /\ snd kv <= max_dist l) /\
     Nat.lt (fst kv) (length (targets l))).

Lemma updates_set_valid (P : nat * Q -> Prop) (d : list (nat * Q))
  (idx : nat) (dist : Q) :
  Forall P d -> P (idx, dist) -> Forall P (updates_set d idx dist).
Proof.
  intros Hd Hp. induction d as [|[k v] d IH]; cbn [updates_set].
  - apply Forall_cons_2; [exact Hp | constructor].
  - apply Forall_cons in Hd as [Hkv Hd].
    destruct (Nat.eqb_spec k idx) as [->|Hne].
    + apply Forall_cons_2; assumption.
    + apply Forall_cons_2; [exact Hkv | exact (IH Hd)].
Qed.

Lemma frame_updates_valid (l : t) (samples : list (Q * Q)) (acc : list (nat * Q)) :
  Forall (fun p => snd p <= max_dist l) samples ->
  Forall (valid l) acc ->
  Forall (valid l) (frame_updates l samples acc).
Proof.
  revert acc. induction samples as [|[ang dist] rest IH]; intros acc Hs Hacc;
    cbn [frame_updates]; [exact Hacc|].
  apply Forall_cons in Hs as [Hd Hs]. cbn [snd] in Hd.
  destruct (Qgtb dist 0.01) eqn:E; [|exact (IH acc Hs Hacc)].
  apply Qgtb_true in E.
  destruct (bucket_index l ang) as [idx|] eqn:Eb; [|exact (IH acc Hs Hacc)].
  apply IH; [exact Hs|].
  apply updates_set_valid; [exact Hacc|].
  cbn [fst snd]. split; [split; assumption|]. exact (bucket_index_lt l ang idx Eb).
Qed.

Lemma apply_updates_ok (l : t) (ups : list (nat * Q)) (lat : list (option Q)) :
  Forall (valid l) ups ->
  stored_ok (with_latest lat l) ->
  stored_ok (with_latest (apply_updates lat ups) l).
Proof.
  revert lat. induction ups as [|[k d] ups IH]; intros lat Hu Hok;
    cbn [apply_updates fold_left]; [exact Hok|].
  apply Forall_cons in Hu as [[[Hd0 Hd1] Hk] Hu]. cbn [fst snd] in *.
  apply (IH (<[k := Some d]> lat) Hu).
  destruct Hok as [Hlen Hall]. cbn [with_latest latest targets max_dist] in *.
  split; cbn [with_latest latest targets max_dist].
  - rewrite length_insert. exact Hlen.
  - apply Forall_insert; [exact Hall|]. split; assumption.
Qed.

Lemma with_latest_same (l : t) : with_latest (latest l) l = l.
Proof. destruct l. reflexivity. Qed.

(** What the inner loop guarantees when it has fuel for the whole buffer. *)
Lemma consume_spec (fuel : nat) :
  forall (l : t) (buf : list Byte.byte),
    (length buf <= fuel)%nat -> stored_ok l ->
    let r := consume fuel l buf in
    (length (snd r) < FRAME_LEN)%nat /\
    (exists pre, buf = pre ++ snd r) /\
    stored_ok (fst r) /\
    targets (fst r) = targets l /\ w (fst r) = w l /\
    offset (fst r) = offset l /\ max_dist (fst r) = max_dist l.
Proof.
  induction fuel as [|fuel IH]; intros l buf Hfuel Hok r; subst r;
    cbn [consume].
  - destruct buf; [|cbn in Hfuel; lia].
    cbn [fst snd length]. unfold FRAME_LEN. split; [lia|].
    split; [exists []; reflexivity|]. repeat split; try reflexivity; apply Hok.
  - destruct (Nat.leb_spec FRAME_LEN (length buf)) as [Hge|Hlt].
    + destruct (is_header (take 2 buf)).
      * destruct (parse_frame_shape (max_dist l) (take FRAME_LEN buf))
          as (samples & s & e & Hp & _ & Hall & _).
        { rewrite length_take. lia. }
        rewrite Hp.
        assert (stored_ok
                  (with_latest
                     (apply_updates (latest l) (frame_updates l samples [])) l))
          as Hok'.
        { apply apply_updates_ok.
          - apply frame_updates_valid; [|constructor].
            eapply Forall_impl; [exact Hall|]. intros p Hpp.
            exact (proj1 (proj2 Hpp)).
          - rewrite with_latest_same. exact Hok. }
        specialize (IH _ (drop FRAME_LEN buf)
                      ltac:(rewrite length_drop; unfold FRAME_LEN in *; lia) Hok').
        cbv zeta in IH. destruct IH as (H1 & [pre H2] & H3 & H4 & H5 & H6 & H7).
        cbn [with_latest targets w offset max_dist] in H4, H5, H6, H7.
        split; [exact H1|]. split.
        -- exists (take FRAME_LEN buf ++ pre).
           rewrite <- app_assoc, <- H2, take_drop. reflexivity.
        -- split; [exact H3|]. repeat split; assumption.
      * specialize (IH l (drop 1 buf)
                      ltac:(rewrite length_drop; unfold FRAME_LEN in *; lia) Hok).
        cbv zeta in IH. destruct IH as (H1 & [pre H2] & H3).
        split; [exact H1|]. split; [|exact H3].
        exists (take 1 buf ++ pre).
        rewrite <- app_assoc, <- H2, take_drop. reflexivity.
    + cbn [fst snd]. split; [exact Hlt|]. split; [exists []; reflexivity|].
      repeat split; try reflexivity; apply Hok.
Qed.

Lemma read_all_spec (chunks : list (list Byte.byte)) :
  forall (l : t) (buf : list Byte.byte),
    stored_ok l -> (length buf < FRAME_LEN)%nat ->
    let r := read_all chunks (l, buf) in
    stored_ok (fst r) /\
    (length (snd r) < FRAME_LEN)%nat /\
    (exists pre, buf ++ concat chunks = pre ++ snd r) /\
    targets (fst r) = targets l /\ max_dist (fst r) = max_dist l.
Proof.
  induction chunks as [|data chunks IH]; intros l buf Hok Hlen;
    cbn [read_all fold_left concat].
  - cbn [fst snd]. split; [exact Hok|]. split; [exact Hlen|].
    split; [exists []; rewrite app_nil_r; reflexivity|]. split; reflexivity.
  - fold (read_all chunks (read_chunk data (l, buf))).
    assert (let r1 := read_chunk data (l, buf) in
            stored_ok (fst r1) /\ (length (snd r1) < FRAME_LEN)%nat /\
            (exists pre, buf ++ data = pre ++ snd r1) /\
            targets (fst r1) = targets l /\ max_dist (fst r1) = max_dist l)
      as Hstep.
    { unfold read_chunk. destruct data as [|b data].
      - cbn [fst snd]. split; [exact Hok|]. split; [exact Hlen|].
        split; [exists []; rewrite app_nil_r; reflexivity|]. split; reflexivity.
      - pose proof (consume_spec (length (buf ++ b :: data)) l
                      (buf ++ b :: data) ltac:(lia) Hok) as H.
        cbv zeta in H. destruct H as (H1 & H2 & H3 & H4 & _ & _ & H7).
        split; [exact H3|]. split; [exact H1|]. split; [exact H2|].
        split; [exact H4 | exact H7]. }
    cbv zeta in Hstep.
    destruct (read_chunk data (l, buf)) as [l1 buf1]. cbn [fst snd] in Hstep.
    destruct Hstep as (Hok1 & Hlen1 & [pre1 Hpre1] & Ht1 & Hm1).
    specialize (IH l1 buf1 Hok1 Hlen1). cbv zeta in IH.
    destruct IH as (H1 & H2 & [pre2 Hpre2] & H4 & H5).
    split; [exact H1|]. split; [exact H2|]. split.
    + exists (pre1 ++ pre2).
      rewrite app_assoc, Hpre1, <- !app_assoc, Hpre2. reflexivity.
    + split; congruence.
Qed.

Lemma init_stored_ok (angles : list Q) (resolution off dist_max : Q) :
  stored_ok (init angles resolution off dist_max).
Proof.
  unfold stored_ok, init. cbn [latest targets max_dist].
  split; [apply length_replicate|].
  apply Forall_replicate. exact I.
Qed.

(** X21.  Whatever bytes arrive and however they are cut into chunks, the
    read loop leaves fewer than 47 bytes waiting, and these are a tail of
    what was received; the scan keeps one slot per target; and every slot
    is empty or holds a distance above 0.01 m and no greater than the cap:
    a zero or invalid sample never overwrites a slot. *)
Theorem read_loop_invariant
  (chunks : list (list Byte.byte)) (l : t) (buf : list Byte.byte) :
  stored_ok l -> (length buf < FRAME_LEN)%nat ->
  let r := read_all chunks (l, buf) in
  (length (snd r) < FRAME_LEN)%nat /\
  (exists pre, buf ++ concat chunks = pre ++ snd r) /\
  length (get_scan (fst r)) = length (targets l) /\
  targets (fst r) = targets l /\
  (forall k d, get_scan (fst r) !! k = Some (Some d) ->
               0.01 < d /\ d <= max_dist l).
Proof.
  intros Hok Hlen r.
  destruct (read_all_spec chunks l buf Hok Hlen) as (H1 & H2 & H3 & H4 & H5).
  fold r in H1, H2, H3, H4, H5.
  split; [exact H2|]. split; [exact H3|].
  destruct H1 as [Hl Hall]. unfold get_scan.
  split; [rewrite Hl, H4; reflexivity|]. split; [exact H4|].
  intros k d Hk. rewrite <- H5.
  exact (Forall_lookup_1 _ _ _ _ Hall Hk).
Qed.

Lemma read_loop_invariant_witness :
  let r := read_all [HEADER ++ replicate 20 Byte.x10;
                     replicate 30 Byte.x10] (default, []) in
  (length (snd r) < FRAME_LEN)%nat /\
  (exists pre, [] ++ concat [HEADER ++ replicate 20 Byte.x10;
                             replicate 30 Byte.x10] = pre ++ snd r) /\
  length (get_scan (fst r)) = length (targets default) /\
  targets (fst r) = targets default /\
  (forall k d, get_scan (fst r) !! k = Some (Some d) ->
               0.01 < d /\ d <= max_dist default).
Proof.
  apply (read_loop_invariant
           [HEADER ++ replicate 20 Byte.x10; replicate 30 Byte.x10] default []).
  - apply init_stored_ok.
  - unfold FRAME_LEN. cbn [length]. lia.
Defined.

(** X22.  With the default lidar ([LD19()]: 28 targets, 12 m cap) and the
    default [epsilon = 0.1], after any bytes received the reciprocal scan
    has 28 entries, each within [1/12.1, 1/0.11): a slot never filled
    reads as the farthest distance.  An observation carrying it gives the
    policy an input of 34 entries, the input size of [GaussianPolicy]. *)
Theorem default_scan_feeds_policy (chunks : list (list Byte.byte)) :
  let l := fst (read_all chunks (default, [])) in
  length (get_recip_scan 0.1 l) = 28%nat /\
  Forall (fun v => 1 / 12.1 <= v /\ v < 1 / 0.11) (get_recip_scan 0.1 l) /\
  (forall (last : Inference.action) (obs : Inference.observation),
     Inference.lidar obs = get_recip_scan 0.1 l ->
     length (Inference.obs_to_tensor last obs) = 34%nat).
Proof.
  intros l.
  destruct (read_all_spec chunks default [] (init_stored_ok _ _ _ _)
              ltac:(unfold FRAME_LEN; cbn [length]; lia))
    as ([Hlen Hall] & _ & _ & Ht & Hm).
  fold l in Hlen, Hall, Ht, Hm.
  assert (length (get_recip_scan 0.1 l) = 28%nat) as H28.
  { unfold get_recip_scan. rewrite length_map, Hlen, Ht. reflexivity. }
  split; [exact H28|]. split.
  - unfold get_recip_scan. apply List.Forall_forall. intros v Hv.
    apply in_map_iff in Hv as (d & <- & Hd).
    rewrite List.Forall_forall in Hall. specialize (Hall d Hd).
    rewrite Hm. change (max_dist default) with 12 in *.
    destruct d as [d|].
    + destruct Hall as [H0 H1]. rewrite Hm in H1.
      change (max_dist default) with 12 in H1.
      split.
      * apply Qle_shift_div_l; [lra|].
        assert (1 / 12.1 * (0.1 + d) == (0.1 + d) / 12.1) as -> by field.
        apply Qle_shift_div_r; [reflexivity | lra].
      * apply Qlt_shift_div_r; [lra|].
        assert (1 / 0.11 * (0.1 + d) == (0.1 + d) / 0.11) as -> by field.
        apply Qlt_shift_div_l; [reflexivity | lra].
    + split; [vm_compute; discriminate | reflexivity].
  - intros last obs Hobs. unfold Inference.obs_to_tensor.
    rewrite !length_app, Hobs, H28. reflexivity.
Qed.

End LidarReadLoop.

(** ** Histories of the shared state *)

Section StateHistories.
Import Py.
Import SharedState.
Import StateOps.

Lemma keys_ok_insert (h : Py.heap) (l : loc) (o : obj) :
  keys_ok h ->
  match o with ODict kvs => NoDup (map fst kvs) | OList _ => True end ->
  keys_ok (<[l := o]> h).
Proof. intros Hh Ho. apply Forall_insert; assumption. Qed.

Lemma keys_ok_lookup (h : Py.heap) (l : loc) (kvs : list (string * value)) :
  keys_ok h -> h !! l = Some (ODict kvs) -> NoDup (map fst kvs).
Proof.
  intros Hh Hl. exact (Forall_lookup_1 _ _ _ _ Hh Hl).
Qed.

Lemma keys_ok_list_append (l : loc) (x : value) (h : Py.heap) :
  keys_ok h -> keys_ok (list_append l x h).
Proof.
  intros Hh. unfold list_append.
  destruct (h !! l) as [[xs|kvs]|]; try exact Hh.
  apply keys_ok_insert; [exact Hh | exact I].
Qed.

Lemma keys_ok_dict_store (l : loc) (k : string) (x : value) (h : Py.heap) :
  keys_ok h -> keys_ok (dict_store l k x h).
Proof.
  intros Hh. unfold dict_store.
  destruct (h !! l) as [[xs|kvs]|] eqn:E; try exact Hh.
  apply keys_ok_insert; [exact Hh|].
  apply dict_set_nodup. exact (keys_ok_lookup h l kvs Hh E).
Qed.

Local Abbreviation keeps_keys rec :=
  (forall v st v' st',
     rec v st = Some (v', st') -> keys_ok (c_heap st) -> keys_ok (c_heap st')).

Lemma copy_list_items_keys rec l' :
  keeps_keys rec ->
  forall xs st st',
    copy_list_items rec l' xs st = Some st' ->
    keys_ok (c_heap st) -> keys_ok (c_heap st').
Proof.
  intros Hrec. induction xs as [|x xs IH]; intros st st' Hrun Hk;
    cbn [copy_list_items] in Hrun.
  - injection Hrun as <-. exact Hk.
  - destruct (rec x st) as [[x' st1]|] eqn:E; [|discriminate].
    apply (IH _ _ Hrun). cbn [c_heap].
    apply keys_ok_list_append. exact (Hrec _ _ _ _ E Hk).
Qed.

Lemma copy_dict_items_keys rec l' :
  keeps_keys rec ->
  forall kvs st st',
    copy_dict_items rec l' kvs st = Some st' ->
    keys_ok (c_heap st) -> keys_ok (c_heap st').
Proof.
  intros Hrec. induction kvs as [|[k x] kvs IH]; intros st st' Hrun Hk;
    cbn [copy_dict_items] in Hrun.
  - injection Hrun as <-. exact Hk.
  - destruct (rec x st) as [[x' st1]|] eqn:E; [|discriminate].
    apply (IH _ _ Hrun). cbn [c_heap].
    apply keys_ok_dict_store. exact (Hrec _ _ _ _ E Hk).
Qed.

Lemma keys_ok_enter (l : loc) (o : obj) (st : cstate) :
  keys_ok (c_heap st) ->
  match o with ODict kvs => NoDup (map fst kvs) | OList _ => True end ->
  keys_ok (c_heap (enter l o st)).
Proof.
  intros Hk Ho. unfold enter. cbn [c_heap]. apply Forall_app. split; [exact Hk|].
  apply Forall_cons_2; [exact Ho | apply Forall_nil_2].
Qed.

Lemma deepcopy_keys (fuel : nat) : keeps_keys (deepcopy fuel).
Proof.
  induction fuel as [|fuel IH]; intros v st v' st' Hrun Hk;
    (destruct v as [| | | | | |l]; [injection Hrun as _ <-; exact Hk ..|]);
    cbn [deepcopy] in Hrun;
    (destruct (c_memo st !! l) as [lc|]; [injection Hrun as _ <-; exact Hk|]).
  - discriminate Hrun.
  - destruct (c_heap st !! l) as [[xs|kvs]|]; [| |discriminate].
    + destruct (copy_list_items _ _ _ _) as [st1|] eqn:E; [|discriminate].
      injection Hrun as _ <-.
      apply (copy_list_items_keys _ _ IH _ _ _ E).
      apply keys_ok_enter; [exact Hk | exact I].
    + destruct (copy_dict_items _ _ _ _) as [st1|] eqn:E; [|discriminate].
      injection Hrun as _ <-.
      apply (copy_dict_items_keys _ _ IH _ _ _ E).
      apply keys_ok_enter; [exact Hk | apply NoDup_nil_2].
Qed.

Lemma heap_wf_keys (h : Py.heap) : heap_wf h -> keys_ok h.
Proof.
  intros H. eapply Forall_impl; [exact H|].
  intros [xs|kvs] [_ Hk]; exact Hk.
Qed.

(** A snapshot leaves a well-formed state behind, with the stored objects
    as they were. *)
Lemma snapshot_wf (s : t) :
  wf s ->
  exists root s2,
    snapshot s = Some (root, s2) /\ wf s2 /\ data s2 = data s /\
    (length (heap s) <= length (heap s2))%nat /\
    (forall a, (a < length (heap s))%nat -> heap s2 !! a = heap s !! a).
Proof.
  intros Hwf.
  destruct (snapshot_spec s Hwf) as (root & s2 & m & Hsnap & Hdata & Hc & _ & _).
  exists root, s2. split; [exact Hsnap|].
  pose proof (copying_old _ _ Hc) as Hold.
  pose proof (copying_grows _ _ Hc) as Hgrow.
  cbn [c_heap] in Hold, Hgrow.
  assert (keys_ok (heap s2)) as Hkeys.
  { unfold snapshot in Hsnap.
    destruct (deepcopy _ _ _) as [[v st]|] eqn:E; [|discriminate].
    destruct v as [| | | | | |r]; try discriminate.
    injection Hsnap as _ <-. cbn [heap].
    apply (deepcopy_keys _ _ _ _ _ E). cbn [c_heap].
    apply heap_wf_keys. exact (proj1 Hwf). }
  split; [|split; [exact Hdata|split; [exact Hgrow | exact Hold]]].
  destruct Hwf as [Hh [d Hd]]. split.
  - unfold heap_wf. apply Forall_lookup_2. intros a o Ho.
    destruct (Nat.lt_ge_cases a (length (heap s))) as [Hlt|Hge].
    + rewrite (Hold a Hlt) in Ho.
      apply (obj_wf_mono (length (heap s))); [exact Hgrow|].
      exact (heap_wf_lookup _ _ _ Hh Ho).
    + split.
      * pose proof (copying_new _ _ Hc a o Hge Ho) as Hf. cbn [c_heap] in Hf.
        eapply Forall_impl; [exact Hf|].
        intros v Hv. destruct v; cbn in *; try exact I. lia.
      * pose proof (Forall_lookup_1 _ _ _ _ Hkeys Ho) as Hk.
        destruct o; exact Hk.
  - exists d. rewrite Hdata.
    rewrite (Hold (data s) (lookup_lt_Some _ _ _ Hd)). exact Hd.
Qed.

Lemma entry_of_old (s s2 : t) (who : string) :
  wf s -> data s2 = data s ->
  (forall a, (a < length (heap s))%nat -> heap s2 !! a = heap s !! a) ->
  entry_of s2 who = entry_of s who.
Proof.
  intros [Hh [d Hd]] Hdata Hold. unfold entry_of.
  rewrite Hdata, (Hold _ (lookup_lt_Some _ _ _ Hd)), Hd.
  destruct (dict_get d who) as [[| | | | | |l]|] eqn:Eg; try reflexivity.
  rewrite Hold; [reflexivity|].
  destruct (heap_wf_lookup _ _ _ Hh Hd) as [Hc _]. cbn [fields] in Hc.
  apply dict_get_In in Eg.
  rewrite List.Forall_forall in Hc.
  apply (Hc (VRef l)). apply in_map_iff. exists (who, VRef l).
  split; [reflexivity | exact Eg].
Qed.

(** What a [put] leaves alone. *)
Lemma put_frame (s s1 : t) (now : Q) (who : string) (kv : list (string * value)) :
  wf s -> entries_apart s ->
  put now who kv s = Some s1 ->
  entries_apart s1 /\
  length (heap s1) = Datatypes.S (length (heap s)) /\
  (forall a, (a < length (heap s))%nat -> a <> data s ->
             heap s1 !! a = heap s !! a) /\
  (forall who', who' <> who -> entry_of s1 who' = entry_of s who').
Proof.
  intros [Hh [d Hd]] Hap Hput. unfold put in Hput.
  pose proof (lookup_lt_Some _ _ _ Hd) as Hlt.
  rewrite lookup_app_l, Hd in Hput by exact Hlt.
  injection Hput as <-. cbn [heap data].
  assert (forall a, (a < length (heap s))%nat -> a <> data s ->
            <[data s := ODict (dict_set d who (VRef (length (heap s))))]>
              (heap s ++ [ODict (safe_entry now kv)]) !! a = heap s !! a)
    as Hframe.
  { intros a Ha Hne. rewrite list_lookup_insert_ne by congruence.
    apply lookup_app_l. exact Ha. }
  split; [|split; [|split; [exact Hframe|]]].
  - intros d' who' Hd'. cbn [heap data] in Hd'.
    rewrite list_lookup_insert_eq in Hd' by (rewrite length_app; lia).
    injection Hd' as <-.
    destruct (String.eqb_spec who who') as [<-|Hne].
    + rewrite dict_get_set_eq. intros [= H]. lia.
    + rewrite dict_get_set_ne by exact Hne. exact (Hap d who' Hd).
  - rewrite length_insert, length_app. cbn [length]. lia.
  - intros who' Hne. unfold entry_of. cbn [heap data].
    rewrite list_lookup_insert_eq by (rewrite length_app; lia).
    rewrite dict_get_set_ne by congruence. rewrite Hd.
    destruct (dict_get d who') as [[| | | | | |l]|] eqn:Eg; try reflexivity.
    rewrite Hframe; [reflexivity| |].
    + destruct (heap_wf_lookup _ _ _ Hh Hd) as [Hc _]. cbn [fields] in Hc.
      apply dict_get_In in Eg. rewrite List.Forall_forall in Hc.
      apply (Hc (VRef l)). apply in_map_iff. exists (who', VRef l).
      split; [reflexivity | exact Eg].
    + intros ->. exact (Hap d who' Hd Eg).
Qed.

Lemma op_ok_mono (n n' : nat) (o : op) : (n <= n')%nat -> op_ok n o -> op_ok n' o.
Proof.
  intros Hn. destruct o as [now who kv|]; [|exact id].
  intros [Hc Hk]. split; [|exact Hk].
  eapply Forall_impl; [exact Hc|]. intros v. apply value_closed_mono. exact Hn.
Qed.

Lemma run_history (ops : list op) :
  forall s : t,
    wf s -> entries_apart s -> Forall (op_ok (length (heap s))) ops ->
    exists s' roots,
      run ops s = Some (s', roots) /\ wf s' /\ entries_apart s' /\
      data s' = data s /\
      length roots = snapshots ops /\
      (length (heap s) <= length (heap s'))%nat /\
      (forall who,
         entry_of s' who =
         match last_put who ops with
         | Some (now, kv) => Some (safe_entry now kv)
         | None => entry_of s who
         end) /\
      (forall a, (a < length (heap s))%nat -> a <> data s ->
                 heap s' !! a = heap s !! a).
Proof.
  induction ops as [|o ops IH]; intros s Hwf Hap Hops.
  - exists s, []. split; [reflexivity|]. repeat split; try assumption.
    + apply Hwf.
    + apply Hwf.
    + lia.
  - apply Forall_cons in Hops as [Ho Hops]. destruct o as [now who kv|].
    + destruct Ho as [Hc Hk].
      destruct (put_spec s now who kv Hwf Hc Hk) as (s1 & Hput & Hwf1 & Hd1 & He1).
      destruct (put_frame s s1 now who kv Hwf Hap Hput) as (Hap1 & Hl1 & Hf1 & Ho1).
      destruct (IH s1 Hwf1 Hap1) as (s' & roots & Hrun & Hwf' & Hap' & Hd' & Hn & Hlen & Hent & Hfr).
      { eapply Forall_impl; [exact Hops|]. intros o. apply op_ok_mono. lia. }
      exists s', roots. cbn [run]. rewrite Hput.
      split; [exact Hrun|]. split; [exact Hwf'|]. split; [exact Hap'|].
      split; [congruence|]. split; [exact Hn|]. split; [lia|]. split.
      * intros who'. rewrite Hent. cbn [last_put].
        destruct (last_put who' ops) as [[now' kv']|]; [reflexivity|].
        destruct (String.eqb_spec who who') as [<-|Hne]; [exact He1|].
        apply Ho1. congruence.
      * intros a Ha Hne. rewrite Hfr by (rewrite ?Hd1; lia || congruence).
        apply Hf1; assumption.
    + destruct (snapshot_wf s Hwf) as (root & s1 & Hsnap & Hwf1 & Hd1 & Hl1 & Hold).
      assert (entries_apart s1) as Hap1.
      { intros d who Hd. rewrite Hd1 in Hd |- *.
        rewrite Hold in Hd by (destruct Hwf as [_ [d0 Hd0]];
                               exact (lookup_lt_Some _ _ _ Hd0)).
        exact (Hap d who Hd). }
      destruct (IH s1 Hwf1 Hap1) as (s' & roots & Hrun & Hwf' & Hap' & Hd' & Hn & Hlen & Hent & Hfr).
      { eapply Forall_impl; [exact Hops|]. intros o. apply op_ok_mono. lia. }
      exists s', (root :: roots). cbn [run]. rewrite Hsnap, Hrun.
      split; [reflexivity|]. split; [exact Hwf'|]. split; [exact Hap'|].
      split; [congruence|]. split; [cbn [length]; unfold snapshots in *;
                                    cbn [List.filter length]; lia|].
      split; [lia|]. split.
      * intros who. rewrite Hent. cbn [last_put].
        destruct (last_put who ops) as [[now' kv']|]; [reflexivity|].
        apply (entry_of_old s s1 who Hwf Hd1 Hold).
      * intros a Ha Hne. rewrite Hfr by (rewrite ?Hd1; lia || congruence).
        apply Hold. exact Ha.
Qed.

(** X23.  Any history of [put] and [snapshot] calls goes through:
    starting from a well-formed state (the empty one of [__init__], say),
    no call raises, each snapshot returns a root, and at the end the entry
    stored for each subsystem is the coerced, time-stamped form of the
    arguments of the last [put] made for it -- earlier entries for the
    same name are replaced as a whole, entries of other names and
    snapshots taken in between make no difference -- while no object the
    callers passed in is modified. *)
Theorem state_history_last_writer_wins (ops : list op) (s : t) :
  wf s -> entries_apart s -> Forall (op_ok (length (heap s))) ops ->
  exists s' roots,
    run ops s = Some (s', roots) /\ wf s' /\
    length roots = snapshots ops /\
    (forall who,
       entry_of s' who =
       match last_put who ops with
       | Some (now, kv) => Some (safe_entry now kv)
       | None => entry_of s who
       end) /\
    (forall a, (a < length (heap s))%nat -> a <> data s ->
               heap s' !! a = heap s !! a).
Proof.
  intros Hwf Hap Hops.
  destruct (run_history ops s Hwf Hap Hops)
    as (s' & roots & H1 & H2 & _ & _ & H3 & _ & H4 & H5).
  exists s', roots. split; [exact H1|]. split; [exact H2|].
  split; [exact H3|]. split; [exact H4 | exact H5].
Qed.

End StateHistories.

Section StateHistoryScenario.
Import Py.
Import SharedState.
Import StateOps.

Lemma init_wf : wf init /\ entries_apart init.
Proof.
  split; [split|].
  - unfold heap_wf, init. cbn [heap length].
    apply Forall_cons_2; [|apply Forall_nil_2].
    split; [apply Forall_nil_2 | apply NoDup_nil_2].
  - eexists. reflexivity.
  - intros d who Hd. cbn in Hd. injection Hd as <-. discriminate.
Qed.

Lemma state_history_last_writer_wins_witness :
  let ops := [Put 1 "vpr" [("status"%string, VStr "initializing")];
              Snapshot;
              Put 2 "inference" [("loop"%string, VStr "running")];
              Put 3 "vpr" [("status"%string, VStr "ok")];
              Snapshot] in
  exists s' roots,
    run ops init = Some (s', roots) /\ wf s' /\
    length roots = snapshots ops /\
    (forall who,
       entry_of s' who =
       match last_put who ops with
       | Some (now, kv) => Some (safe_entry now kv)
       | None => entry_of init who
       end) /\
    (forall a, (a < length (heap init))%nat -> a <> data init ->
               heap s' !! a = heap init !! a).
Proof.
  intros ops.
  apply (state_history_last_writer_wins ops init (proj1 init_wf) (proj2 init_wf)).
  subst ops.
  repeat (apply Forall_cons_2;
          [first [exact I
                 | split; [repeat constructor
                          | apply (proj1 (bool_decide_eq_true _)); reflexivity]]|]).
  apply Forall_nil_2.
Defined.

End StateHistoryScenario.

(** ** Actuation while inference stalls *)

Section Stall.
Import Controller.
Variable policy : list Q -> Inference.action.

Lemma act_cycle_timeout (c : t) :
  stop_condition c = false -> (5 <= drive_enable_counter c)%Z -> act_q c = [] ->
  act_cycle 1 None c =
    ({| obs_q := obs_q c; act_q := []; vpr := vpr c;
        vpr_feed_running := vpr_feed_running c; stop_region := stop_region c;
        drive_enable_counter := drive_enable_counter c + 1; pwm := pwm c |},
     None).
Proof.
  intros Hs Hc Hq. unfold act_cycle. rewrite Hs. unfold drive_enabled.
  cbn [Z.eqb Pos.eqb].
  assert (Z.ltb drive_enable_threshold (drive_enable_counter c + 1) = true) as ->.
  { apply Z.ltb_lt. unfold drive_enable_threshold. lia. }
  cbn [act_q]. rewrite Hq. reflexivity.
Qed.

(** X24.  With the drive enabled and no stop in force, actuation cycles
    that find the action channel empty time out one after the other and
    send nothing: for as long as inference produces no action the pulses
    stay what the last command made them, throttle included. *)
Theorem stalled_inference_holds_pulses
  (n : nat) (c : t) (inf : Inference.t) :
  stop_condition c = false -> (5 <= drive_enable_counter c)%Z -> act_q c = [] ->
  exists c',
    run policy (replicate n (Actuate 1)) (c, inf) = Some ((c', inf), []) /\
    pwm c' = pwm c /\ act_q c' = [] /\
    drive_enable_counter c' = (drive_enable_counter c + Z.of_nat n)%Z.
Proof.
  revert c. induction n as [|n IH]; intros c Hs Hc Hq.
  - exists c. cbn [replicate run]. split; [reflexivity|].
    split; [reflexivity|]. split; [exact Hq | lia].
  - cbn [replicate run step]. rewrite (act_cycle_timeout c Hs Hc Hq). cbn [fst].
    set (c1 := {| obs_q := obs_q c; act_q := []; vpr := vpr c;
                  vpr_feed_running := vpr_feed_running c;
                  stop_region := stop_region c;
                  drive_enable_counter := drive_enable_counter c + 1;
                  pwm := pwm c |}).
    destruct (IH c1) as (c' & Hrun & Hp & Hq' & Hn).
    + exact Hs.
    + cbn [c1 drive_enable_counter]. lia.
    + reflexivity.
    + exists c'. rewrite Hrun. split; [reflexivity|].
      split; [exact Hp|]. split; [exact Hq'|].
      rewrite Hn. cbn [c1 drive_enable_counter]. lia.
Qed.

End Stall.

Section StallScenario.
Import Controller.

Lemma stalled_inference_holds_pulses_witness :
  let c := {| obs_q := []; act_q := []; vpr := VPR.init;
              vpr_feed_running := false; stop_region := None;
              drive_enable_counter := 7;
              pwm := {| PWM.throttle_us := 1590; PWM.steer_us := 1400 |} |} in
  exists c',
    run Scenario.policy_example (replicate 4 (Actuate 1))
        (c, Scenario.inference_ready) = Some ((c', Scenario.inference_ready), []) /\
    pwm c' = pwm c /\ act_q c' = [] /\
    drive_enable_counter c' = (drive_enable_counter c + Z.of_nat 4)%Z.
Proof.
  intros c.
  apply (stalled_inference_holds_pulses Scenario.policy_example 4 c
           Scenario.inference_ready).
  - reflexivity.
  - cbn. lia.
  - reflexivity.
Defined.

End StallScenario.

(** ** The button watcher *)

Section ButtonPresses.
Import Button.
Context {F : Type}.

Lemma poll_spec (val : Z) (frame : option F) (s : t F) :
  (length (rec_q s) <= REC_MAXSIZE)%nat ->
  prev (poll val frame s) = val /\
  (length (rec_q (poll val frame s)) <= REC_MAXSIZE)%nat /\
  exists added,
    rec_q (poll val frame s) = rec_q s ++ added /\
    (length added <= falling_edges (prev s) [val])%nat.
Proof.
  intros Hlen. unfold poll. cbn [prev rec_q falling_edges].
  split; [reflexivity|].
  destruct (Z.eqb val 0 && Z.eqb (prev s) 1).
  - destruct frame as [f|].
    + unfold Queue.put_nowait, Queue.full, REC_MAXSIZE in *.
      cbn [Nat.eqb negb andb].
      destruct (Nat.leb_spec 2 (length (rec_q s))) as [Hfull|Hroom].
      * split; [exact Hlen|]. exists []. rewrite app_nil_r.
        split; [reflexivity | cbn; lia].
      * split; [rewrite length_app; cbn; lia|]. exists [f].
        split; [reflexivity | cbn; lia].
    + split; [exact Hlen|]. exists []. rewrite app_nil_r.
      split; [reflexivity | cbn; lia].
  - split; [exact Hlen|]. exists []. rewrite app_nil_r.
    split; [reflexivity | cbn; lia].
Qed.

Lemma poll_all_spec (ps : list (Z * option F)) :
  forall s : t F,
    (length (rec_q s) <= REC_MAXSIZE)%nat ->
    (length (rec_q (poll_all ps s)) <= REC_MAXSIZE)%nat /\
    exists added,
      rec_q (poll_all ps s) = rec_q s ++ added /\
      (length added <= falling_edges (prev s) (map fst ps))%nat.
Proof.
  induction ps as [|[val frame] ps IH]; intros s Hlen;
    cbn [poll_all fold_left map fst snd falling_edges].
  - split; [exact Hlen|]. exists []. rewrite app_nil_r.
    split; [reflexivity | cbn; lia].
  - destruct (poll_spec val frame s Hlen) as (Hp & Hl1 & a1 & Hq1 & Ha1).
    destruct (IH (poll val frame s) Hl1) as (Hl2 & a2 & Hq2 & Ha2).
    split; [exact Hl2|]. exists (a1 ++ a2).
    unfold poll_all in Hq2. rewrite Hq2, Hq1, <- app_assoc.
    split; [reflexivity|]. rewrite length_app, Hp in *.
    cbn [falling_edges] in Ha1. lia.
Qed.

Lemma falling_edges_low (vals : list Z) :
  Forall (fun v => v = 0%Z) vals -> falling_edges 0 vals = O.
Proof.
  intros H. induction H as [|v vals -> _ IH]; cbn [falling_edges]; [reflexivity|].
  rewrite IH. reflexivity.
Qed.

Lemma falling_edges_held (prev : Z) (vals : list Z) :
  Forall (fun v => v = 0%Z) vals -> (falling_edges prev vals <= 1)%nat.
Proof.
  intros H. destruct H as [|v vals -> H]; cbn [falling_edges]; [lia|].
  rewrite (falling_edges_low vals H).
  destruct (Z.eqb 0 0 && Z.eqb prev 1); lia.
Qed.

(** X25.  The button watcher only ever appends to the recognizer queue,
    never holds more than two frames in it, and appends at most one frame
    per falling edge of the line (a sample at 0 right after a sample at
    1); so a button held down over any number of polls captures at most
    one frame. *)
Theorem button_captures_per_press (ps : list (Z * option F)) (s : t F) :
  (length (rec_q s) <= REC_MAXSIZE)%nat ->
  (length (rec_q (poll_all ps s)) <= 2)%nat /\
  exists added,
    rec_q (poll_all ps s) = rec_q s ++ added /\
    (length added <= falling_edges (prev s) (map fst ps))%nat /\
    (Forall (fun p => fst p = 0%Z) ps -> (length added <= 1)%nat).
Proof.
  intros Hlen. destruct (poll_all_spec ps s Hlen) as (H1 & added & H2 & H3).
  split; [exact H1|]. exists added. split; [exact H2|]. split; [exact H3|].
  intros Hheld.
  pose proof (falling_edges_held (prev s) (map fst ps)) as H.
  rewrite Forall_map in H. specialize (H Hheld). lia.
Qed.

End ButtonPresses.

Section ButtonScenario.
Import Button.

Lemma button_captures_per_press_witness :
  (length (rec_q (poll_all [(0%Z, Some "frame 1"%string);
                            (0%Z, Some "frame 2"%string);
                            (1%Z, Some "frame 3"%string);
                            (0%Z, Some "frame 4"%string)] init)) <= 2)%nat /\
  exists added,
    rec_q (poll_all [(0%Z, Some "frame 1"%string);
                     (0%Z, Some "frame 2"%string);
                     (1%Z, Some "frame 3"%string);
                     (0%Z, Some "frame 4"%string)] init) = rec_q init ++ added /\
    (length added <=
     falling_edges (prev (@init string))
       (map fst [(0%Z, Some "frame 1"%string); (0%Z, Some "frame 2"%string);
                 (1%Z, Some "frame 3"%string); (0%Z, Some "frame 4"%string)]))%nat /\
    (Forall (fun p => fst p = 0%Z)
       [(0%Z, Some "frame 1"%string); (0%Z, Some "frame 2"%string);
        (1%Z, Some "frame 3"%string); (0%Z, Some "frame 4"%string)] ->
     (length added <= 1)%nat).
Proof.
  apply (button_captures_per_press
           [(0%Z, Some "frame 1"%string); (0%Z, Some "frame 2"%string);
            (1%Z, Some "frame 3"%string); (0%Z, Some "frame 4"%string)] init).
  unfold REC_MAXSIZE. cbn. lia.
Defined.

End ButtonScenario.

(** ** The region graph *)

Section RegionGraph.
Import RegionNetwork.

Lemma has_node_spec (G : graph) (name : string) :
  has_node G name = true <-> is_Some (nodes G !! name).
Proof. unfold has_node. apply bool_decide_eq_true. Qed.

Lemma add_nodes_spec (rd : list (string * region)) :
  forall G : graph,
    edges (add_nodes rd G) = edges G /\
    (forall name, is_Some (nodes (add_nodes rd G) !! name) <->
                  is_Some (nodes G !! name) \/ declared rd name) /\
    ((forall name pos, nodes G !! name = Some pos -> length pos = 2%nat) ->
     forall name pos, nodes (add_nodes rd G) !! name = Some pos ->
                      length pos = 2%nat).
Proof.
  induction rd as [|[n data] rd IH]; intros G; cbn [add_nodes fold_left fst snd].
  - split; [reflexivity|]. split; [|exact id].
    intros name. split; [left; assumption|].
    intros [H|(data & [] & _)]. exact H.
  - set (G1 := if valid_position data
               then add_node n (take 2 (default [] (position data))) G else G).
    destruct (IH G1) as (He & Hn & Hl). fold (add_nodes rd G1).
    assert (edges G1 = edges G) as He1.
    { subst G1. destruct (valid_position data); reflexivity. }
    assert (forall name, is_Some (nodes G1 !! name) <->
              is_Some (nodes G !! name) \/
              (name = n /\ valid_position data = true)) as Hn1.
    { intros name. subst G1. destruct (valid_position data) eqn:Ev.
      - cbn [add_node nodes]. rewrite lookup_insert_is_Some.
        split.
        + intros [->|[_ H]]; [right; split; reflexivity | left; exact H].
        + intros [H|[-> _]]; [|left; reflexivity].
          destruct (decide (n = name)) as [->|Hne];
            [left; reflexivity | right; split; assumption].
      - split; [left; assumption|]. intros [H|[_ H]]; [exact H | discriminate]. }
    split; [congruence|]. split.
    + intros name. rewrite Hn, Hn1. unfold declared. split.
      * intros [[H|[-> Hv]]|(d & Hd & Hv)].
        -- left. exact H.
        -- right. exists data. split; [left; reflexivity | exact Hv].
        -- right. exists d. split; [right; exact Hd | exact Hv].
      * intros [H|(d & [[= <- <-]|Hd] & Hv)].
        -- left. left. exact H.
        -- left. right. split; [reflexivity | exact Hv].
        -- right. exists d. split; assumption.
    + intros HG. apply Hl. intros name pos. subst G1.
      destruct (valid_position data) eqn:Ev; [|apply HG].
      cbn [add_node nodes]. intros H.
      apply (proj1 (lookup_insert_Some _ _ _ _ _)) in H as [[_ <-]|[_ H]];
        [|exact (HG _ _ H)].
      unfold valid_position in Ev.
      destruct (position data) as [[|x [|y p]]|]; try discriminate. reflexivity.
Qed.

Lemma valid_position_cases (data : region) :
  valid_position data = true <->
  exists x y rest, position data = Some (x :: y :: rest).
Proof.
  unfold valid_position. destruct (position data) as [[|x [|y rest]]|]; split;
    try discriminate; try (intros (x' & y' & r' & H); discriminate H).
  - intros _. exists x, y, rest. reflexivity.
  - intros _. reflexivity.
Qed.

(** Every stored position is the first two coordinates of a declaration of
    that region. *)
Lemma add_nodes_from (P : string -> list Q -> Prop) (rd : list (string * region)) :
  (forall name data x y rest,
     In (name, data) rd -> position data = Some (x :: y :: rest) ->
     P name [x; y]) ->
  forall G : graph,
    (forall name pos, nodes G !! name = Some pos -> P name pos) ->
    forall name pos, nodes (add_nodes rd G) !! name = Some pos -> P name pos.
Proof.
  induction rd as [|[n data] rd IH]; intros Hrd G HG;
    cbn [add_nodes fold_left fst snd]; [exact HG|].
  fold (add_nodes rd (if valid_position data
                      then add_node n (take 2 (default [] (position data))) G
                      else G)).
  apply IH.
  - intros name d x y rest Hin. apply Hrd. right. exact Hin.
  - destruct (valid_position data) eqn:Ev; [|exact HG].
    apply valid_position_cases in Ev as (x & y & rest & Hpos).
    rewrite Hpos. cbn [default take add_node nodes].
    intros name pos H.
    apply (proj1 (lookup_insert_Some _ _ _ _ _)) in H as [[<- <-]|[_ H]];
      [|exact (HG _ _ H)].
    apply (Hrd n data x y rest); [left; reflexivity | exact Hpos].
Qed.

Lemma add_nodes_skip (rd : list (string * region)) (name : string) :
  forall G : graph,
    ~ In name (map fst rd) ->
    nodes (add_nodes rd G) !! name = nodes G !! name.
Proof.
  induction rd as [|[n data] rd IH]; intros G Hnot;
    cbn [add_nodes fold_left fst snd]; [reflexivity|].
  fold (add_nodes rd (if valid_position data
                      then add_node n (take 2 (default [] (position data))) G
                      else G)).
  cbn [map fst] in Hnot.
  rewrite IH by (intros H; apply Hnot; right; exact H).
  destruct (valid_position data); [|reflexivity].
  cbn [add_node nodes]. apply lookup_insert_ne.
  intros ->. apply Hnot. left. reflexivity.
Qed.

(** With distinct names, as the keys of a dict are, each usable
    declaration is stored. *)
Lemma add_nodes_stores (rd : list (string * region)) :
  NoDup (map fst rd) ->
  forall (G : graph) name data x y rest,
    In (name, data) rd -> position data = Some (x :: y :: rest) ->
    nodes (add_nodes rd G) !! name = Some [x; y].
Proof.
  induction rd as [|[n d] rd IH]; intros Hnd G name data x y rest Hin Hpos;
    [destruct Hin|].
  cbn [map fst] in Hnd. apply NoDup_cons in Hnd as [Hn Hnd].
  cbn [add_nodes fold_left fst snd].
  fold (add_nodes rd (if valid_position d
                      then add_node n (take 2 (default [] (position d))) G
                      else G)).
  destruct Hin as [[= -> ->]|Hin].
  - rewrite add_nodes_skip
      by (intros H; apply Hn; apply list_elem_of_In; exact H).
    rewrite (proj2 (valid_position_cases data)) by (eexists _, _, _; exact Hpos).
    rewrite Hpos. cbn [default take add_node nodes].
    apply lookup_insert_eq.
  - exact (IH Hnd _ name data x y rest Hin Hpos).
Qed.

Lemma add_edges_of_spec (name : string) (ns : list string) :
  forall G : graph,
    nodes (add_edges_of name ns G) = nodes G /\
    forall u v, (u, v) ∈ edges (add_edges_of name ns G) <->
                (u, v) ∈ edges G \/
                exists n, In n ns /\ has_node G n = true /\
                          ((u, v) = (name, n) \/ (u, v) = (n, name)).
Proof.
  induction ns as [|n ns IH]; intros G; cbn [add_edges_of fold_left].
  - split; [reflexivity|]. intros u v. split; [left; assumption|].
    intros [H|(n & [] & _)]. exact H.
  - set (G1 := if has_node G n then add_edge name n G else G).
    destruct (IH G1) as (Hn & He). fold (add_edges_of name ns G1).
    assert (nodes G1 = nodes G) as Hn1.
    { subst G1. destruct (has_node G n); reflexivity. }
    assert (forall x, has_node G1 x = has_node G x) as Hh.
    { intros x. unfold has_node. rewrite Hn1. reflexivity. }
    split; [congruence|]. intros u v. rewrite He.
    assert ((u, v) ∈ edges G1 <->
            (u, v) ∈ edges G \/
            (has_node G n = true /\ ((u, v) = (name, n) \/ (u, v) = (n, name))))
      as He1.
    { subst G1. destruct (has_node G n).
      - cbn [add_edge edges]. rewrite !elem_of_union, !elem_of_singleton. split.
        + intros [[H|H]|H];
            [right; split; [reflexivity | left; exact H]
            |right; split; [reflexivity | right; exact H]
            |left; exact H].
        + intros [H|[_ [H|H]]];
            [right; exact H | left; left; exact H | left; right; exact H].
      - split; [left; assumption|]. intros [H|[H _]]; [exact H | discriminate]. }
    rewrite He1. split.
    + intros [[H|[Hv Huv]]|(m & Hm & Hv & Huv)].
      * left. exact H.
      * right. exists n. split; [left; reflexivity|]. split; assumption.
      * right. exists m. split; [right; exact Hm|]. rewrite <- Hh. split; assumption.
    + intros [H|(m & [<-|Hm] & Hv & Huv)].
      * left. left. exact H.
      * left. right. split; assumption.
      * right. exists m. split; [exact Hm|]. rewrite Hh. split; assumption.
Qed.

Lemma add_edges_spec (rd : list (string * region)) :
  forall G : graph,
    nodes (add_edges rd G) = nodes G /\
    forall u v, (u, v) ∈ edges (add_edges rd G) <->
                (u, v) ∈ edges G \/
                exists name data n,
                  In (name, data) rd /\ has_node G name = true /\
                  In n (neighbors data) /\ has_node G n = true /\
                  ((u, v) = (name, n) \/ (u, v) = (n, name)).
Proof.
  induction rd as [|[name data] rd IH]; intros G; cbn [add_edges fold_left fst snd].
  - split; [reflexivity|]. intros u v. split; [left; assumption|].
    intros [H|(n & d & m & [] & _)]. exact H.
  - set (G1 := if has_node G name
               then add_edges_of name (neighbors data) G else G).
    destruct (IH G1) as (Hn & He). fold (add_edges rd G1).
    destruct (add_edges_of_spec name (neighbors data) G) as (Hn0 & He0).
    assert (nodes G1 = nodes G) as Hn1.
    { subst G1. destruct (has_node G name); [exact Hn0 | reflexivity]. }
    assert (forall x, has_node G1 x = has_node G x) as Hh.
    { intros x. unfold has_node. rewrite Hn1. reflexivity. }
    assert (forall u v, (u, v) ∈ edges G1 <->
              (u, v) ∈ edges G \/
              (has_node G name = true /\
               exists n, In n (neighbors data) /\ has_node G n = true /\
                         ((u, v) = (name, n) \/ (u, v) = (n, name)))) as He1.
    { intros u v. subst G1. destruct (has_node G name).
      - rewrite He0. split; intros [H|H]; [left; exact H | right; split;
          [reflexivity | exact H] | left; exact H | right; exact (proj2 H)].
      - split; [left; assumption|]. intros [H|[H _]]; [exact H | discriminate]. }
    split; [congruence|]. intros u v. rewrite He, He1. split.
    + intros [[H|(Hv & n & Hin & Hvn & Huv)]|(nm & d & n & Hin & Hv & Hn' & Hvn & Huv)].
      * left. exact H.
      * right. exists name, data, n. split; [left; reflexivity|].
        repeat split; assumption.
      * right. exists nm, d, n. split; [right; exact Hin|].
        rewrite <- !Hh. repeat split; assumption.
    + intros [H|(nm & d & n & [[= <- <-]|Hin] & Hv & Hn' & Hvn & Huv)].
      * left. left. exact H.
      * left. right. split; [exact Hv|]. exists n. repeat split; assumption.
      * right. exists nm, d, n. rewrite !Hh. repeat split; assumption.
Qed.

(** X26.  The region graph has as nodes exactly the regions declared with
    a position of at least two coordinates; the position stored for a node
    is the first two coordinates of a declaration of that region, and with
    distinct region names (the keys of the loaded dict) every usable
    declaration is stored so.  Two nodes are joined exactly when one of
    them lists the other among its neighbours, so a link declared on one
    side only holds in both directions and a link to a region without
    usable position is dropped; and the navigator refuses to start
    ([IOError]) exactly when no region has a usable position. *)
Theorem region_graph_spec (rd : list (string * region)) :
  let G := build_networkx_graph rd in
  (forall name, has_node G name = true <-> declared rd name) /\
  (forall name pos,
     nodes G !! name = Some pos ->
     exists data x y rest,
       In (name, data) rd /\ position data = Some (x :: y :: rest) /\
       pos = [x; y]) /\
  (NoDup (map fst rd) ->
   forall name data x y rest,
     In (name, data) rd -> position data = Some (x :: y :: rest) ->
     nodes G !! name = Some [x; y]) /\
  (forall u v, has_edge G u v <->
               declared rd u /\ declared rd v /\ (lists rd u v \/ lists rd v u)) /\
  (forall u v, has_edge G u v -> has_edge G v u) /\
  (navigator_init rd = None <-> forall name, ~ declared rd name).
Proof.
  intros G.
  destruct (add_nodes_spec rd empty) as (He0 & Hn0 & Hl0).
  destruct (add_edges_spec rd (add_nodes rd empty)) as (Hn1 & He1).
  fold (build_networkx_graph rd) in Hn1, He1. fold G in Hn1, He1.
  assert (forall name, has_node G name = true <-> declared rd name) as Hnode.
  { intros name. rewrite has_node_spec, Hn1, Hn0. cbn [empty nodes].
    rewrite lookup_empty. split; [intros [[x Hx]|H]; [discriminate | exact H]|].
    intros H. right. exact H. }
  assert (forall x, has_node (add_nodes rd empty) x = has_node G x) as Hh.
  { intros x. unfold has_node. rewrite Hn1. reflexivity. }
  assert (forall u v, has_edge G u v <->
            declared rd u /\ declared rd v /\ (lists rd u v \/ lists rd v u))
    as Hedge.
  { intros u v. unfold has_edge. rewrite He1, He0. cbn [empty edges]. split.
    - intros [H|(nm & d & n & Hin & Hv & Hn' & Hvn & Huv)];
        [exfalso; exact (not_elem_of_empty _ H)|].
      rewrite Hh in Hv, Hvn. apply Hnode in Hv, Hvn.
      destruct Huv as [[= -> ->]|[= -> ->]].
      + split; [exact Hv|]. split; [exact Hvn|]. left. exists d. split; assumption.
      + split; [exact Hvn|]. split; [exact Hv|]. right. exists d. split; assumption.
    - intros (Hu & Hv & [(d & Hin & Hn')|(d & Hin & Hn')]); right.
      + exists u, d, v. rewrite !Hh. split; [exact Hin|].
        split; [apply Hnode; exact Hu|]. split; [exact Hn'|].
        split; [apply Hnode; exact Hv|]. left. reflexivity.
      + exists v, d, u. rewrite !Hh. split; [exact Hin|].
        split; [apply Hnode; exact Hv|]. split; [exact Hn'|].
        split; [apply Hnode; exact Hu|]. right. reflexivity. }
  split; [exact Hnode|]. split.
  { intros name pos. rewrite Hn1.
    apply (add_nodes_from
             (fun name pos =>
                exists data x y rest,
                  In (name, data) rd /\
                  position data = Some (x :: y :: rest) /\ pos = [x; y])).
    - intros n data x y rest Hin Hpos. exists data, x, y, rest.
      split; [exact Hin|]. split; [exact Hpos | reflexivity].
    - intros n p H. cbn in H. rewrite lookup_empty in H. discriminate. }
  split.
  { intros Hnd name data x y rest Hin Hpos. rewrite Hn1.
    exact (add_nodes_stores rd Hnd empty name data x y rest Hin Hpos). }
  split; [exact Hedge|]. split.
  { intros u v. rewrite !Hedge. tauto. }
  unfold navigator_init. fold G.
  destruct (decide (nodes G = ∅)) as [Hemp|Hne].
  - rewrite bool_decide_eq_true_2 by exact Hemp. split; [|reflexivity].
    intros _ name Hd. apply Hnode, has_node_spec in Hd.
    rewrite Hemp, lookup_empty in Hd. destruct Hd as [x Hx]. discriminate.
  - rewrite bool_decide_eq_false_2 by exact Hne. split; [discriminate|].
    intros Hnone. exfalso. apply Hne. apply (proj2 (map_empty _)). intros name.
    destruct (nodes G !! name) as [pos|] eqn:E; [|reflexivity].
    exfalso. apply (Hnone name). apply Hnode, has_node_spec.
    rewrite E. eexists. reflexivity.
Qed.

End RegionGraph.

(** ** Stopping inference *)

Section StopInference.
Import Controller.
Import EStop.

(** X27.  [stop_inference()] writes the brake pulse and at once the
    neutral, centred pair over it, which is what it leaves; it does
    nothing at all, not even brake, when inference was never started; and
    it does not empty the action channel: with the drive enabled and no
    stop in force, the next actuation cycle applies the action still
    waiting there, so a waiting action of positive throttle puts the
    throttle pulse back into the forward band. *)
Theorem stop_inference_leaves_pending_action
  (c : t) (th st : Q) (rest : list Inference.action) :
  (fst (stop_inference false c) = c /\ snd (stop_inference false c) = []) /\
  (pwm (fst (stop_inference true c)) =
     {| PWM.throttle_us := 1500; PWM.steer_us := 1500 |} /\
   map PWM.throttle_us (snd (stop_inference true c)) = [1000; 1500]%Z /\
   act_q (fst (stop_inference true c)) = act_q c /\
   obs_q (fst (stop_inference true c)) = obs_q c) /\
  (stop_condition c = false -> (5 <= drive_enable_counter c)%Z ->
   act_q c = (th, st) :: rest -> 0 < th ->
   let r := act_cycle 1 None (fst (stop_inference true c)) in
   snd r = Some (PWM.SetControls th st) /\
   (PWM.THR_START_US <= PWM.throttle_us (pwm (fst r)) <= PWM.THR_MAX_US)%Z).
Proof.
  split; [split; reflexivity|]. split; [repeat split|].
  intros Hs Hc Hq Hth r. subst r.
  unfold stop_inference. cbn [fst].
  unfold act_cycle.
  assert (stop_condition (with_pwm (PWM.set_controls 0 0 (PWM.hard_brake (pwm c))) c)
          = false) as -> by exact Hs.
  unfold drive_enabled. cbn [Z.eqb Pos.eqb with_pwm drive_enable_counter act_q].
  assert (Z.ltb drive_enable_threshold (drive_enable_counter c + 1) = true) as ->.
  { apply Z.ltb_lt. unfold drive_enable_threshold. lia. }
  rewrite Hq. cbn [Queue.get_timeout fst snd with_act pwm PWM.exec].
  split; [reflexivity|].
  exact (proj2 (set_controls_throttle th st _) Hth).
Qed.

End StopInference.

(** ** The subsystem lifecycle, whatever the loop does *)

Section LifecycleOutcome.
Import Subsystem.
Variable S : Type.
Variable init_hardware : S -> method S.
Variable loop : S -> method S.

Local Abbreviation while_loop := (while_loop S loop).
Local Abbreviation run := (run S init_hardware loop).

Lemma while_loop_calls (n : nat) (s : S) :
  (calls_of_loop (fst (while_loop n s)) <= n)%nat.
Proof.
  revert s. induction n as [|n IH]; intros s; [cbn; lia|].
  destruct (loop s) as [tr [e|s']] eqn:E.
  - rewrite (while_loop_step_raise S loop n s tr e E). cbn [fst].
    change (calls_of_loop (CallLoop :: map Publish tr ++ [Publish (status_error e)]))
      with (Datatypes.S (calls_of_loop (map Publish tr ++ [Publish (status_error e)]))).
    rewrite calls_of_loop_app, calls_of_loop_publishes. cbn. lia.
  - rewrite (while_loop_step_ok S loop n s tr s' E). cbn [fst].
    change (calls_of_loop (CallLoop :: map Publish tr ++ fst (while_loop n s')))
      with (Datatypes.S (calls_of_loop (map Publish tr ++ fst (while_loop n s')))).
    rewrite calls_of_loop_app, calls_of_loop_publishes.
    specialize (IH s'). lia.
Qed.

(** X28.  Whatever [init_hardware] and [loop] do, a run ends in one of two
    ways, decided by [init_hardware] alone: if it raised, the ready flag is
    false and the status left in Shared State is 'error' with its message;
    if it returned, the ready flag is true and the status left is 'off',
    even when a later [loop()] failed.  The first thing published is
    always 'initializing', and [loop()] is called at most as many times as
    the stop event was found clear. *)
Theorem run_outcome_decided_by_init (budget : nat) (s : S) :
  ((exists ti e,
      init_hardware s = (ti, inl e) /\
      snd (run budget s) = inr false /\
      last_published (fst (run budget s)) = Some (status_error e)) \/
   (exists ti s1,
      init_hardware s = (ti, inr s1) /\
      snd (run budget s) = inr true /\
      last_published (fst (run budget s)) = Some (status "off"))) /\
  head (fst (run budget s)) = Some (Publish (status "initializing")) /\
  (calls_of_loop (fst (run budget s)) <= budget)%nat.
Proof.
  destruct (init_hardware s) as [ti [e|s1]] eqn:E.
  - rewrite (run_init_failed S init_hardware loop budget s ti e E). cbn [fst snd].
    split; [left; exists ti, e; split; [reflexivity|]; split; [reflexivity|]|].
    + rewrite !app_comm_cons. apply last_published_snoc.
    + split; [reflexivity|].
      change (calls_of_loop (map Publish ti ++ [Publish (status_error e)])
              <= budget)%nat.
      rewrite calls_of_loop_app, calls_of_loop_publishes. cbn. lia.
  - rewrite (run_init_ok S init_hardware loop budget s ti s1 E). cbn [fst snd].
    split; [right; exists ti, s1; split; [reflexivity|]; split; [reflexivity|]|].
    + rewrite !app_comm_cons, app_assoc. apply last_published_snoc.
    + split; [reflexivity|].
      change (calls_of_loop (map Publish ti ++ Publish (status "ok") ::
                fst (while_loop budget s1) ++ [Publish (status "off")])
              <= budget)%nat.
      rewrite calls_of_loop_app, calls_of_loop_publishes.
      change (calls_of_loop (fst (while_loop budget s1) ++ [Publish (status "off")])
              <= budget)%nat.
      rewrite calls_of_loop_app. pose proof (while_loop_calls budget s1).
      cbn. lia.
Qed.

End LifecycleOutcome.
